(** * Graph scoring worker of the attribution-graph viewer

    A shallow embedding of
    [apps/webapp/app/[modelId]/graph/score.worker.ts]: the functions
    [normalizeMatrix], [computeInfluence], [reconstructAdjacencyMatrix] and
    [computeGraphScoresFromGraphData] (the [compute] of the specification),
    followed by the properties the specification states about them.

    Modelling choices.
    - A JavaScript [number] holding a weight, a probability or a score is an
      IEEE 754 binary64 value: Rocq's primitive [float], whose operations
      round to nearest-even as JavaScript's do and which has one NaN.
    - The entries of a sort key are binary64 numbers that hold integers:
      [ctx_idx] and [feature] (specification, section 3) and the number that
      [parseInt] reads from [layer].  In a sort key they are modelled by
      the integer they hold, in [Z]; [parseInt] returns a binary64 number,
      and an infinite layer number is held as [2^1024], above every
      binary64 number.
      The comparator's difference is then the exact one, which has the sign
      of the binary64 difference; the sort uses the sign only.  Array
      indices and counts are [nat].
    - A text is held as the bytes of its UTF-8 encoding; equality,
      concatenation and the white space that [parseInt] skips are those of
      the text.
    - Arrays are lists; a matrix is a list of rows.  A [Record<string, number>]
      is a finite map together with what a plain JavaScript object inherits
      from [Object.prototype].
    - A function that can throw returns a [Result].
    - The feature types are the strings of the source: what the
      specification calls transcoder-feature and reconstruction-error are
      ["cross layer transcoder"] and ["mlp reconstruction error"]. *)

From Stdlib Require Import Floats ZArith Ascii String.
From Stdlib Require Import DecimalString DecimalPos DecimalZ.
From stdpp Require Import gmap strings list sorting.

Set Default Proof Using "Type".
Local Open Scope string_scope.

(** ** Data model *)

(** Modelled from the spec: the declarations [CLTGraphNode] and [CLTGraphLink]
    of [./graph-types], which the worker imports, are not part of the sources
    at hand.  Section 3 of the specification lists the fields; only the fields
    the worker reads are kept.  [feature] is optional and [token_prob] is
    present on logit nodes only, hence the options ([None] is [undefined]). *)
Record CLTGraphNode := {
  node_id : string;
  feature_type : string;
  layer : string;
  ctx_idx : Z;
  feature : option Z;
  token_prob : option float;
}.

Record CLTGraphLink := {
  source : string;
  target : string;
  weight : float;
}.

Record WorkerGraph := {
  nodes : list CLTGraphNode;
  links : list CLTGraphLink;
}.

Record ScoreResult := {
  replacementScore : float;
  completenessScore : float;
}.

Abbreviation matrix := (list (list float)).

(** ** Exceptions *)

Inductive JsError :=
  | TypeError
  | Error (message : string).

Inductive Result (A : Type) :=
  | Ok (a : A)
  | Throw (e : JsError).
Arguments Ok {A} a.
Arguments Throw {A} e.

#[export] Instance Result_bind : MBind Result := λ A B k r,
  match r with
  | Ok a => k a
  | Throw e => Throw e
  end.

(** [arr.forEach((x, idx) => ...)] with the state the callback mutates
    passed along. *)
Fixpoint forEachFrom {A St} (f : A → nat → St → St) (idx : nat) (arr : list A) (s : St) : St :=
  match arr with
  | [] => s
  | x :: rest => forEachFrom f (S idx) rest (f x idx s)
  end.

Definition forEach {A St} (f : A → nat → St → St) (arr : list A) (s : St) : St :=
  forEachFrom f 0 arr s.

(** The same for a callback that can throw: the first exception ends the loop. *)
Fixpoint forEachM {A St} (f : A → St → Result St) (arr : list A) (s : St) : Result St :=
  match arr with
  | [] => Ok s
  | x :: rest => s' ← f x s; forEachM f rest s'
  end.

(** ** Numbers *)

Module Js.

(** [undefined] in an arithmetic position is NaN. *)
Definition toNumber (v : option float) : float := default nan v.

(** [Math.max(x, y)]: NaN when an argument is NaN, and [+0] is larger
    than [-0]. *)
Definition Math_max (x y : float) : float :=
  if is_nan x || is_nan y then nan
  else if (x <? y)%float then y
  else if (y <? x)%float then x
  else if get_sign x then y else x.

(** [x !== 0] on numbers. *)
Definition nonZero (x : float) : bool := negb (x =? 0)%float.

(** [Number.isNaN(x) ? 0 : x] *)
Definition nanToZero (x : float) : float := if is_nan x then 0%float else x.

(** [arr.reduce((sum, val) => sum + val, 0)] *)
Definition sum (arr : list float) : float := foldl PrimFloat.add 0%float arr.

(** [arr.slice(start, end)] for [0 <= start] and [0 <= end]. *)
Definition slice {A} (start end_ : nat) (arr : list A) : list A :=
  take (end_ - start) (drop start arr).

(** The integer that a binary64 number holds, for the numbers of a sort
    key.  Plus and minus infinity are held as plus and minus [2^1024], above
    and below every binary64 number: the numbers of a key are only compared
    with each other. *)
Definition integerOf (x : spec_float) : Z :=
  match x with
  | S754_zero _ => 0
  | S754_finite s m e => (if s then -1 else 1) * Z.shiftl (Z.pos m) e
  | S754_infinity s => (if s then -1 else 1) * 2 ^ 1024
  | S754_nan => 0
  end%Z.

(** The Number value for the integer [z]: [z] rounded to the nearest
    binary64 number, ties to even, infinite from [2^1024 - 2^970] on;
    [negative] is the sign of a zero. *)
Definition ofInteger (z : Z) (negative : bool) : float :=
  SF2Prim (binary_normalize prec emax z 0 negative).

(** Decimal text of an integer, as a template literal prints it. *)
Definition numberToString (z : Z) : string := NilZero.string_of_int (Z.to_int z).
Definition natToString (n : nat) : string := NilZero.string_of_uint (Nat.to_uint n).

End Js.

(** ** [normalizeMatrix]

    The function uses absolute value, addition, maximum and division only;
    it is written over these operations, which the worker runs on binary64
    numbers ([float_arith]). *)

Class Arith (T : Type) := {
  a_zero : T;
  a_add : T → T → T;
  a_abs : T → T;
  a_max : T → T → T;
  a_div : T → T → T;
  a_epsilon : T;          (* the literal 1e-10 *)
}.

#[export] Instance float_arith : Arith float := {|
  a_zero := 0%float;
  a_add := PrimFloat.add;
  a_abs := PrimFloat.abs;
  a_max := Js.Math_max;
  a_div := PrimFloat.div;
  a_epsilon := 0x1.b7cdfd9d7bdbbp-34%float;   (* the binary64 value of 1e-10 *)
|}.

Section Normalize.
Context {T : Type} `{Arith T}.

Definition normalizeRow (row : list T) : list T :=
  let absRow := map a_abs row in
  let sum := foldl a_add a_zero absRow in
  let clampedSum := a_max sum a_epsilon in
  map (fun val => a_div val clampedSum) absRow.

Definition normalizeMatrix (matrix : list (list T)) : list (list T) :=
  map normalizeRow matrix.
End Normalize.

(** ** [computeInfluence] *)

(** [A[i][j]] read inside a product: a missing row makes the access throw,
    a missing entry is [undefined], which the product turns into NaN. *)
Definition entry (A : matrix) (i j : nat) : Result float :=
  match A !! i with
  | None => Throw TypeError
  | Some row => Ok (Js.toNumber (row !! j))
  end.

(** One column of the product: [acc += v[i] * A[i][j]] for [i] from [0]. *)
Fixpoint dotColumn (A : matrix) (j : nat) (i : nat) (v : list float) (acc : float) : Result float :=
  match v with
  | [] => Ok acc
  | vi :: rest => a ← entry A i j; dotColumn A j (S i) rest (acc + vi * a)%float
  end.

Fixpoint traverse {A B} (f : A → Result B) (l : list A) : Result (list B) :=
  match l with
  | [] => Ok []
  | x :: rest => y ← f x; ys ← traverse f rest; Ok (y :: ys)
  end.

(** The double loop that the function runs twice (lines 22-27 on
    [logitWeights], lines 37-42 on [currentInfluence]): a fresh array of
    [A[0].length] zeros receives [v · A]. *)
Definition propagate (A : matrix) (ncols : nat) (v : list float) : Result (list float) :=
  traverse (fun j => dotColumn A j 0 v 0%float) (seq 0 ncols).

(** [influence[i] += currentInfluence[i]] for [i < influence.length]. *)
Definition accumulate (influence currentInfluence : list float) : list float :=
  imap (fun i x => (x + Js.toNumber (currentInfluence !! i))%float) influence.

Definition someNonZero (v : list float) : bool := existsb Js.nonZero v.

Definition convergenceMessage (iterations : nat) : string :=
  "Influence computation failed to converge after " ++ Js.natToString iterations ++ " iterations".

(** The [while] loop.  [fuel] bounds the recursion; with [fuel = maxIter] it
    is never exhausted ([influenceLoop_fuel]), because the loop throws once
    [iterations] reaches [maxIter]. *)
Fixpoint influenceLoop (A : matrix) (ncols maxIter fuel iterations : nat)
    (currentInfluence influence : list float) : Result (list float) :=
  if someNonZero currentInfluence then
    if (maxIter <=? iterations)%nat then Throw (Error (convergenceMessage iterations))
    else
      match fuel with
      | O => Throw (Error "out of fuel")
      | S fuel' =>
          newInfluence ← propagate A ncols currentInfluence;
          influenceLoop A ncols maxIter fuel' (S iterations)
            newInfluence (accumulate influence newInfluence)
      end
  else Ok influence.

Definition computeInfluenceWith (maxIter : nat) (A : matrix) (logitWeights : list float) : Result (list float) :=
  match A !! 0%nat with
  | None => Throw TypeError               (* A[0].length on an empty matrix *)
  | Some row0 =>
      let ncols := length row0 in
      currentInfluence ← propagate A ncols logitWeights;
      influenceLoop A ncols maxIter maxIter 0 currentInfluence currentInfluence
  end.

(** The default [maxIter = 1000]. *)
Definition computeInfluence : matrix → list float → Result (list float) :=
  computeInfluenceWith 1000.

(** ** [reconstructAdjacencyMatrix] *)

Definition featureTypeOrder : list string :=
  ["cross layer transcoder"; "mlp reconstruction error"; "embedding"; "logit"].

(** [parseInt(text, 10)]: leading white space is skipped, a sign is read, then
    the longest run of decimal digits.  The result is NaN when there is no
    digit, else the Number value of the integer read: a binary64 number,
    which can be infinite, or [-0] for the text ["-0"].

    White space is [StrWhiteSpaceChar]: TAB, LF, VT, FF, CR, SP, U+00A0,
    U+1680, U+2000 to U+200A, U+2028, U+2029, U+202F, U+205F, U+3000 and
    U+FEFF, each in its UTF-8 encoding of one, two or three bytes. *)
Module ParseInt.

Definition whiteSpace1 (c : ascii) : bool :=
  bool_decide (nat_of_ascii c ∈ [9; 10; 11; 12; 13; 32]).

Definition whiteSpace2 (c1 c2 : ascii) : bool :=
  bool_decide ((nat_of_ascii c1, nat_of_ascii c2) = (194, 160)).

Definition whiteSpace3 (c1 c2 c3 : ascii) : bool :=
  let '(b1, b2, b3) := (nat_of_ascii c1, nat_of_ascii c2, nat_of_ascii c3) in
  bool_decide ((b1, b2, b3) = (225, 154, 128))
  || bool_decide (b1 = 226 ∧ b2 = 128 ∧ (128 ≤ b3 ≤ 138 ∨ b3 = 168 ∨ b3 = 169 ∨ b3 = 175))%nat
  || bool_decide ((b1, b2, b3) = (226, 129, 159))
  || bool_decide ((b1, b2, b3) = (227, 128, 128))
  || bool_decide ((b1, b2, b3) = (239, 187, 191)).

Fixpoint trimStart (text : string) : string :=
  match text with
  | String c1 rest1 =>
      if whiteSpace1 c1 then trimStart rest1
      else
        match rest1 with
        | String c2 rest2 =>
            if whiteSpace2 c1 c2 then trimStart rest2
            else
              match rest2 with
              | String c3 rest3 => if whiteSpace3 c1 c2 c3 then trimStart rest3 else text
              | EmptyString => text
              end
        | EmptyString => text
        end
  | EmptyString => EmptyString
  end.

Definition digitValue (c : ascii) : option Z :=
  let n := nat_of_ascii c in
  if bool_decide (48 ≤ n ≤ 57)%nat then Some (Z.of_nat n - 48)%Z else None.

(** The integer that the longest run of digits at the start of the text
    denotes; [acc] when the text starts with no digit. *)
Fixpoint digits (text : string) (acc : option Z) : option Z :=
  match text with
  | String c rest =>
      match digitValue c with
      | Some d => digits rest (Some (10 * default 0 acc + d)%Z)
      | None => acc
      end
  | EmptyString => acc
  end.

(** The sign, and the text behind it. *)
Definition sign (text : string) : bool * string :=
  match text with
  | String "-" rest => (true, rest)
  | String "+" rest => (false, rest)
  | rest => (false, rest)
  end.

Definition parseInt (text : string) : float :=
  let '(negative, rest) := sign (trimStart text) in
  match digits rest None with
  | None => nan
  | Some mathInt => Js.ofInteger (if negative then - mathInt else mathInt)%Z negative
  end.

End ParseInt.

Definition typePriority (node : CLTGraphNode) : nat :=
  match list_find (λ t, t = feature_type node) featureTypeOrder with
  | Some (i, _) => i
  | None => length featureTypeOrder
  end.

(** [node.layer === 'E' ? 0 : Number.isNaN(parseInt(node.layer, 10)) ? 999 :
    parseInt(node.layer, 10)], as the integer this number holds. *)
Definition layerNum (node : CLTGraphNode) : Z :=
  if decide (layer node = "E") then 0%Z
  else
    let parsed := ParseInt.parseInt (layer node) in
    if is_nan parsed then 999%Z else Js.integerOf (Prim2SF parsed).

Definition getSortKey (node : CLTGraphNode) : list Z :=
  [Z.of_nat (typePriority node); layerNum node; ctx_idx node; default 0%Z (feature node)].

(** The comparator's loop over the two keys.  Both keys have four entries, so
    no index is out of range, and on integers [keyA[i] || 0] is [keyA[i]]. *)
Fixpoint compareKeys (keyA keyB : list Z) : Z :=
  match keyA, keyB with
  | valA :: restA, valB :: restB =>
      if decide (valA ≠ valB) then (valA - valB)%Z else compareKeys restA restB
  | _, _ => 0%Z
  end.

Definition compareNodes (a b : CLTGraphNode) : Z :=
  compareKeys (getSortKey a) (getSortKey b).

(** [Array.prototype.sort] is stable, and the comparator is a consistent
    ordering of the keys, so the result is the stable sort of the input: a
    node goes behind the later nodes that it compares greater than, and
    stays in front of the others. *)
Fixpoint insertNode (a : CLTGraphNode) (sorted : list CLTGraphNode) : list CLTGraphNode :=
  match sorted with
  | [] => [a]
  | b :: rest => if (0 <? compareNodes a b)%Z then b :: insertNode a rest else a :: b :: rest
  end.

Definition sortNodes (nodes : list CLTGraphNode) : list CLTGraphNode :=
  foldr insertNode [] nodes.

(** A plain object used as a dictionary from strings to indices.  Reading a
    key that is not an own property falls through to [Object.prototype],
    whose properties are functions (or the prototype itself for [__proto__])
    and therefore not [undefined]; assigning a number to [__proto__] creates
    no own property. *)
Module Dict.

Definition objectPrototypeKeys : list string :=
  ["constructor"; "hasOwnProperty"; "isPrototypeOf"; "propertyIsEnumerable";
   "toLocaleString"; "toString"; "valueOf"; "__proto__";
   "__defineGetter__"; "__defineSetter__"; "__lookupGetter__"; "__lookupSetter__"].

Inductive value :=
  | Undefined
  | Index (idx : nat)
  | Inherited.

Definition set (key : string) (idx : nat) (d : gmap string nat) : gmap string nat :=
  if decide (key = "__proto__") then d else <[key := idx]> d.

Definition get (d : gmap string nat) (key : string) : value :=
  match d !! key with
  | Some idx => Index idx
  | None => if decide (key ∈ objectPrototypeKeys) then Inherited else Undefined
  end.

End Dict.

Definition nodeIdToIdx (sortedNodes : list CLTGraphNode) : gmap string nat :=
  forEach (λ node idx d, Dict.set (node_id node) idx d) sortedNodes ∅.

(** [matrix[r][c] = v] with both indices inside the matrix: the matrix is
    square of the size of [sortedNodes] throughout, and every index is
    either an index of the loop over [sortedNodes] or a value of one of the
    two dictionaries, which hold indices of [sortedNodes] only. *)
Definition mset (r c : nat) (v : float) (M : matrix) : matrix :=
  alter (<[c := v]>) r M.

(** [matrix[r][c]], read under the same conditions. *)
Definition mread (M : matrix) (r c : nat) : float :=
  Js.toNumber (M !! r ≫= (.!! c)).

(** The callback of [edges.forEach].  When [dstIdx] is an inherited property,
    [adjacencyMatrix[dstIdx]] is [undefined] and the assignment throws; when
    only [srcIdx] is one, the assignment adds a named property to the row and
    leaves its elements as they are. *)
Definition addEdge (idx : gmap string nat) (edge : CLTGraphLink) (adjacencyMatrix : matrix) : Result matrix :=
  let srcIdx := Dict.get idx (source edge) in
  let dstIdx := Dict.get idx (target edge) in
  match srcIdx, dstIdx with
  | Dict.Undefined, _ | _, Dict.Undefined => Ok adjacencyMatrix
  | _, Dict.Inherited => Throw TypeError
  | Dict.Inherited, Dict.Index _ => Ok adjacencyMatrix
  | Dict.Index s, Dict.Index d => Ok (mset d s (weight edge) adjacencyMatrix)
  end.

Definition reconstructAdjacencyMatrix (nodes : list CLTGraphNode) (edges : list CLTGraphLink)
    : Result (matrix * list CLTGraphNode) :=
  let sortedNodes := sortNodes nodes in
  let idx := nodeIdToIdx sortedNodes in
  let nNodes := length sortedNodes in
  let adjacencyMatrix := replicate nNodes (replicate nNodes 0%float) in
  adjacencyMatrix ← forEachM (addEdge idx) edges adjacencyMatrix;
  Ok (adjacencyMatrix, sortedNodes).

(** ** [computeGraphScoresFromGraphData] *)

(** The helper [zeroRowAndColumn]: two loops over [adjacencyMatrix.length]. *)
Definition zeroRowAndColumn (idx : nat) (M : matrix) : matrix :=
  let M := foldl (λ M c, mset idx c 0%float M) M (seq 0 (length M)) in
  foldl (λ M r, mset r idx 0%float M) M (seq 0 (length M)).

(** [adjacencyMatrix[r][errorIdx] += adjacencyMatrix[r][featureIdx]] for every
    row [r]. *)
Definition mergeColumn (featureIdx errorIdx : nat) (M : matrix) : matrix :=
  foldl (λ M r, mset r errorIdx (mread M r errorIdx + mread M r featureIdx)%float M)
        M (seq 0 (length M)).

(** The template literal [`${node.layer}|${node.ctx_idx}`]. *)
Definition mergeKey (node : CLTGraphNode) : string :=
  layer node ++ "|" ++ Js.numberToString (ctx_idx node).

Definition errorIndexByKey (sortedNodes : list CLTGraphNode) : gmap string nat :=
  forEach (λ node idx d,
             if decide (feature_type node = "mlp reconstruction error")
             then Dict.set (mergeKey node) idx d
             else d)
          sortedNodes ∅.

(** The callback of the second [sortedNodes.forEach] (lines 130-149).  A key
    holds a vertical bar, so the lookup never returns an inherited property
    ([mergeKey_not_inherited]); were it to, the [+=] would add a named
    property to each row and change no element. *)
Definition mergeNode (pinnedSet : gset string) (errorIndex : gmap string nat)
    (node : CLTGraphNode) (featureIdx : nat) (M : matrix) : matrix :=
  if decide (feature_type node ≠ "cross layer transcoder") then M
  else if decide (node_id node ∈ pinnedSet) then M
  else
    match Dict.get errorIndex (mergeKey node) with
    | Dict.Undefined => zeroRowAndColumn featureIdx M
    | Dict.Index errorIdx => zeroRowAndColumn featureIdx (mergeColumn featureIdx errorIdx M)
    | Dict.Inherited => zeroRowAndColumn featureIdx M
    end.

(** Lines 118-150: the merge of the features that are not pinned, run only
    when [pinnedIds] is not empty. *)
Definition mergePass (sortedNodes : list CLTGraphNode) (pinnedIds : list string) (M : matrix) : matrix :=
  if (0 <? length pinnedIds)%nat then
    let pinnedSet : gset string := list_to_set pinnedIds in
    forEach (mergeNode pinnedSet (errorIndexByKey sortedNodes)) sortedNodes M
  else M.

Definition hasType (t : string) (node : CLTGraphNode) : bool :=
  bool_decide (feature_type node = t).

Definition countType (t : string) (sortedNodes : list CLTGraphNode) : nat :=
  length (List.filter (hasType t) sortedNodes).

(** Lines 163-169.  The array can hold [undefined] for a logit node without
    [token_prob]; every later use is arithmetic, where [undefined] is NaN, so
    NaN is stored. *)
Definition logitWeights (sortedNodes : list CLTGraphNode) (n : nat) : list float :=
  let nLogits := countType "logit" sortedNodes in
  let sortedLogitProbs := map token_prob (List.filter (hasType "logit") sortedNodes) in
  foldl (λ lw i, <[(n - nLogits + i)%nat := Js.toNumber (mjoin (sortedLogitProbs !! i))]> lw)
        (replicate n 0%float) (seq 0 nLogits).

(** Lines 152-189, from the merged matrix on. *)
Definition scoresFromMatrix (sortedNodes : list CLTGraphNode) (adjacencyMatrix : matrix) : Result ScoreResult :=
  let nFeatures := countType "cross layer transcoder" sortedNodes in
  let nErrorNodes := countType "mlp reconstruction error" sortedNodes in
  let nTokens := countType "embedding" sortedNodes in
  let errorStart := nFeatures in
  let errorEnd := (errorStart + nErrorNodes)%nat in
  let tokenEnd := (errorEnd + nTokens)%nat in
  let logitWeights := logitWeights sortedNodes (length adjacencyMatrix) in
  let normalizedMatrix := normalizeMatrix adjacencyMatrix in
  nodeInfluence ← computeInfluence normalizedMatrix logitWeights;
  let tokenInfluence := Js.sum (Js.slice errorEnd tokenEnd nodeInfluence) in
  let errorInfluence := Js.sum (Js.slice errorStart errorEnd nodeInfluence) in
  let replacementScore := (tokenInfluence / (tokenInfluence + errorInfluence))%float in
  let nonErrorFractions :=
    map (λ row, (1 - Js.sum (Js.slice errorStart errorEnd row))%float) normalizedMatrix in
  let outputInfluence :=
    imap (λ i val, (val + Js.toNumber (logitWeights !! i))%float) nodeInfluence in
  let completenessScore :=
    (Js.sum (imap (λ i fraction, (fraction * Js.toNumber (outputInfluence !! i))%float) nonErrorFractions)
     / Js.sum outputInfluence)%float in
  Ok {| replacementScore := Js.nanToZero replacementScore;
        completenessScore := Js.nanToZero completenessScore |}.

Definition computeGraphScoresFromGraphData (graphData : WorkerGraph) (pinnedIds : list string)
    : Result ScoreResult :=
  '(adjacencyMatrix, sortedNodes) ← reconstructAdjacencyMatrix (nodes graphData) (links graphData);
  scoresFromMatrix sortedNodes (mergePass sortedNodes pinnedIds adjacencyMatrix).


(** ** Definitions used by the statements *)

(** A matrix with [n] rows of [n] entries. *)
Definition square (n : nat) (M : matrix) : Prop :=
  length M = n ∧ Forall (λ row, length row = n) M.

(** What the loop of [mergeColumn] does to one row. *)
Definition mergeRow (featureIdx errorIdx : nat) (row : list float) : list float :=
  <[errorIdx := (Js.toNumber (row !! errorIdx) + Js.toNumber (row !! featureIdx))%float]> row.

(** What the first loop of [zeroRowAndColumn] does to the row it clears. *)
Definition zeroPrefix (n : nat) (row : list float) : list float :=
  foldl (λ row c, <[c := 0%float]> row) row (seq 0 n).

(** Whether a string holds a vertical bar. *)
Fixpoint hasBar (text : string) : bool :=
  match text with
  | EmptyString => false
  | String c rest => bool_decide (c = "|"%char) || hasBar rest
  end.

(** The node at canonical index [e] is an error node with merge key [key]. *)
Definition isErrorAt (sortedNodes : list CLTGraphNode) (e : nat) (key : string) : Prop :=
  ∃ node, sortedNodes !! e = Some node
          ∧ feature_type node = "mlp reconstruction error"
          ∧ mergeKey node = key.

#[export] Instance Dict_value_eq_dec : EqDecision Dict.value.
Proof. solve_decision. Defined.

(** Two [n × n] matrices that can differ in row [row] only. *)
Definition agreeOffRow (n row : nat) (M M' : matrix) : Prop :=
  square n M ∧ square n M' ∧ ∀ r, r ≠ row → M !! r = M' !! r.

(** ** Concrete graphs *)

Module Scenario.

(** The nodes and edges of the concrete scenario of section 8. *)
Definition E : CLTGraphNode :=
  {| node_id := "E"; feature_type := "embedding"; layer := "E"; ctx_idx := 0;
     feature := None; token_prob := None |}.
Definition F : CLTGraphNode :=
  {| node_id := "F"; feature_type := "cross layer transcoder"; layer := "3"; ctx_idx := 0;
     feature := Some 5%Z; token_prob := None |}.
Definition R : CLTGraphNode :=
  {| node_id := "R"; feature_type := "mlp reconstruction error"; layer := "3"; ctx_idx := 0;
     feature := None; token_prob := None |}.
Definition L : CLTGraphNode :=
  {| node_id := "L"; feature_type := "logit"; layer := "3"; ctx_idx := 0;
     feature := None; token_prob := Some 1%float |}.

Definition edge (s t : string) (w : float) : CLTGraphLink :=
  {| source := s; target := t; weight := w |}.

Definition graph : WorkerGraph :=
  {| nodes := [E; F; R; L];
     links := [edge "E" "F" 2; edge "F" "L" 1; edge "E" "R" 1; edge "R" "L" 1] |}.

(** A second error node at the position of [R]. *)
Definition R' : CLTGraphNode :=
  {| node_id := "R2"; feature_type := "mlp reconstruction error"; layer := "3"; ctx_idx := 0;
     feature := None; token_prob := None |}.

(** A second feature node, one layer up, and its error node. *)
Definition G : CLTGraphNode :=
  {| node_id := "G"; feature_type := "cross layer transcoder"; layer := "4"; ctx_idx := 0;
     feature := Some 1%Z; token_prob := None |}.
Definition Rg : CLTGraphNode :=
  {| node_id := "Rg"; feature_type := "mlp reconstruction error"; layer := "4"; ctx_idx := 0;
     feature := None; token_prob := None |}.

(** A matrix with pairwise distinct non-zero entries. *)
Definition numbered (n : nat) : matrix :=
  imap (λ r row, imap (λ c _, (of_uint63 (Uint63.of_Z (Z.of_nat (1 + r * n + c))))%float) row)
       (replicate n (replicate n 0%float)).

End Scenario.

(** ** Edges and matrix entries *)

(** The edge has its source at canonical index [s] and its target at [t]. *)
Definition edgeResolves (idx : gmap string nat) (s t : nat) (edge : CLTGraphLink) : bool :=
  bool_decide (Dict.get idx (source edge) = Dict.Index s
               ∧ Dict.get idx (target edge) = Dict.Index t).

(** The weight of the last edge of the list from [s] to [t], zero without one. *)
Definition lastEdgeWeight (idx : gmap string nat) (edges : list CLTGraphLink) (s t : nat) : float :=
  match last (List.filter (edgeResolves idx s t) edges) with
  | Some edge => weight edge
  | None => 0%float
  end.

(** The entry as the specification words it, [A[target][source] += weight]:
    the weights of the edges from [s] to [t], added up in the order of the
    list. *)
Definition edgeWeightSum (idx : gmap string nat) (edges : list CLTGraphLink) (s t : nat) : float :=
  Js.sum (map weight (List.filter (edgeResolves idx s t) edges)).

(** ** The iterates of [computeInfluence] *)

(** [k] applications of the matrix to [v]. *)
Fixpoint iterFrom (A : matrix) (ncols : nat) (k : nat) (v : list float) : Result (list float) :=
  match k with
  | O => Ok v
  | S k' => v' ← propagate A ncols v; iterFrom A ncols k' v'
  end.

(** The value of [currentInfluence] after [k] turns of the loop: the seed
    [logitWeights · A] for [k = 0], one more application of [A] per turn. *)
Definition iterate (A : matrix) (logitWeights : list float) (k : nat) : Result (list float) :=
  match A !! 0%nat with
  | None => Throw TypeError
  | Some row0 => iterFrom A (length row0) (S k) logitWeights
  end.

(** The sum of the iterates [0] to [k], added in that order. *)
Fixpoint accumulated (A : matrix) (logitWeights : list float) (k : nat) : Result (list float) :=
  match k with
  | O => iterate A logitWeights 0
  | S k' =>
      influence ← accumulated A logitWeights k';
      v ← iterate A logitWeights (S k');
      Ok (accumulate influence v)
  end.

(** The iterate first vanishes at turn [k]. *)
Definition firstZeroAt (A : matrix) (logitWeights : list float) (k : nat) : Prop :=
  (∃ v, iterate A logitWeights k = Ok v ∧ someNonZero v = false)
  ∧ ∀ j, j < k → ∃ u, iterate A logitWeights j = Ok u ∧ someNonZero u = true.

(** [k] turns of the loop body without the loop test. *)
Fixpoint accSteps (A : matrix) (ncols : nat) (k : nat) (cur influence : list float)
    : Result (list float) :=
  match k with
  | O => Ok influence
  | S k' =>
      new ← propagate A ncols cur;
      accSteps A ncols k' new (accumulate influence new)
  end.

(** ** The influence series, as the specification words it

    These definitions do not use the code of [computeInfluence]: the
    product of a vector with the matrix, its repeated application to the
    logit weights, and the sum of the vectors obtained. *)

(** The product [v · A] on the first [ncols] columns: entry [j] is the sum
    of the products [v[i] · A[i][j]], added from [i = 0] on. *)
Definition vectorMatrix (A : matrix) (ncols : nat) (v : list float) : list float :=
  map (λ j, foldl (λ acc '(vi, row), (acc + vi * Js.toNumber (row !! j))%float)
                  0%float (zip v A))
      (seq 0 ncols).

(** The number of columns: the length of the first row. *)
Definition columns (A : matrix) : nat := length (default [] (A !! 0%nat)).

(** The iterate of index [k]: the logit weights after [k + 1] applications
    of the matrix. *)
Fixpoint influenceIterate (A : matrix) (logitWeights : list float) (k : nat) : list float :=
  match k with
  | O => vectorMatrix A (columns A) logitWeights
  | S k' => vectorMatrix A (columns A) (influenceIterate A logitWeights k')
  end.

(** The sum of the iterates of index [0] to [k], added entry by entry in
    that order. *)
Fixpoint influenceSum (A : matrix) (logitWeights : list float) (k : nat) : list float :=
  match k with
  | O => influenceIterate A logitWeights 0
  | S k' =>
      zip_with PrimFloat.add (influenceSum A logitWeights k')
                             (influenceIterate A logitWeights (S k'))
  end.

(** Every entry of the vector is zero ([+0] or [-0]). *)
Definition zeroVector (v : list float) : bool := forallb (λ x, (x =? 0)%float) v.

(** ** Graphs without edges *)

(** The binary64 sum of the token probabilities of the logit nodes, taken
    in canonical order; each probability enters as [0 + token_prob], the
    influence of the node (zero, without edges) plus its logit weight. *)
Definition logitProbabilitySum (nodeList : list CLTGraphNode) : float :=
  Js.sum (map (λ node, (0 + Js.toNumber (token_prob node))%float)
              (List.filter (hasType "logit") (sortNodes nodeList))).

(** ** The order of the comparator *)

(** [a] does not have to come after [b]: the comparator is not positive. *)
Definition notAfter (a b : CLTGraphNode) : Prop := (compareNodes a b ≤ 0)%Z.

(** No two nodes of the list have equal sort keys. *)
Definition distinctKeys (nodes : list CLTGraphNode) : Prop :=
  ∀ i j a b, nodes !! i = Some a → nodes !! j = Some b → i ≠ j → compareNodes a b ≠ 0%Z.

Module Tied.

(** Two error nodes with the same (layer, ctx_idx), hence with equal sort
    keys; the feature [F] is not pinned, the feature [G] is. *)
Definition edges : list CLTGraphLink :=
  [Scenario.edge "E" "R" 1; Scenario.edge "F" "L" 1; Scenario.edge "E" "L" 1].

Definition graph : WorkerGraph :=
  {| nodes := [Scenario.E; Scenario.F; Scenario.G; Scenario.R; Scenario.R'; Scenario.L];
     links := edges |}.

(** The same graph with the two error nodes exchanged in the node list. *)
Definition permuted : WorkerGraph :=
  {| nodes := [Scenario.E; Scenario.F; Scenario.G; Scenario.R'; Scenario.R; Scenario.L];
     links := edges |}.

Definition pinnedIds : list string := ["G"].

End Tied.

(** ** Tactics for statements about concrete lists *)

(** Case analysis on the index of a lookup in a list given by its elements. *)
Ltac lookup_cases H :=
  repeat match type of H with
         | (_ :: _) !! ?e = Some _ => destruct e as [|e]; [injection H as <-|cbn in H]
         | [] !! _ = Some _ => discriminate H
         end.

(** A string is none of the elements of a list of strings. *)
Ltac not_in_list :=
  let H := fresh in
  intros H; repeat (apply elem_of_cons in H as [H|H]; [discriminate H|]);
  by apply elem_of_nil in H.


(** ** The canonical order *)

(** The two nodes have equal sort keys: the comparator returns 0. *)
Definition tied (a b : CLTGraphNode) : bool := bool_decide (compareNodes a b = 0%Z).

(** ** Edges *)

(** The edge makes [edges.forEach] throw: its source is not [undefined] and
    its target is an inherited property. *)
Definition edgeThrows (idx : gmap string nat) (edge : CLTGraphLink) : Prop :=
  Dict.get idx (source edge) ≠ Dict.Undefined
  ∧ Dict.get idx (target edge) = Dict.Inherited.

(** The pair of identifiers an edge joins. *)
Definition endpoints (edge : CLTGraphLink) : string * string :=
  (source edge, target edge).

(** ** The result of the merge pass *)

(** The node is merged away by the merge pass: a feature node that is not
    pinned. *)
Definition isMerged (pinnedIds : list string) (node : CLTGraphNode) : bool :=
  bool_decide (feature_type node = "cross layer transcoder")
  && bool_decide (node_id node ∉ pinnedIds).

Definition mergedAt (l : list CLTGraphNode) (pinnedIds : list string) (i : nat) : bool :=
  from_option (isMerged pinnedIds) false (l !! i).

(** What the entry (row [r], column [c]) has received once the nodes of [l]
    have been processed: the entry of the matrix the pass started with, plus,
    in canonical order, the entries of row [r] in the columns of the merged
    features whose key leads to [c]. *)
Definition foldedEntry (table : gmap string nat) (pinnedIds : list string) (M : matrix)
    (r c : nat) (l : list CLTGraphNode) : float :=
  forEach (λ node f acc,
             if isMerged pinnedIds node && bool_decide (table !! mergeKey node = Some c)
             then (acc + mread M r f)%float
             else acc)
          l (mread M r c).

(** ** The message handler (lines 194-226)

    [ev.data] is any value a message can carry.  The handler tells three
    kinds apart: a falsy value; a truthy value that is no object; an object,
    of which it reads the own properties [requestId], [graph] and
    [pinnedIds].  As the type annotation of the handler says, a [graph] that
    is present is a [WorkerGraph] and [pinnedIds] is a list of strings; the
    object has no own property [hasOwnProperty].  The calls of [console] are
    left out. *)
Inductive MessageData :=
  | Falsy
  | Primitive
  | Object (requestId : option float) (graph : option WorkerGraph)
           (pinnedIds : option (list string)).

(** The object handed to [self.postMessage]: [{ requestId, ...scores }] or
    [{ error }]. *)
Record Reply := {
  reply_requestId : option float;
  reply_scores : option ScoreResult;
  reply_error : option string;
}.

Definition errorReply (message : string) : Reply :=
  {| reply_requestId := None; reply_scores := None; reply_error := Some message |}.

(** [(err as Error)?.message || 'Unknown worker error']; the message of a
    [TypeError] is the engine's, [typeErrorText]. *)
Definition errorMessage (typeErrorText : string) (err : JsError) : string :=
  let message := match err with TypeError => typeErrorText | Error message => message end in
  if decide (message = "") then "Unknown worker error" else message.

(** The handler: the reply it posts, if any. *)
Definition onmessage (typeErrorText : string) (data : MessageData) : option Reply :=
  match data with
  | Falsy => None
  | Primitive => Some (errorReply "Invalid message format received by worker")
  | Object requestId graph pinnedIds =>
      match graph, requestId with
      | Some graph, Some requestId =>
          match computeGraphScoresFromGraphData graph (default [] pinnedIds) with
          | Ok scores =>
              Some {| reply_requestId := Some requestId;
                      reply_scores := Some scores;
                      reply_error := None |}
          | Throw err => Some (errorReply (errorMessage typeErrorText err))
          end
      | _, _ => Some (errorReply "Invalid message format received by worker")
      end
  end.

(** The two nodes stand at the same position: same layer, same [ctx_idx]. *)
Definition samePosition (a b : CLTGraphNode) : bool :=
  bool_decide (layer a = layer b ∧ ctx_idx a = ctx_idx b).

(** What the entry of row [r] in the column of the node [target] holds after
    the merge pass: the entry [start] the pass found there, plus, in
    canonical order, the entries of row [r] in the columns of the feature
    nodes that are not pinned and stand at the position of [target]. *)
Definition foldedInto (sortedNodes : list CLTGraphNode) (pinnedIds : list string)
    (M : matrix) (r : nat) (target : CLTGraphNode) (start : float) : float :=
  forEach (λ node f acc,
             if isMerged pinnedIds node && samePosition node target
             then (acc + mread M r f)%float
             else acc)
          sortedNodes start.
(** * Properties *)

Local Close Scope string_scope.

(** ** Loops *)

Lemma forEachFrom_app {A St} (f : A → nat → St → St) l1 l2 i s :
  forEachFrom f i (l1 ++ l2) s = forEachFrom f (i + length l1) l2 (forEachFrom f i l1 s).
Proof.
  revert i s. induction l1 as [|x l1 IH]; intros i s; simpl.
  - by rewrite Nat.add_0_r.
  - rewrite IH. f_equal. lia.
Qed.

Lemma forEach_snoc {A St} (f : A → nat → St → St) l x s :
  forEach f (l ++ [x]) s = f x (length l) (forEach f l s).
Proof. unfold forEach. by rewrite forEachFrom_app. Qed.

(** A loop [for (r = 0; r < k; r++) M[r] = F r M[r]]. *)
Lemma foldl_alter_seq {A} (F : nat → A → A) (l : list A) (k r : nat) :
  foldl (λ l r, alter (F r) r l) l (seq 0 k) !! r
  = if decide (r < k) then F r <$> l !! r else l !! r.
Proof.
  induction k as [|k IH].
  - cbn [seq foldl]. case_decide; [lia | done].
  - rewrite seq_S, foldl_app. cbn [foldl Nat.add].
    destruct (decide (r = k)) as [->|Hne].
    + rewrite list_lookup_alter_eq, IH. repeat case_decide; try lia. done.
    + rewrite list_lookup_alter_ne by done. rewrite IH.
      repeat case_decide; try lia; done.
Qed.

Lemma foldl_alter_seq_length {A} (F : nat → A → A) (l : list A) (k : nat) :
  length (foldl (λ l r, alter (F r) r l) l (seq 0 k)) = length l.
Proof.
  induction k as [|k IH]; [done|].
  rewrite seq_S, foldl_app. cbn [foldl Nat.add]. by rewrite length_alter.
Qed.

Lemma foldl_alter_seq_all {A} (F : A → A) (l : list A) :
  foldl (λ l r, alter F r l) l (seq 0 (length l)) = F <$> l.
Proof.
  apply list_eq. intros r.
  rewrite (foldl_alter_seq (λ _, F)), list_lookup_fmap.
  case_decide as Hr; [done|].
  rewrite lookup_ge_None_2 by lia. done.
Qed.

Lemma foldl_ext_in {A B} (f g : A → B → A) (a : A) (l : list B) :
  (∀ a b, f a b = g a b) → foldl f a l = foldl g a l.
Proof.
  intros Hfg. revert a. induction l as [|b l IH]; intros a; simpl; [done|].
  by rewrite Hfg, IH.
Qed.

(** ** Matrices *)

Lemma square_length n M : square n M → length M = n.
Proof. by intros [? _]. Qed.

Lemma square_row n M r row : square n M → M !! r = Some row → length row = n.
Proof. intros [_ HM] Hr. by apply (Forall_lookup_1 _ _ _ _ HM Hr). Qed.

Lemma square_lookup n M r : square n M → r < n → ∃ row, M !! r = Some row ∧ length row = n.
Proof.
  intros HM Hr. destruct (lookup_lt_is_Some_2 M r) as [row Hrow].
  { by rewrite (square_length n M). }
  exists row. split; [done|]. by eapply square_row.
Qed.

Lemma square_replicate n : square n (replicate n (replicate n 0%float)).
Proof.
  split; [by rewrite length_replicate|].
  apply Forall_replicate. by rewrite length_replicate.
Qed.

Lemma square_alter n M r (F : list float → list float) :
  (∀ row, length (F row) = length row) → square n M → square n (alter F r M).
Proof.
  intros HF [Hlen Hrows]. split; [by rewrite length_alter|].
  apply Forall_alter; [done|].
  intros row _ Hrow. by rewrite HF.
Qed.

Lemma square_fmap n M (F : list float → list float) :
  (∀ row, length (F row) = length row) → square n M → square n (F <$> M).
Proof.
  intros HF [Hlen Hrows]. split; [by rewrite length_fmap|].
  apply Forall_fmap. eapply Forall_impl; [exact Hrows|].
  intros row Hrow. simpl. by rewrite HF.
Qed.

Lemma mread_lookup M r c row :
  M !! r = Some row → mread M r c = Js.toNumber (row !! c).
Proof. intros Hr. unfold mread. by rewrite Hr. Qed.

Lemma square_mset n M r c v : square n M → square n (mset r c v M).
Proof. apply square_alter. intros row. apply length_insert. Qed.

(** *** Closed forms of the three loops *)

Lemma zeroPrefix_lookup n row c :
  zeroPrefix n row !! c = if decide (c < n) then (λ _, 0%float) <$> row !! c else row !! c.
Proof.
  unfold zeroPrefix.
  rewrite (foldl_ext_in _ (λ row c, alter (λ _, 0%float) c row)).
  - apply (foldl_alter_seq (λ _ _, 0%float)).
  - intros. apply list_insert_alter.
Qed.

Lemma zeroPrefix_length n row : length (zeroPrefix n row) = length row.
Proof.
  unfold zeroPrefix.
  rewrite (foldl_ext_in _ (λ row c, alter (λ _, 0%float) c row)).
  - apply (foldl_alter_seq_length (λ _ _, 0%float)).
  - intros. apply list_insert_alter.
Qed.

Lemma zeroPrefix_full n row : length row ≤ n → zeroPrefix n row = replicate (length row) 0%float.
Proof.
  intros Hn. apply list_eq. intros c. rewrite zeroPrefix_lookup.
  destruct (decide (c < length row)) as [Hc|Hc].
  - rewrite lookup_replicate_2 by done. case_decide; [|lia].
    destruct (lookup_lt_is_Some_2 row c Hc) as [x ->]. done.
  - rewrite (proj1 (lookup_replicate_None _ _ _)) by lia.
    rewrite lookup_ge_None_2 by lia. by case_decide.
Qed.

Lemma zeroRow_loop idx M n :
  foldl (λ M c, mset idx c 0%float M) M (seq 0 n) = alter (zeroPrefix n) idx M.
Proof.
  induction n as [|n IH].
  - cbn [seq foldl]. symmetry. by apply list_alter_id.
  - rewrite seq_S, foldl_app. cbn [foldl Nat.add]. rewrite IH.
    unfold mset. rewrite list_alter_alter_eq.
    apply list_alter_ext; [|done..].
    intros row _. unfold zeroPrefix. by rewrite seq_S, foldl_app.
Qed.

Lemma zeroRowAndColumn_rows idx M :
  zeroRowAndColumn idx M = (<[idx := 0%float]>) <$> alter (zeroPrefix (length M)) idx M.
Proof.
  unfold zeroRowAndColumn. rewrite zeroRow_loop.
  unfold mset. apply (foldl_alter_seq_all (<[idx := 0%float]>)).
Qed.

Lemma mset_merge fidx eidx M r :
  mset r eidx (mread M r eidx + mread M r fidx)%float M = alter (mergeRow fidx eidx) r M.
Proof.
  unfold mset. apply list_alter_ext; [|done..].
  intros row Hrow. unfold mergeRow. by rewrite !(mread_lookup M r _ row Hrow).
Qed.

Lemma mergeColumn_rows fidx eidx M : mergeColumn fidx eidx M = mergeRow fidx eidx <$> M.
Proof.
  unfold mergeColumn.
  rewrite (foldl_ext_in _ (λ M r, alter (mergeRow fidx eidx) r M)).
  - apply foldl_alter_seq_all.
  - intros. apply mset_merge.
Qed.

Lemma square_zeroRowAndColumn n idx M : square n M → square n (zeroRowAndColumn idx M).
Proof.
  intros HM. rewrite zeroRowAndColumn_rows.
  apply square_fmap; [intros; apply length_insert|].
  apply square_alter; [intros; apply zeroPrefix_length|done].
Qed.

Lemma square_mergeColumn n fidx eidx M : square n M → square n (mergeColumn fidx eidx M).
Proof.
  intros HM. rewrite mergeColumn_rows.
  apply square_fmap; [|done]. intros. apply length_insert.
Qed.

(** *** Entries after each loop *)

Lemma mread_zeroRowAndColumn n idx M r c :
  square n M → r < n → c < n →
  mread (zeroRowAndColumn idx M) r c
  = if decide (r = idx ∨ c = idx) then 0%float else mread M r c.
Proof.
  intros HM Hr Hc. destruct (square_lookup n M r HM Hr) as (row & Hrow & Hlen).
  rewrite zeroRowAndColumn_rows, (mread_lookup M r c row Hrow), (square_length n M HM).
  destruct (decide (r = idx)) as [->|Hne].
  - rewrite decide_True by auto.
    erewrite mread_lookup;
      [|by rewrite list_lookup_fmap, list_lookup_alter_eq, Hrow].
    rewrite zeroPrefix_full by lia.
    rewrite list_lookup_insert, length_replicate, lookup_replicate_2 by lia.
    by case_decide.
  - erewrite mread_lookup;
      [|by rewrite list_lookup_fmap, list_lookup_alter_ne, Hrow].
    rewrite list_lookup_insert.
    case_decide as Hi.
    + rewrite decide_True by (right; symmetry; apply Hi). done.
    + rewrite decide_False; [done|]. intros [?|?]; [congruence|].
      apply Hi. split; [congruence|lia].
Qed.

Lemma mread_mergeColumn n fidx eidx M r c :
  square n M → r < n → c < n →
  mread (mergeColumn fidx eidx M) r c
  = if decide (c = eidx) then (mread M r eidx + mread M r fidx)%float else mread M r c.
Proof.
  intros HM Hr Hc. destruct (square_lookup n M r HM Hr) as (row & Hrow & Hlen).
  rewrite mergeColumn_rows. unfold mread at 1.
  rewrite list_lookup_fmap, Hrow. simpl. unfold mergeRow.
  rewrite !(mread_lookup M r _ row Hrow), list_lookup_insert.
  case_decide as Hi.
  - rewrite decide_True by (symmetry; apply Hi). done.
  - rewrite decide_False; [done|]. intros ->. apply Hi. split; [done|lia].
Qed.

(** ** Merge keys *)

Lemma append_nil_l (s : string) : (EmptyString ++ s)%string = s.
Proof. reflexivity. Qed.

Lemma append_cons (c : ascii) (a s : string) : (String c a ++ s)%string = String c (a ++ s).
Proof. reflexivity. Qed.

Lemma hasBar_app_bar a x : hasBar (a ++ String "|" x)%string = true.
Proof.
  induction a as [|c a IH].
  - done.
  - rewrite append_cons. cbn [hasBar]. rewrite IH. by rewrite orb_true_r.
Qed.

Lemma append_bar_inj a b x y :
  hasBar x = false → hasBar y = false →
  (a ++ String "|" x = b ++ String "|" y)%string → a = b ∧ x = y.
Proof.
  intros Hx Hy. revert b.
  induction a as [|c a IH]; intros [|c' b] Heq;
    rewrite ?append_cons, ?append_nil_l in Heq.
  - by injection Heq.
  - injection Heq as Hc Hrest. subst. by rewrite hasBar_app_bar in Hx.
  - injection Heq as Hc Hrest. subst. by rewrite hasBar_app_bar in Hy.
  - injection Heq as Hc Hrest. subst. destruct (IH b Hrest) as [-> ->]. done.
Qed.

Lemma mergeKey_unfold node :
  mergeKey node = (layer node ++ String "|" (Js.numberToString (ctx_idx node)))%string.
Proof. reflexivity. Qed.

Lemma hasBar_uint d : hasBar (NilEmpty.string_of_uint d) = false.
Proof. induction d; simpl; done. Qed.

Lemma hasBar_numberToString z : hasBar (Js.numberToString z) = false.
Proof.
  unfold Js.numberToString, NilZero.string_of_int, NilZero.string_of_uint.
  destruct (Z.to_int z) as [d|d]; destruct d; simpl; try done; apply hasBar_uint.
Qed.

Lemma to_int_not_nil z : Z.to_int z ≠ Decimal.Pos Decimal.Nil ∧ Z.to_int z ≠ Decimal.Neg Decimal.Nil.
Proof.
  destruct z as [|p|p]; simpl; split; try discriminate;
    intros [= Hp]; by apply (DecimalPos.Unsigned.to_uint_nonnil p).
Qed.

Lemma numberToString_inj z1 z2 : Js.numberToString z1 = Js.numberToString z2 → z1 = z2.
Proof.
  unfold Js.numberToString. intros Heq.
  apply DecimalZ.to_int_inj.
  assert (Some (Z.to_int z1) = Some (Z.to_int z2)) as [= ->]; [|done].
  destruct (to_int_not_nil z1), (to_int_not_nil z2).
  rewrite <-(NilZero.isi (Z.to_int z1)), <-(NilZero.isi (Z.to_int z2)) by done.
  by rewrite Heq.
Qed.

Lemma mergeKey_inj a b :
  mergeKey a = mergeKey b ↔ layer a = layer b ∧ ctx_idx a = ctx_idx b.
Proof.
  rewrite !mergeKey_unfold. split.
  - intros Heq. apply append_bar_inj in Heq as [? ?%numberToString_inj];
      auto using hasBar_numberToString.
  - by intros [-> ->].
Qed.

Lemma mergeKey_hasBar node : hasBar (mergeKey node) = true.
Proof. rewrite mergeKey_unfold. apply hasBar_app_bar. Qed.

Lemma mergeKey_not_inherited node :
  mergeKey node ≠ "__proto__"%string ∧ mergeKey node ∉ Dict.objectPrototypeKeys.
Proof.
  pose proof (mergeKey_hasBar node) as Hbar. split.
  - intros Heq. by rewrite Heq in Hbar.
  - intros Hin. unfold Dict.objectPrototypeKeys in Hin.
    repeat (apply elem_of_cons in Hin as [Heq|Hin];
            [by rewrite Heq in Hbar|]).
    by apply elem_of_nil in Hin.
Qed.

(** ** The two dictionaries *)

Lemma Dict_get_Index d key idx : Dict.get d key = Dict.Index idx ↔ d !! key = Some idx.
Proof.
  unfold Dict.get. destruct (d !! key) as [i|].
  - split; intros [= ->]; done.
  - case_decide; split; discriminate.
Qed.

Lemma errorIndexByKey_snoc l node :
  errorIndexByKey (l ++ [node])
  = if decide (feature_type node = "mlp reconstruction error"%string)
    then <[mergeKey node := length l]> (errorIndexByKey l)
    else errorIndexByKey l.
Proof.
  unfold errorIndexByKey. rewrite forEach_snoc.
  case_decide; [|done].
  unfold Dict.set. rewrite decide_False; [done|].
  apply mergeKey_not_inherited.
Qed.

Lemma isErrorAt_snoc l node e key :
  isErrorAt (l ++ [node]) e key ↔
  isErrorAt l e key
  ∨ (e = length l ∧ feature_type node = "mlp reconstruction error"%string ∧ mergeKey node = key).
Proof.
  unfold isErrorAt. split.
  - intros (n & Hn & Ht & Hk).
    apply lookup_app_Some in Hn as [Hn|[Hlen Hn]]; [left; eauto|right].
    apply list_lookup_singleton_Some in Hn as [Hz ->].
    split; [lia|done].
  - intros [(n & Hn & Ht & Hk)|(-> & Ht & Hk)].
    + exists n. split; [|done]. by apply lookup_app_l_Some.
    + exists node. split; [|done]. rewrite lookup_app_r by done.
      by rewrite Nat.sub_diag.
Qed.

Lemma isErrorAt_lt l e key : isErrorAt l e key → e < length l.
Proof. intros (n & Hn & _). by eapply lookup_lt_Some. Qed.

(** The table holds, for each key, the highest index of an error node with
    that key, and nothing for the keys of no error node. *)
Lemma errorIndexByKey_lookup l key :
  match errorIndexByKey l !! key with
  | Some e => isErrorAt l e key ∧ ∀ e', isErrorAt l e' key → e' ≤ e
  | None => ∀ e', ¬ isErrorAt l e' key
  end.
Proof.
  induction l as [|node l IH] using rev_ind.
  - unfold errorIndexByKey, forEach. cbn [forEachFrom]. rewrite lookup_empty.
    intros e' (n & Hn & _). by rewrite lookup_nil in Hn.
  - rewrite errorIndexByKey_snoc. case_decide as Ht.
    + destruct (decide (mergeKey node = key)) as [Hk|Hk].
      * rewrite Hk, lookup_insert_eq. split.
        -- apply isErrorAt_snoc. by right.
        -- intros e' He'%isErrorAt_lt. rewrite length_app in He'. simpl in He'. lia.
      * rewrite lookup_insert_ne by done.
        destruct (errorIndexByKey l !! key) as [e|].
        -- destruct IH as [He Hmax]. split; [apply isErrorAt_snoc; by left|].
           intros e' [He'|(_ & _ & ?)]%isErrorAt_snoc; [by apply Hmax|done].
        -- intros e' [He'|(_ & _ & ?)]%isErrorAt_snoc; [by apply (IH e')|done].
    + destruct (errorIndexByKey l !! key) as [e|].
      * destruct IH as [He Hmax]. split; [apply isErrorAt_snoc; by left|].
        intros e' [He'|(_ & ? & _)]%isErrorAt_snoc; [by apply Hmax|done].
      * intros e' [He'|(_ & ? & _)]%isErrorAt_snoc; [by apply (IH e')|done].
Qed.

Lemma errorIndexByKey_Some l key e :
  errorIndexByKey l !! key = Some e →
  isErrorAt l e key ∧ ∀ e', isErrorAt l e' key → e' ≤ e.
Proof. intros H. pose proof (errorIndexByKey_lookup l key) as Hl. by rewrite H in Hl. Qed.

Lemma errorIndexByKey_None l key :
  errorIndexByKey l !! key = None → ∀ e', ¬ isErrorAt l e' key.
Proof. intros H. pose proof (errorIndexByKey_lookup l key) as Hl. by rewrite H in Hl. Qed.

Lemma errorIndexByKey_highest l key e :
  isErrorAt l e key → (∀ e', isErrorAt l e' key → e' ≤ e) →
  errorIndexByKey l !! key = Some e.
Proof.
  intros He Hmax. pose proof (errorIndexByKey_lookup l key) as Hl.
  destruct (errorIndexByKey l !! key) as [e0|].
  - destruct Hl as [He0 Hmax0]. f_equal.
    apply Nat.le_antisymm; [by apply Hmax|by apply Hmax0].
  - by destruct (Hl e).
Qed.

Lemma nodeIdToIdx_snoc l node :
  nodeIdToIdx (l ++ [node]) = Dict.set (node_id node) (length l) (nodeIdToIdx l).
Proof. unfold nodeIdToIdx. by rewrite forEach_snoc. Qed.

(** An identifier resolves to the index of a node that carries it. *)
Lemma nodeIdToIdx_Some l key idx :
  nodeIdToIdx l !! key = Some idx → ∃ node, l !! idx = Some node ∧ node_id node = key.
Proof.
  induction l as [|node l IH] using rev_ind.
  - unfold nodeIdToIdx, forEach. cbn [forEachFrom]. by rewrite lookup_empty.
  - rewrite nodeIdToIdx_snoc. unfold Dict.set. case_decide as Hp.
    + intros (n & Hn & Hk)%IH. exists n. split; [by apply lookup_app_l_Some|done].
    + destruct (decide (node_id node = key)) as [Hk|Hk].
      * rewrite Hk, lookup_insert_eq. intros [= <-]. exists node.
        split; [|done]. rewrite lookup_app_r by done. by rewrite Nat.sub_diag.
      * rewrite lookup_insert_ne by done.
        intros (n & Hn & Hk')%IH. exists n. split; [by apply lookup_app_l_Some|done].
Qed.

Lemma nodeIdToIdx_lt l key idx : nodeIdToIdx l !! key = Some idx → idx < length l.
Proof. intros (n & Hn & _)%nodeIdToIdx_Some. by eapply lookup_lt_Some. Qed.

(** ** One step of the merge pass *)

Section MergeNode.
Context (sortedNodes : list CLTGraphNode) (pinnedIds : list string).
Let n := length sortedNodes.
Let pinnedSet : gset string := list_to_set pinnedIds.
Let table := errorIndexByKey sortedNodes.

Lemma square_mergeNode node idx M :
    square n M → square n (mergeNode pinnedSet table node idx M).
  Proof.
    intros HM. unfold mergeNode. repeat case_decide; try done.
    destruct (Dict.get table (mergeKey node));
      auto using square_zeroRowAndColumn, square_mergeColumn.
  Qed.

Lemma mergeNode_skip_type node idx M :
    feature_type node ≠ "cross layer transcoder"%string →
    mergeNode pinnedSet table node idx M = M.
  Proof. intros Ht. unfold mergeNode. by rewrite decide_True. Qed.

Lemma mergeNode_unpinned node idx M :
    feature_type node = "cross layer transcoder"%string →
    node_id node ∉ pinnedIds →
    mergeNode pinnedSet table node idx M
    = match table !! mergeKey node with
      | Some errorIdx => zeroRowAndColumn idx (mergeColumn idx errorIdx M)
      | None => zeroRowAndColumn idx M
      end.
  Proof.
    intros Ht Hpin. unfold mergeNode.
    rewrite decide_False by (by intros []).
    rewrite decide_False by (unfold pinnedSet; by rewrite elem_of_list_to_set).
    unfold Dict.get. destruct (table !! mergeKey node); [done|].
    by case_decide.
  Qed.

  (** The index the table gives is the index of an error node, which is not
      a feature node. *)
Lemma table_index_not_feature key e f node :
    table !! key = Some e →
    sortedNodes !! f = Some node →
    feature_type node = "cross layer transcoder"%string →
    e < n ∧ e ≠ f.
  Proof.
    intros [He _]%errorIndexByKey_Some Hf Ht. split; [by eapply isErrorAt_lt|].
    intros ->. destruct He as (node' & Hn & Ht' & _). congruence.
  Qed.
End MergeNode.

(** ** Rounding in binary64

    Facts about the specification of binary64 arithmetic: a mantissa that
    is already canonical, or canonical after an exact shift, is not
    rounded. *)

Lemma binary_round_aux_canonical (s : bool) (m : positive) (e : Z) :
  bounded prec emax m e = true →
  binary_round_aux prec emax s (Z.pos m) e loc_Exact = S754_finite s m e.
Proof.
  unfold bounded, canonical_mantissa. intros [Hcan Hmax]%andb_true_iff.
  apply Z.eqb_eq in Hcan.
  unfold binary_round_aux, shr_fexp. cbn [Zdigits2 shr_record_of_loc].
  rewrite Hcan, Z.sub_diag. cbn [shr loc_of_shr_record shr_m shr_r shr_s round_nearest_even Zdigits2].
  rewrite Hcan, Z.sub_diag. cbn [shr shr_m]. by rewrite Hmax.
Qed.

Lemma digits2_pos_size (m : positive) : digits2_pos m = Pos.size m.
Proof. induction m; cbn; by rewrite ?IHm. Qed.

Lemma digits2_pos_iter_xO (m k : positive) :
  Z.pos (digits2_pos (Pos.iter xO m k)) = (Z.pos (digits2_pos m) + Z.pos k)%Z.
Proof.
  revert m. induction k as [k IH|k IH|] ; intros m; cbn [Pos.iter digits2_pos].
  - rewrite Pos2Z.inj_succ, !IH. lia.
  - rewrite !IH. lia.
  - lia.
Qed.

Lemma pos_iter_xO_shiftl (m k : positive) :
  Z.pos (Pos.iter xO m k) = Z.shiftl (Z.pos m) (Z.pos k).
Proof. cbn [Z.shiftl]. by apply (Pos.iter_swap_gen _ _ Z.pos xO (Z.mul 2)). Qed.

Lemma digits2_pos_bound (m : positive) :
  (Z.pos m < 2 ^ 53)%Z → (Z.pos (digits2_pos m) ≤ 53)%Z.
Proof.
  intros Hm. rewrite digits2_pos_size.
  pose proof (Pos.size_le m) as Hle.
  destruct (Z_le_gt_dec (Z.pos (Pos.size m)) 53) as [|Hgt]; [done|].
  assert (2 ^ 54 ≤ 2 ^ Z.pos (Pos.size m))%Z as Hpow by (apply Z.pow_le_mono_r; lia).
  assert (2 ^ Z.pos (Pos.size m) ≤ Z.pos m~0)%Z as Hsize.
  { rewrite <-Pos2Z.inj_pow. by apply Pos2Z.pos_le_pos. }
  lia.
Qed.

Lemma binary_round_small (s : bool) (m : positive) :
  (Z.pos m < 2 ^ 53)%Z →
  ∃ m' e', binary_round prec emax s m 0 = S754_finite s m' e'
           ∧ bounded prec emax m' e' = true
           ∧ Z.shiftl (Z.pos m') e' = Z.pos m.
Proof.
  intros Hm. pose proof (digits2_pos_bound m Hm) as Hd.
  unfold binary_round, shl_align. rewrite Z.add_0_r, Z.sub_0_r.
  assert (fexp prec emax (Z.pos (digits2_pos m)) = Z.pos (digits2_pos m) - 53)%Z as Hfexp.
  { unfold fexp, emin, prec, emax. lia. }
  rewrite Hfexp.
  destruct (Z.pos (digits2_pos m) - 53)%Z as [|k|k] eqn:Hk; [|lia|].
  - assert (bounded prec emax m 0 = true) as Hb.
    { unfold bounded, canonical_mantissa. rewrite Z.add_0_r.
      apply andb_true_iff. split; [apply Z.eqb_eq|apply Z.leb_le];
        unfold fexp, emin, prec, emax; lia. }
    exists m, 0%Z. by rewrite binary_round_aux_canonical, Z.shiftl_0_r.
  - assert (bounded prec emax (Pos.iter xO m k) (Z.neg k) = true) as Hb.
    { unfold bounded, canonical_mantissa. rewrite digits2_pos_iter_xO.
      apply andb_true_iff. split; [apply Z.eqb_eq|apply Z.leb_le].
      - unfold fexp, emin, prec, emax. lia.
      - unfold prec, emax. lia. }
    exists (Pos.iter xO m k), (Z.neg k). rewrite binary_round_aux_canonical by done.
    split_and!; [done..|]. rewrite pos_iter_xO_shiftl.
    change (Z.neg k) with (- Z.pos k)%Z. rewrite Z.shiftl_opp_r.
    rewrite Z.shiftr_shiftl_l by lia. by rewrite Z.sub_diag, Z.shiftl_0_r.
Qed.

Lemma is_nan_finite (x : float) (s : bool) (m : positive) (e : Z) :
  Prim2SF x = S754_finite s m e → is_nan x = false.
Proof.
  intros Hx. unfold is_nan. rewrite FloatAxioms.eqb_spec, Hx.
  unfold SFeqb. cbn [SFcompare]. rewrite Z.compare_refl, Pos.compare_cont_refl.
  by destruct s.
Qed.

(** An integer below [2^53] in absolute value is a binary64 number: its
    Number value holds the integer itself. *)
Lemma ofInteger_small (z : Z) (negative : bool) :
  (Z.abs z < 2 ^ 53)%Z →
  is_nan (Js.ofInteger z negative) = false
  ∧ Js.integerOf (Prim2SF (Js.ofInteger z negative)) = z.
Proof.
  intros Hz. unfold Js.ofInteger. destruct z as [|m|m]; cbn [binary_normalize].
  - by destruct negative.
  - destruct (binary_round_small false m) as (m' & e' & -> & Hb & Hval); [lia|].
    rewrite (is_nan_finite _ false m' e'), Prim2SF_SF2Prim by (by rewrite ?Prim2SF_SF2Prim).
    cbn [Js.integerOf]. rewrite Hval. split; [done|lia].
  - destruct (binary_round_small true m) as (m' & e' & -> & Hb & Hval); [lia|].
    rewrite (is_nan_finite _ true m' e'), Prim2SF_SF2Prim by (by rewrite ?Prim2SF_SF2Prim).
    cbn [Js.integerOf]. rewrite Hval. split; [done|lia].
Qed.

Lemma iter_pos_shr_1 (k m : positive) :
  SpecFloat.iter_pos shr_1 k {| shr_m := Z.pos (Pos.iter xO m k); shr_r := false; shr_s := false |}
  = {| shr_m := Z.pos m; shr_r := false; shr_s := false |}.
Proof.
  revert m. induction k as [k IH|k IH|]; intros m; cbn [SpecFloat.iter_pos Pos.iter shr_1 orb].
  - by rewrite !IH.
  - by rewrite !IH.
  - done.
Qed.

Lemma binary_round_aux_shifted (s : bool) (m k : positive) (e e' : Z) :
  bounded prec emax m e = true → (e' = e - Z.pos k)%Z →
  binary_round_aux prec emax s (Z.pos (Pos.iter xO m k)) e' loc_Exact = S754_finite s m e.
Proof.
  intros Hb ->. pose proof Hb as [Hcan Hmax]%andb_true_iff.
  unfold canonical_mantissa in Hcan. apply Z.eqb_eq in Hcan.
  unfold binary_round_aux, shr_fexp at 1. cbn [Zdigits2 shr_record_of_loc].
  rewrite digits2_pos_iter_xO.
  replace (Z.pos (digits2_pos m) + Z.pos k + (e - Z.pos k))%Z
    with (Z.pos (digits2_pos m) + e)%Z by lia.
  rewrite Hcan. replace (e - (e - Z.pos k))%Z with (Z.pos k) by lia.
  cbn [shr]. rewrite iter_pos_shr_1.
  cbn [loc_of_shr_record shr_m round_nearest_even].
  replace (e - Z.pos k + Z.pos k)%Z with e by lia.
  unfold shr_fexp. cbn [Zdigits2 shr_record_of_loc]. rewrite Hcan, Z.sub_diag.
  cbn [shr shr_m]. by rewrite Hmax.
Qed.

(** Multiplication by 1 is exact. *)
Lemma float_mul_1_l (x : float) : (1 * x)%float = x.
Proof.
  apply Prim2SF_inj. rewrite mul_spec.
  change (Prim2SF 1) with (S754_finite false 4503599627370496 (-52)).
  pose proof (Prim2SF_valid x) as Hvalid.
  destruct (Prim2SF x) as [s|s| |s m e]; try reflexivity.
  unfold SF64mul, SFmul. cbn [xorb].
  change (4503599627370496 * m)%positive with (Pos.iter xO m 52).
  apply binary_round_aux_shifted; [exact Hvalid|lia].
Qed.

Lemma div_eucl_shiftl (m : positive) :
  Z.div_eucl (Z.shiftl (Z.pos m) 53) (Z.pos m) = (2 ^ 53, 0)%Z.
Proof.
  assert (∀ a b, Z.div_eucl a b = (a / b, a mod b)%Z) as Heucl.
  { intros a b. unfold Z.div, Z.modulo. by destruct (Z.div_eucl a b). }
  rewrite Heucl, Z.shiftl_mul_pow2 by lia.
  rewrite Z.mul_comm, Z.div_mul, Z.mod_mul by lia. done.
Qed.

Lemma new_location_zero (n : Z) : new_location n 0 = loc_Exact.
Proof. unfold new_location. by destruct (Z.even n). Qed.

(** A finite number that is not zero, divided by itself, is 1. *)
Lemma float_div_diag (x : float) (s : bool) (m : positive) (e : Z) :
  Prim2SF x = S754_finite s m e → (x / x)%float = 1%float.
Proof.
  intros Hx. apply Prim2SF_inj. rewrite div_spec, Hx.
  unfold SF64div, SFdiv, SFdiv_core_binary.
  replace (Zdigits2 (Z.pos m) + e - (Zdigits2 (Z.pos m) + e))%Z with 0%Z by lia.
  rewrite Z.sub_diag.
  change (Z.min (fexp prec emax 0) 0) with (-53)%Z.
  change (0 - -53)%Z with 53%Z. cbn match.
  rewrite div_eucl_shiftl, new_location_zero.
  by destruct s.
Qed.

(** ** The merge pass as a whole *)

Lemma forEach_id_in {X St} (f : X → nat → St → St) (l : list X) (s : St) :
  (∀ x i s', x ∈ l → f x i s' = s') → forEach f l s = s.
Proof.
  intros Hf. induction l as [|x l IH] using rev_ind; [done|].
  rewrite forEach_snoc, IH.
  - apply Hf. apply elem_of_app. right. by left.
  - intros y i s' Hy. apply Hf. apply elem_of_app. by left.
Qed.

Lemma forEach_ext_in {X St} (f g : X → nat → St → St) (l : list X) (s : St) :
  (∀ x i s', x ∈ l → f x i s' = g x i s') → forEach f l s = forEach g l s.
Proof.
  intros Hfg. induction l as [|x l IH] using rev_ind; [done|].
  rewrite !forEach_snoc, IH.
  - apply Hfg. apply elem_of_app. right. by left.
  - intros y i s' Hy. apply Hfg. apply elem_of_app. by left.
Qed.

Lemma mergedAt_snoc pinnedIds l x i :
  mergedAt (l ++ [x]) pinnedIds i
  = if decide (i = length l) then isMerged pinnedIds x else mergedAt l pinnedIds i.
Proof.
  unfold mergedAt. case_decide as Hi.
  - subst i. rewrite lookup_app_r by done. by rewrite Nat.sub_diag.
  - destruct (decide (i < length l)) as [Hlt|Hge].
    + by rewrite lookup_app_l.
    + rewrite !lookup_ge_None_2; [done|lia|rewrite length_app; cbn; lia].
Qed.

Lemma mergedAt_ge pinnedIds l i : length l ≤ i → mergedAt l pinnedIds i = false.
Proof. intros Hi. unfold mergedAt. by rewrite lookup_ge_None_2. Qed.

Section MergedEntries.
Context (sortedNodes : list CLTGraphNode) (pinnedIds : list string) (M : matrix).
Let n := length sortedNodes.
Let pinnedSet : gset string := list_to_set pinnedIds.
Let table := errorIndexByKey sortedNodes.

Lemma isMerged_false_mergeNode node idx X :
  isMerged pinnedIds node = false → mergeNode pinnedSet table node idx X = X.
Proof.
  unfold isMerged, mergeNode. intros Hm.
  destruct (decide (feature_type node ≠ _)) as [|Ht]; [done|].
  destruct (decide (node_id node ∈ pinnedSet)) as [|Hp]; [done|].
  apply dec_stable in Ht.
  apply andb_false_iff in Hm as [Hm|Hm]; apply bool_decide_eq_false in Hm.
  - done.
  - destruct Hm. intros Hin. apply Hp. unfold pinnedSet. by apply elem_of_list_to_set.
Qed.

Lemma isMerged_true node :
  isMerged pinnedIds node = true →
  feature_type node = "cross layer transcoder"%string ∧ node_id node ∉ pinnedIds.
Proof.
  unfold isMerged. intros [Ht Hp]%andb_true_iff.
  by apply bool_decide_eq_true in Ht, Hp.
Qed.

Lemma foldedEntry_snoc r c l x :
  foldedEntry table pinnedIds M r c (l ++ [x])
  = if isMerged pinnedIds x && bool_decide (table !! mergeKey x = Some c)
    then (foldedEntry table pinnedIds M r c l + mread M r (length l))%float
    else foldedEntry table pinnedIds M r c l.
Proof. unfold foldedEntry. by rewrite forEach_snoc. Qed.

(** A column that is not the index of an error node receives nothing. *)
Lemma foldedEntry_not_target r c l :
  (∀ key, table !! key ≠ Some c) → foldedEntry table pinnedIds M r c l = mread M r c.
Proof.
  intros Hc. induction l as [|x l IH] using rev_ind; [done|].
  rewrite foldedEntry_snoc, IH.
  rewrite (bool_decide_eq_false_2 (table !! mergeKey x = Some c)) by apply Hc.
  by rewrite andb_false_r.
Qed.

Lemma table_not_feature f node :
  sortedNodes !! f = Some node →
  feature_type node = "cross layer transcoder"%string →
  ∀ key, table !! key ≠ Some f.
Proof.
  intros Hf Ht key Hkey.
  by destruct (table_index_not_feature sortedNodes key f f node Hkey Hf Ht) as [_ ?].
Qed.

(** The state of the matrix after the nodes of a prefix of [sortedNodes]. *)
Lemma forEach_mergeNode_entries l rest :
  sortedNodes = l ++ rest →
  square n M →
  square n (forEach (mergeNode pinnedSet table) l M)
  ∧ ∀ r c, r < n → c < n →
      mread (forEach (mergeNode pinnedSet table) l M) r c
      = if mergedAt l pinnedIds r || mergedAt l pinnedIds c then 0%float
        else foldedEntry table pinnedIds M r c l.
Proof.
  intros Hsplit HM. revert rest Hsplit.
  induction l as [|x l IH] using rev_ind; intros rest Hsplit.
  { split; [done|]. intros r c Hr Hc. unfold mergedAt. by rewrite !lookup_nil. }
  rewrite <-app_assoc in Hsplit. cbn [app] in Hsplit.
  destruct (IH _ Hsplit) as [HS IHentries]. clear IH.
  rewrite forEach_snoc.
  assert (sortedNodes !! length l = Some x) as Hx.
  { rewrite Hsplit, lookup_app_r by done. by rewrite Nat.sub_diag. }
  pose proof (lookup_lt_Some _ _ _ Hx) as Hk. fold n in Hk.
  split; [by apply square_mergeNode|].
  intros r c Hr Hc. rewrite !mergedAt_snoc, foldedEntry_snoc.
  destruct (isMerged pinnedIds x) eqn:Hm.
  2: { rewrite isMerged_false_mergeNode by done. rewrite IHentries by done.
       cbn [andb]. repeat case_decide; subst;
         rewrite ?(mergedAt_ge _ l (length l)) by done; done. }
  apply isMerged_true in Hm as [Ht Hp].
  unfold pinnedSet, table. rewrite mergeNode_unpinned by done. fold table. cbn [andb].
  destruct (table !! mergeKey x) as [e|] eqn:He.
  - destruct (table_index_not_feature sortedNodes _ e (length l) x He Hx Ht) as [Hen Hek].
    rewrite (mread_zeroRowAndColumn n) by auto using square_mergeColumn.
    destruct (decide (r = length l)) as [->|Hrk]; [by rewrite decide_True by auto|].
    destruct (decide (c = length l)) as [->|Hck].
    { rewrite decide_True by auto. by rewrite orb_true_r. }
    rewrite decide_False by (by intros [|]).
    rewrite (mread_mergeColumn n) by done.
    destruct (decide (c = e)) as [->|Hce].
    + rewrite bool_decide_eq_true_2 by done.
      rewrite !IHentries by done.
      rewrite (mergedAt_ge _ l (length l)) by done.
      assert (mergedAt l pinnedIds e = false) as ->.
      { unfold mergedAt. destruct (l !! e) as [node|] eqn:Hnode; [|done]. cbn.
        apply errorIndexByKey_Some in He as [(node' & Hnode' & Hte & _) _].
        rewrite Hsplit, (lookup_app_l_Some _ _ _ _ Hnode) in Hnode'.
        injection Hnode' as <-. unfold isMerged.
        rewrite bool_decide_eq_false_2; [done|]. congruence. }
      rewrite !orb_false_r.
      destruct (mergedAt l pinnedIds r); [reflexivity|].
      by rewrite (foldedEntry_not_target r (length l) l)
        by (by eapply table_not_feature).
    + rewrite bool_decide_eq_false_2 by congruence. by apply IHentries.
  - rewrite (mread_zeroRowAndColumn n) by done.
    destruct (decide (r = length l)) as [->|Hrk]; [by rewrite decide_True by auto|].
    destruct (decide (c = length l)) as [->|Hck].
    { rewrite decide_True by auto. by rewrite orb_true_r. }
    rewrite decide_False by (by intros [|]).
    rewrite bool_decide_eq_false_2 by done. by apply IHentries.
Qed.
End MergedEntries.


(** The result of the whole pass, entry by entry. *)
Lemma mergePass_entry
    (sortedNodes : list CLTGraphNode) (pinnedIds : list string) (M : matrix) (r c : nat) :
  pinnedIds ≠ [] → square (length sortedNodes) M →
  r < length sortedNodes → c < length sortedNodes →
  mread (mergePass sortedNodes pinnedIds M) r c
  = if mergedAt sortedNodes pinnedIds r || mergedAt sortedNodes pinnedIds c then 0%float
    else foldedEntry (errorIndexByKey sortedNodes) pinnedIds M r c sortedNodes.
Proof.
  intros Hpinned HM Hr Hc. unfold mergePass.
  destruct pinnedIds as [|p ps] eqn:Hps; [done|]. rewrite <-Hps in *.
  replace (0 <? length pinnedIds) with true
    by (symmetry; apply Nat.ltb_lt; rewrite Hps; cbn; lia).
  destruct (forEach_mergeNode_entries sortedNodes pinnedIds M sortedNodes [])
    as [_ Hentries]; [by rewrite app_nil_r|done|].
  by apply Hentries.
Qed.

(** The keys that lead to the highest error node of a position are the keys
    of the nodes at that position; no key leads to a lower error node of
    the position. *)
Section HighestErrorNode.
Context (sortedNodes : list CLTGraphNode) (errorIdx : nat) (errorNode : CLTGraphNode).
Context (He : sortedNodes !! errorIdx = Some errorNode).
Context (Hte : feature_type errorNode = "mlp reconstruction error"%string).
Context (Hmax : ∀ e other, sortedNodes !! e = Some other →
                  feature_type other = "mlp reconstruction error"%string →
                  layer other = layer errorNode → ctx_idx other = ctx_idx errorNode →
                  e ≤ errorIdx).

Lemma highest_error_node_table :
  errorIndexByKey sortedNodes !! mergeKey errorNode = Some errorIdx.
Proof using He Hte Hmax.
  apply errorIndexByKey_highest.
  - by exists errorNode.
  - intros e (other & Hother & Ht & [Hl Hc]%mergeKey_inj). by eapply Hmax.
Qed.

Lemma table_samePosition node :
  bool_decide (errorIndexByKey sortedNodes !! mergeKey node = Some errorIdx)
  = samePosition node errorNode.
Proof using He Hte Hmax.
  unfold samePosition. apply bool_decide_ext. split.
  - intros [(other & Hother & _ & Hkey) _]%errorIndexByKey_Some.
    assert (other = errorNode) as -> by congruence.
    apply mergeKey_inj in Hkey as [? ?]. done.
  - intros Hpos. assert (mergeKey node = mergeKey errorNode) as -> by (by apply mergeKey_inj).
    apply highest_error_node_table.
Qed.

Lemma lower_error_node_no_target e other :
  sortedNodes !! e = Some other →
  feature_type other = "mlp reconstruction error"%string →
  layer other = layer errorNode → ctx_idx other = ctx_idx errorNode →
  e ≠ errorIdx →
  ∀ key, errorIndexByKey sortedNodes !! key ≠ Some e.
Proof using He Hte Hmax.
  intros Hother Ht Hl Hc Hne key Hkey.
  pose proof Hkey as [(other' & Hother' & _ & Hkey') _]%errorIndexByKey_Some.
  assert (other' = other) as -> by congruence.
  assert (key = mergeKey errorNode) as -> by (rewrite <-Hkey'; by apply mergeKey_inj).
  rewrite highest_error_node_table in Hkey. congruence.
Qed.
End HighestErrorNode.

(** ** The merge pass: claims C8, C9 and C10 *)

Lemma no_matching_error_node_lookup sortedNodes node :
  (∀ e other, sortedNodes !! e = Some other →
     feature_type other = "mlp reconstruction error"%string →
     ¬ (layer other = layer node ∧ ctx_idx other = ctx_idx node)) →
  errorIndexByKey sortedNodes !! mergeKey node = None.
Proof.
  intros Hnone.
  destruct (errorIndexByKey sortedNodes !! mergeKey node) as [e|] eqn:He; [|done].
  apply errorIndexByKey_Some in He as [(other & Ho & Ht & Hk) _].
  destruct (Hnone e other Ho Ht). by apply mergeKey_inj.
Qed.

(** C8: when the merge pass processes a feature node that is not pinned and
    whose (layer, ctx_idx) is the key of no error node, the step sets the
    entries of that node's row and of its column to zero and leaves every
    other entry of the matrix as it was. *)
Theorem merge_without_error_node_zeroes_row_and_column
    (sortedNodes : list CLTGraphNode) (pinnedIds : list string) (M : matrix)
    (featureIdx : nat) (node : CLTGraphNode) :
  square (length sortedNodes) M →
  sortedNodes !! featureIdx = Some node →
  feature_type node = "cross layer transcoder"%string →
  node_id node ∉ pinnedIds →
  (∀ e other, sortedNodes !! e = Some other →
     feature_type other = "mlp reconstruction error"%string →
     ¬ (layer other = layer node ∧ ctx_idx other = ctx_idx node)) →
  let M' := mergeNode (list_to_set pinnedIds) (errorIndexByKey sortedNodes) node featureIdx M in
  square (length sortedNodes) M' ∧
  ∀ r c, r < length sortedNodes → c < length sortedNodes →
    mread M' r c = if decide (r = featureIdx ∨ c = featureIdx) then 0%float else mread M r c.
Proof.
  intros HM Hnode Htype Hpin Hnone M'. subst M'.
  rewrite mergeNode_unpinned by done.
  rewrite no_matching_error_node_lookup by done.
  split; [by apply square_zeroRowAndColumn|].
  intros r c Hr Hc. by apply mread_zeroRowAndColumn with (n := length sortedNodes).
Qed.

Lemma highest_error_node_lookup sortedNodes node errorIdx errorNode :
  sortedNodes !! errorIdx = Some errorNode →
  feature_type errorNode = "mlp reconstruction error"%string →
  layer errorNode = layer node → ctx_idx errorNode = ctx_idx node →
  (∀ e other, sortedNodes !! e = Some other →
     feature_type other = "mlp reconstruction error"%string →
     layer other = layer node → ctx_idx other = ctx_idx node → e ≤ errorIdx) →
  errorIndexByKey sortedNodes !! mergeKey node = Some errorIdx.
Proof.
  intros He Ht Hl Hc Hmax. apply errorIndexByKey_highest.
  - exists errorNode. split_and!; [done..|]. by apply mergeKey_inj.
  - intros e' (other & Ho & Hto & [Hlo Hco]%mergeKey_inj). eauto.
Qed.

(** One step of the pass on a feature that is not pinned, when several error
    nodes have its (layer, ctx_idx): the step is [zeroRowAndColumn] after
    [mergeColumn] towards the one with the highest canonical index. *)
Lemma mergeNode_targets_highest_error_node
    (sortedNodes : list CLTGraphNode) (pinnedIds : list string) (M : matrix)
    (featureIdx errorIdx : nat) (node errorNode : CLTGraphNode) :
  square (length sortedNodes) M →
  sortedNodes !! featureIdx = Some node →
  feature_type node = "cross layer transcoder"%string →
  node_id node ∉ pinnedIds →
  sortedNodes !! errorIdx = Some errorNode →
  feature_type errorNode = "mlp reconstruction error"%string →
  layer errorNode = layer node → ctx_idx errorNode = ctx_idx node →
  (∀ e other, sortedNodes !! e = Some other →
     feature_type other = "mlp reconstruction error"%string →
     layer other = layer node → ctx_idx other = ctx_idx node → e ≤ errorIdx) →
  let M' := mergeNode (list_to_set pinnedIds) (errorIndexByKey sortedNodes) node featureIdx M in
  M' = zeroRowAndColumn featureIdx (mergeColumn featureIdx errorIdx M) ∧
  ∀ r c, r < length sortedNodes → c < length sortedNodes →
    mread M' r c =
      if decide (r = featureIdx ∨ c = featureIdx) then 0%float
      else if decide (c = errorIdx) then (mread M r errorIdx + mread M r featureIdx)%float
      else mread M r c.
Proof.
  intros HM Hnode Htype Hpin He Hte Hl Hc Hmax M'. subst M'.
  rewrite mergeNode_unpinned by done.
  rewrite (highest_error_node_lookup _ _ errorIdx errorNode) by done.
  split; [done|]. intros r c Hr Hcn.
  rewrite (mread_zeroRowAndColumn (length sortedNodes))
    by auto using square_mergeColumn.
  case_decide; [done|].
  by apply mread_mergeColumn with (n := length sortedNodes).
Qed.

(** C9: when several error nodes stand at the same (layer, ctx_idx), the
    merge pass folds every feature node of that position that is not pinned
    into the one with the highest canonical index, and into no other.  With
    [errorIdx] the highest index of an error node of the position: the row
    and the column of each such feature are zero after the pass; in every
    row that is not the row of a merged feature, the entry in column
    [errorIdx] is the entry the pass found there plus the entries of the
    columns of these features, added in canonical order; and the entry in
    the column of any other error node of the position is unchanged. *)
Theorem merge_targets_highest_error_node
    (sortedNodes : list CLTGraphNode) (pinnedIds : list string) (M : matrix)
    (errorIdx : nat) (errorNode : CLTGraphNode) :
  let n := length sortedNodes in
  let M' := mergePass sortedNodes pinnedIds M in
  pinnedIds ≠ [] →
  square n M →
  sortedNodes !! errorIdx = Some errorNode →
  feature_type errorNode = "mlp reconstruction error"%string →
  (∀ e other, sortedNodes !! e = Some other →
     feature_type other = "mlp reconstruction error"%string →
     layer other = layer errorNode → ctx_idx other = ctx_idx errorNode → e ≤ errorIdx) →
  (∀ f feature k,
     sortedNodes !! f = Some feature →
     feature_type feature = "cross layer transcoder"%string →
     node_id feature ∉ pinnedIds →
     layer feature = layer errorNode → ctx_idx feature = ctx_idx errorNode →
     k < n → mread M' f k = 0%float ∧ mread M' k f = 0%float)
  ∧ (∀ r, r < n → mergedAt sortedNodes pinnedIds r = false →
       mread M' r errorIdx
       = foldedInto sortedNodes pinnedIds M r errorNode (mread M r errorIdx))
  ∧ (∀ e other r,
       sortedNodes !! e = Some other →
       feature_type other = "mlp reconstruction error"%string →
       layer other = layer errorNode → ctx_idx other = ctx_idx errorNode →
       e ≠ errorIdx →
       r < n → mergedAt sortedNodes pinnedIds r = false →
       mread M' r e = mread M r e).
Proof.
  intros n M' Hpinned HM He Hte Hmax. subst M'.
  assert (∀ e other, sortedNodes !! e = Some other →
            feature_type other = "mlp reconstruction error"%string →
            mergedAt sortedNodes pinnedIds e = false) as Herror.
  { intros e other Hother Ht. unfold mergedAt, isMerged. rewrite Hother. cbn.
    rewrite bool_decide_eq_false_2; [done|]. congruence. }
  split_and!.
  - intros f feature k Hf Ht Hpin _ _ Hk.
    pose proof (lookup_lt_Some _ _ _ Hf) as Hfn.
    assert (mergedAt sortedNodes pinnedIds f = true) as Hmerged.
    { unfold mergedAt, isMerged. rewrite Hf. cbn.
      by rewrite !bool_decide_eq_true_2. }
    rewrite !mergePass_entry by done. rewrite Hmerged.
    split; [done|by rewrite orb_true_r].
  - intros r Hr Hrow. pose proof (lookup_lt_Some _ _ _ He) as Hen.
    rewrite mergePass_entry by done.
    rewrite Hrow, (Herror errorIdx errorNode) by done. cbn [orb].
    unfold foldedEntry, foldedInto. apply forEach_ext_in. intros node i acc _.
    by rewrite (table_samePosition sortedNodes errorIdx errorNode).
  - intros e other r Hother Ht Hl Hc Hne Hr Hrow.
    pose proof (lookup_lt_Some _ _ _ Hother) as Hen.
    rewrite mergePass_entry by done.
    rewrite Hrow, (Herror e other) by done. cbn [orb].
    apply foldedEntry_not_target.
    by apply (lower_error_node_no_target sortedNodes errorIdx errorNode He Hte Hmax e other).
Qed.


(** *** Rows that a later step clears *)

Lemma agreeOffRow_fmap n row M M' (F : list float → list float) :
  (∀ l, length (F l) = length l) →
  agreeOffRow n row M M' → agreeOffRow n row (F <$> M) (F <$> M').
Proof.
  intros HF (HM & HM' & Hrows). split_and!; [by apply square_fmap..|].
  intros r Hr. by rewrite !list_lookup_fmap, Hrows.
Qed.

Lemma agreeOffRow_alter n row M M' (F : list float → list float) i :
  (∀ l, length (F l) = length l) →
  i ≠ row →
  agreeOffRow n row M M' → agreeOffRow n row (alter F i M) (alter F i M').
Proof.
  intros HF Hi (HM & HM' & Hrows). split_and!; [by apply square_alter..|].
  intros r Hr. rewrite !list_lookup_alter. case_decide; by rewrite Hrows.
Qed.

Lemma agreeOffRow_mergeColumn n row M M' fidx eidx :
  agreeOffRow n row M M' →
  agreeOffRow n row (mergeColumn fidx eidx M) (mergeColumn fidx eidx M').
Proof.
  intros H. rewrite !mergeColumn_rows.
  apply agreeOffRow_fmap; [|done]. intros. apply length_insert.
Qed.

Lemma agreeOffRow_zeroRowAndColumn n row M M' idx :
  idx ≠ row →
  agreeOffRow n row M M' →
  agreeOffRow n row (zeroRowAndColumn idx M) (zeroRowAndColumn idx M').
Proof.
  intros Hi H. rewrite !zeroRowAndColumn_rows.
  destruct H as (HM & HM' & Hrows).
  rewrite (square_length n M HM), (square_length n M' HM').
  apply agreeOffRow_fmap; [intros; apply length_insert|].
  apply agreeOffRow_alter; [intros; apply zeroPrefix_length|done|done].
Qed.

(** Clearing the row in which two matrices differ makes them equal. *)
Lemma zeroRowAndColumn_agree n row M M' :
  agreeOffRow n row M M' → zeroRowAndColumn row M = zeroRowAndColumn row M'.
Proof.
  intros (HM & HM' & Hrows). rewrite !zeroRowAndColumn_rows.
  rewrite (square_length n M HM), (square_length n M' HM').
  apply list_eq. intros r. rewrite !list_lookup_fmap, !list_lookup_alter.
  case_decide as Hr; [subst r|by rewrite Hrows].
  destruct (M !! row) as [l|] eqn:Hl, (M' !! row) as [l'|] eqn:Hl'; simpl.
  - rewrite !zeroPrefix_full.
    + by rewrite (square_row n M row l), (square_row n M' row l').
    + by rewrite (square_row n M' row l').
    + by rewrite (square_row n M row l).
  - apply lookup_lt_Some in Hl. apply lookup_ge_None in Hl'.
    rewrite (square_length n M HM) in Hl. rewrite (square_length n M' HM') in Hl'. lia.
  - apply lookup_lt_Some in Hl'. apply lookup_ge_None in Hl.
    rewrite (square_length n M HM) in Hl. rewrite (square_length n M' HM') in Hl'. lia.
  - done.
Qed.

Lemma agreeOffRow_mset n row M c w : square n M → agreeOffRow n row (mset row c w M) M.
Proof.
  intros HM. split_and!; [by apply square_mset|done|].
  intros r Hr. unfold mset. by rewrite list_lookup_alter_ne.
Qed.

Section MergePass.
Context (sortedNodes : list CLTGraphNode) (pinnedIds : list string).
Let n := length sortedNodes.
Let pinnedSet : gset string := list_to_set pinnedIds.
Let table := errorIndexByKey sortedNodes.

Lemma agreeOffRow_mergeNode row node idx M M' :
  idx ≠ row →
  agreeOffRow n row M M' →
  agreeOffRow n row (mergeNode pinnedSet table node idx M) (mergeNode pinnedSet table node idx M').
Proof.
  intros Hi H. unfold mergeNode. repeat case_decide; try done.
  destruct (Dict.get table (mergeKey node));
    auto using agreeOffRow_zeroRowAndColumn, agreeOffRow_mergeColumn.
Qed.

Lemma mergeNode_agree row node M M' :
  feature_type node = "cross layer transcoder"%string →
  node_id node ∉ pinnedIds →
  agreeOffRow n row M M' →
  mergeNode pinnedSet table node row M = mergeNode pinnedSet table node row M'.
Proof.
  intros Ht Hpin H. unfold pinnedSet, table. rewrite !mergeNode_unpinned by done.
  destruct (errorIndexByKey sortedNodes !! mergeKey node);
    eauto using zeroRowAndColumn_agree, agreeOffRow_mergeColumn.
Qed.

(** Once the loop reaches the node of the row in which the two matrices
    differ, the difference is gone. *)
Lemma forEachFrom_mergeNode_agree row node (l : list CLTGraphNode) i M M' :
  feature_type node = "cross layer transcoder"%string →
  node_id node ∉ pinnedIds →
  i ≤ row → l !! (row - i) = Some node →
  agreeOffRow n row M M' →
  forEachFrom (mergeNode pinnedSet table) i l M
  = forEachFrom (mergeNode pinnedSet table) i l M'.
Proof.
  intros Ht Hpin. revert i M M'.
  induction l as [|x l IH]; intros i M M' Hi Hl H; [done|].
  cbn [forEachFrom]. destruct (decide (i = row)) as [->|Hne].
  - rewrite Nat.sub_diag in Hl. injection Hl as ->.
    by rewrite (mergeNode_agree row node M M').
  - apply IH; [lia| |by apply agreeOffRow_mergeNode].
    replace (row - i) with (S (row - S i)) in Hl by lia. exact Hl.
Qed.
End MergePass.

(** C10: with [pinnedIds] not empty, let F1 and F2 be two feature nodes that
    are not pinned, F1 before F2 in canonical order, for which the table of
    error nodes gives E1 and E2.  When F1 merges, the entry (row F2, column
    F1), which holds the weight of an edge from F1 to F2, is added into the
    entry (row F2, column E1); when F2 merges, the whole row of F2 is
    cleared; and the matrix the merge pass ends with is the same whatever
    that weight was, so no entry of it, (row E2, column E1) included,
    receives the weight. *)
Theorem edge_between_merged_features_vanishes
    (sortedNodes : list CLTGraphNode) (pinnedIds : list string) (M : matrix)
    (f1 f2 e1 e2 : nat) (node1 node2 : CLTGraphNode) :
  let n := length sortedNodes in
  let pinnedSet : gset string := list_to_set pinnedIds in
  let table := errorIndexByKey sortedNodes in
  pinnedIds ≠ [] →
  square n M →
  f1 < f2 →
  sortedNodes !! f1 = Some node1 →
  sortedNodes !! f2 = Some node2 →
  feature_type node1 = "cross layer transcoder"%string →
  feature_type node2 = "cross layer transcoder"%string →
  node_id node1 ∉ pinnedIds →
  node_id node2 ∉ pinnedIds →
  table !! mergeKey node1 = Some e1 →
  table !! mergeKey node2 = Some e2 →
  (∀ X, square n X →
     mread (mergeNode pinnedSet table node1 f1 X) f2 e1
     = (mread X f2 e1 + mread X f2 f1)%float) ∧
  (∀ X c, square n X → c < n →
     mread (mergeNode pinnedSet table node2 f2 X) f2 c = 0%float) ∧
  (∀ w, mergePass sortedNodes pinnedIds (mset f2 f1 w M) = mergePass sortedNodes pinnedIds M).
Proof.
  intros n pinnedSet table Hpinned HM Hlt Hn1 Hn2 Ht1 Ht2 Hp1 Hp2 He1 He2.
  assert (f2 < n) as Hf2 by (by eapply lookup_lt_Some).
  destruct (table_index_not_feature sortedNodes _ e1 f1 node1 He1 Hn1 Ht1) as [He1n He1f].
  destruct (table_index_not_feature sortedNodes _ e1 f2 node2 He1 Hn2 Ht2) as [_ He1f2].
  split_and!.
  - intros X HX. unfold pinnedSet, table. rewrite mergeNode_unpinned by done.
    fold table. rewrite He1.
    rewrite (mread_zeroRowAndColumn n) by auto using square_mergeColumn.
    rewrite decide_False by lia.
    rewrite (mread_mergeColumn n) by done. by rewrite decide_True.
  - intros X c HX Hc. unfold pinnedSet, table. rewrite mergeNode_unpinned by done.
    fold table. rewrite He2.
    rewrite (mread_zeroRowAndColumn n) by auto using square_mergeColumn.
    by rewrite decide_True by auto.
  - intros w. unfold mergePass.
    destruct pinnedIds as [|p ps] eqn:Hps; [done|]. rewrite <-Hps in *.
    replace (0 <? length pinnedIds) with true
      by (symmetry; apply Nat.ltb_lt; rewrite Hps; simpl; lia).
    unfold forEach.
    apply (forEachFrom_mergeNode_agree sortedNodes pinnedIds f2 node2);
      [done|done|lia|by rewrite Nat.sub_0_r|].
    by apply agreeOffRow_mset.
Qed.

(** *** The three statements at concrete graphs *)

Lemma square_numbered n : square n (Scenario.numbered n).
Proof.
  unfold Scenario.numbered. split.
  - by rewrite length_imap, length_replicate.
  - apply Forall_lookup_2. intros r row Hr.
    apply list_lookup_imap_Some in Hr as (row0 & Hrow0 & ->).
    rewrite length_imap. apply lookup_replicate in Hrow0 as [-> _].
    by rewrite length_replicate.
Qed.

Lemma merge_without_error_node_witness :
  let sorted := [Scenario.F; Scenario.E; Scenario.L] in
  let M' := mergeNode (list_to_set ["L"%string]) (errorIndexByKey sorted) Scenario.F 0
              (Scenario.numbered 3) in
  square 3 M' ∧
  ∀ r c, r < 3 → c < 3 →
    mread M' r c = if decide (r = 0 ∨ c = 0) then 0%float else mread (Scenario.numbered 3) r c.
Proof.
  apply (merge_without_error_node_zeroes_row_and_column
           [Scenario.F; Scenario.E; Scenario.L] ["L"%string] (Scenario.numbered 3) 0 Scenario.F).
  - apply square_numbered.
  - reflexivity.
  - reflexivity.
  - not_in_list.
  - intros e other H Ht. lookup_cases H; discriminate Ht.
Defined.

Lemma merge_targets_highest_error_node_witness :
  let sorted := [Scenario.F; Scenario.R; Scenario.R'; Scenario.E; Scenario.L] in
  let M := Scenario.numbered 5 in
  let M' := mergePass sorted ["L"%string] M in
  (∀ k, k < 5 → mread M' 0 k = 0%float ∧ mread M' k 0 = 0%float)
  ∧ mread M' 3 2 = (mread M 3 2 + mread M 3 0)%float
  ∧ mread M' 3 1 = mread M 3 1
  ∧ mread M 3 0 = 16%float ∧ mread M 3 1 = 17%float ∧ mread M 3 2 = 18%float
  ∧ mread M' 3 2 = 34%float.
Proof.
  destruct (merge_targets_highest_error_node
              [Scenario.F; Scenario.R; Scenario.R'; Scenario.E; Scenario.L] ["L"%string]
              (Scenario.numbered 5) 2 Scenario.R')
    as (Hfeature & Hhighest & Hlower).
  - done.
  - apply square_numbered.
  - reflexivity.
  - reflexivity.
  - intros e other H Ht Hl Hc. lookup_cases H; try discriminate Ht; lia.
  - split_and!.
    + intros k Hk. apply (Hfeature 0 Scenario.F k); try reflexivity; [not_in_list|exact Hk].
    + apply (Hhighest 3); [cbn; lia|reflexivity].
    + apply (Hlower 1 Scenario.R 3); try reflexivity; [lia|cbn; lia].
    + reflexivity.
    + reflexivity.
    + reflexivity.
    + reflexivity.
Defined.

Lemma edge_between_merged_features_witness :
  let sorted := [Scenario.F; Scenario.G; Scenario.R; Scenario.Rg; Scenario.E; Scenario.L] in
  let pinnedSet : gset string := list_to_set ["L"%string] in
  let table := errorIndexByKey sorted in
  let M := Scenario.numbered 6 in
  (∀ X, square 6 X →
     mread (mergeNode pinnedSet table Scenario.F 0 X) 1 2 = (mread X 1 2 + mread X 1 0)%float) ∧
  (∀ X c, square 6 X → c < 6 →
     mread (mergeNode pinnedSet table Scenario.G 1 X) 1 c = 0%float) ∧
  (∀ w, mergePass sorted ["L"%string] (mset 1 0 w M) = mergePass sorted ["L"%string] M).
Proof.
  apply (edge_between_merged_features_vanishes
           [Scenario.F; Scenario.G; Scenario.R; Scenario.Rg; Scenario.E; Scenario.L]
           ["L"%string] (Scenario.numbered 6) 0 1 2 3 Scenario.F Scenario.G).
  - discriminate.
  - apply square_numbered.
  - lia.
  - reflexivity.
  - reflexivity.
  - reflexivity.
  - reflexivity.
  - not_in_list.
  - not_in_list.
  - by vm_compute.
  - by vm_compute.
Defined.

(** ** The adjacency matrix: claim C1 *)

Lemma mread_mset n M r c v r' c' :
  square n M → r' < n → c' < n →
  mread (mset r c v M) r' c' = if decide (r = r' ∧ c = c') then v else mread M r' c'.
Proof.
  intros HM Hr Hc. destruct (square_lookup n M r' HM Hr) as (row & Hrow & Hlen).
  rewrite (mread_lookup M r' c' row Hrow). unfold mset.
  destruct (decide (r = r')) as [->|Hne].
  - erewrite mread_lookup; [|by rewrite list_lookup_alter_eq, Hrow].
    rewrite list_lookup_insert.
    destruct (decide (c = c')) as [->|Hc'].
    + rewrite decide_True by (split; [done|lia]). by rewrite decide_True.
    + rewrite decide_False by (by intros [? _]). rewrite decide_False; [done|]. by intros [_ ?].
  - erewrite mread_lookup; [|by rewrite list_lookup_alter_ne, Hrow].
    rewrite decide_False; [done|]. by intros [? _].
Qed.

Lemma square_addEdge n idx edge M M' :
  square n M → addEdge idx edge M = Ok M' → square n M'.
Proof.
  intros HM. unfold addEdge.
  destruct (Dict.get idx (source edge)), (Dict.get idx (target edge));
    intros [= <-]; auto using square_mset.
Qed.

(** What one edge does to the entry (row [t], column [s]). *)
Lemma mread_addEdge n idx edge M M' s t :
  square n M → s < n → t < n →
  addEdge idx edge M = Ok M' →
  mread M' t s = if edgeResolves idx s t edge then weight edge else mread M t s.
Proof.
  intros HM Hs Ht. unfold addEdge, edgeResolves.
  destruct (Dict.get idx (source edge)) as [|s'|], (Dict.get idx (target edge)) as [|t'|];
    intros [= <-];
    try (rewrite bool_decide_eq_false_2; [done|intros [H1 H2]; discriminate]).
  rewrite (mread_mset n) by done.
  destruct (decide (t' = t ∧ s' = s)) as [[-> ->]|Hne].
  - by rewrite bool_decide_eq_true_2.
  - rewrite bool_decide_eq_false_2; [done|]. intros [[= ->] [= ->]]. by apply Hne.
Qed.

Lemma last_cons_match {A} (x : A) (l : list A) :
  last (x :: l) = match last l with Some y => Some y | None => Some x end.
Proof.
  destruct l as [|y l]; [done|]. rewrite last_cons_cons.
  destruct (last (y :: l)) eqn:Hlast; [done|]. by apply last_None in Hlast.
Qed.

Lemma forEachM_addEdge n idx edges M A s t :
  square n M → s < n → t < n →
  forEachM (addEdge idx) edges M = Ok A →
  square n A ∧
  mread A t s = match last (List.filter (edgeResolves idx s t) edges) with
                | Some edge => weight edge
                | None => mread M t s
                end.
Proof.
  intros HM Hs Ht. revert M HM.
  induction edges as [|edge edges IH]; intros M HM Hrun; cbn [forEachM] in Hrun.
  - injection Hrun as <-. done.
  - destruct (addEdge idx edge M) as [M1|] eqn:Hedge; [|discriminate Hrun].
    cbn in Hrun.
    pose proof (square_addEdge n idx edge M M1 HM Hedge) as HM1.
    destruct (IH M1 HM1 Hrun) as [HA Hentry]. split; [done|].
    rewrite Hentry, (mread_addEdge n idx edge M M1 s t) by done.
    cbn [List.filter]. destruct (edgeResolves idx s t edge).
    + rewrite last_cons_match. by destruct (last _).
    + done.
Qed.

Lemma mread_replicate n r c : r < n → c < n → mread (replicate n (replicate n 0%float)) r c = 0%float.
Proof.
  intros Hr Hc. unfold mread. rewrite lookup_replicate_2 by done. simpl.
  by rewrite lookup_replicate_2.
Qed.

Lemma sortNodes_length nodes : length (sortNodes nodes) = length nodes.
Proof.
  assert (∀ a l, length (insertNode a l) = S (length l)) as Hins.
  { intros a l. induction l as [|b l IH]; [done|]. simpl.
    destruct (0 <? compareNodes a b)%Z; simpl; by rewrite ?IH. }
  induction nodes as [|a nodes IH]; [done|]. simpl. by rewrite Hins, IH.
Qed.

(** C1 (as amended): the matrix built by [reconstructAdjacencyMatrix] is
    square, and [A[target][source]] is the weight of the last edge of the
    list whose source resolves to [source] and whose target resolves to
    [target], zero when there is none: an edge overwrites the entry, it does
    not add to it. *)
Theorem reconstructAdjacencyMatrix_entry
    (nodes : list CLTGraphNode) (edges : list CLTGraphLink)
    (A : matrix) (sortedNodes : list CLTGraphNode) (s t : nat) :
  reconstructAdjacencyMatrix nodes edges = Ok (A, sortedNodes) →
  s < length nodes → t < length nodes →
  sortedNodes = sortNodes nodes ∧
  square (length nodes) A ∧
  mread A t s = lastEdgeWeight (nodeIdToIdx sortedNodes) edges s t.
Proof.
  unfold reconstructAdjacencyMatrix. intros Hrun Hs Ht.
  destruct (forEachM _ edges _) as [A'|] eqn:Hloop; [|discriminate Hrun].
  injection Hrun as -> <-. split; [done|].
  rewrite sortNodes_length in Hloop.
  destruct (forEachM_addEdge (length nodes) _ edges _ A s t
              (square_replicate _) Hs Ht Hloop) as [HA Hentry].
  split; [done|]. rewrite Hentry. unfold lastEdgeWeight.
  destruct (last _); [done|]. by apply mread_replicate.
Qed.

(** Two binary64 numbers that compare different are different. *)
Lemma float_neq (x y : float) : (x =? x)%float = true → (x =? y)%float = false → x ≠ y.
Proof. intros Hx Hxy ->. congruence. Qed.

Lemma reconstructAdjacencyMatrix_entry_witness :
  let nodes := [Scenario.E; Scenario.L] in
  let edges := [Scenario.edge "E" "L" 1; Scenario.edge "E" "L" 2] in
  let A := [[0; 0]; [2; 0]]%float in
  [Scenario.E; Scenario.L] = sortNodes nodes ∧
  square 2 A ∧
  mread A 1 0 = lastEdgeWeight (nodeIdToIdx [Scenario.E; Scenario.L]) edges 0 1.
Proof.
  apply (reconstructAdjacencyMatrix_entry
           [Scenario.E; Scenario.L]
           [Scenario.edge "E" "L" 1; Scenario.edge "E" "L" 2]).
  - by vm_compute.
  - simpl; lia.
  - simpl; lia.
Defined.

(** C1 (counterexample): two edges from E to L of weights 1 and 2.  The sum
    of the weights is 3; the entry of the matrix is 2, the weight of the
    second edge. *)
Lemma reconstructAdjacencyMatrix_overwrites :
  let nodes := [Scenario.E; Scenario.L] in
  let edges := [Scenario.edge "E" "L" 1; Scenario.edge "E" "L" 2] in
  ∃ A sortedNodes,
    reconstructAdjacencyMatrix nodes edges = Ok (A, sortedNodes) ∧
    mread A 1 0 = 2%float ∧
    edgeWeightSum (nodeIdToIdx sortedNodes) edges 0 1 = 3%float ∧
    mread A 1 0 ≠ edgeWeightSum (nodeIdToIdx sortedNodes) edges 0 1.
Proof.
  exists [[0; 0]; [2; 0]]%float, [Scenario.E; Scenario.L].
  split_and!; [by vm_compute..|].
  apply float_neq; by vm_compute.
Qed.

(** ** The influence loop: claim C5 *)

Lemma bind_Ok {A B} (r : Result A) (k : A → Result B) (b : B) :
  r ≫= k = Ok b ↔ ∃ a, r = Ok a ∧ k a = Ok b.
Proof.
  destruct r as [a|e]; cbn.
  - split; [eauto|]. by intros (a' & [= <-] & ?).
  - split; [discriminate|]. by intros (a' & [=] & _).
Qed.

Lemma bind_Ok_l {A B} (a : A) (k : A → Result B) : Ok a ≫= k = k a.
Proof. reflexivity. Qed.

Lemma iterFrom_S A ncols k v :
  iterFrom A ncols (S k) v = iterFrom A ncols k v ≫= propagate A ncols.
Proof.
  revert v. induction k as [|k IH]; intros v.
  - cbn. by destruct (propagate A ncols v).
  - cbn [iterFrom] in *. destruct (propagate A ncols v) as [v'|e]; cbn; [|done].
    apply IH.
Qed.

Lemma accSteps_S A ncols k cur influence :
  accSteps A ncols (S k) cur influence
  = (acc ← accSteps A ncols k cur influence;
     v ← iterFrom A ncols (S k) cur;
     Ok (accumulate acc v)).
Proof.
  revert cur influence. induction k as [|k IH]; intros cur influence.
  - cbn. by destruct (propagate A ncols cur).
  - cbn [accSteps iterFrom] in *.
    destruct (propagate A ncols cur) as [new|e]; cbn; [|done].
    apply IH.
Qed.

(** The loop, started at turn [iterations] with enough fuel, returns when
    the iterate vanishes after [j] more turns, with what [j] turns of its
    body have accumulated. *)
Lemma influenceLoop_returns A ncols maxIter j :
  ∀ fuel iterations cur influence v,
    iterations + j ≤ maxIter → j ≤ fuel →
    (∀ i, i < j → ∃ u, iterFrom A ncols i cur = Ok u ∧ someNonZero u = true) →
    iterFrom A ncols j cur = Ok v → someNonZero v = false →
    ∃ result,
      accSteps A ncols j cur influence = Ok result
      ∧ influenceLoop A ncols maxIter fuel iterations cur influence = Ok result.
Proof.
  induction j as [|j IH]; intros fuel iterations cur influence v Hit Hfuel Hnz Hj Hz.
  - injection Hj as <-. exists influence. split; [done|].
    destruct fuel; cbn [influenceLoop]; by rewrite Hz.
  - destruct (Hnz 0) as (u & [= <-] & Hcur); [lia|].
    destruct fuel as [|fuel]; [lia|].
    cbn [iterFrom] in Hj. apply bind_Ok in Hj as (new & Hnew & Hj).
    destruct (IH fuel (S iterations) new (accumulate influence new) v)
      as (result & Hacc & Hres); [lia|lia| |done|done|].
    { intros i Hi. destruct (Hnz (S i)) as (u & Hu & Hunz); [lia|].
      cbn [iterFrom] in Hu. rewrite Hnew in Hu. eauto. }
    exists result. split.
    + cbn [accSteps]. by rewrite Hnew.
    + cbn [influenceLoop]. rewrite Hcur.
      replace (maxIter <=? iterations) with false by (symmetry; apply Nat.leb_gt; lia).
      by rewrite Hnew.
Qed.

(** The loop throws when the iterate has not vanished by turn [maxIter]. *)
Lemma influenceLoop_throws A ncols maxIter fuel :
  ∀ iterations cur influence,
    iterations ≤ maxIter → maxIter - iterations ≤ fuel →
    (∀ i, i ≤ maxIter - iterations →
       ∃ u, iterFrom A ncols i cur = Ok u ∧ someNonZero u = true) →
    influenceLoop A ncols maxIter fuel iterations cur influence
    = Throw (Error (convergenceMessage maxIter)).
Proof.
  induction fuel as [|fuel IH]; intros iterations cur influence Hle Hfuel Hnz;
    destruct (Hnz 0) as (u & [= <-] & Hcur); try lia;
    cbn [influenceLoop]; rewrite Hcur.
  - replace iterations with maxIter by lia. by rewrite Nat.leb_refl.
  - destruct (decide (iterations = maxIter)) as [->|Hne].
    + by rewrite Nat.leb_refl.
    + replace (maxIter <=? iterations) with false by (symmetry; apply Nat.leb_gt; lia).
      destruct (Hnz 1) as (u & Hu & _); [lia|].
      cbn [iterFrom] in Hu. apply bind_Ok in Hu as (new & Hnew & _).
      rewrite Hnew. cbn. apply IH; [lia|lia|].
      intros i Hi. destruct (Hnz (S i)) as (u' & Hu' & Hnz'); [lia|].
      cbn [iterFrom] in Hu'. rewrite Hnew in Hu'. eauto.
Qed.

Lemma iterate_seed A logitWeights row0 k :
  A !! 0 = Some row0 →
  iterate A logitWeights k
  = propagate A (length row0) logitWeights ≫= iterFrom A (length row0) k.
Proof. intros H0. unfold iterate. by rewrite H0. Qed.

Lemma iterate_S A logitWeights row0 k :
  A !! 0 = Some row0 →
  iterate A logitWeights (S k) = iterate A logitWeights k ≫= propagate A (length row0).
Proof. intros H0. unfold iterate. rewrite H0. apply iterFrom_S. Qed.

Lemma accumulated_seed A logitWeights row0 k :
  A !! 0 = Some row0 →
  accumulated A logitWeights k
  = (seed ← propagate A (length row0) logitWeights;
     accSteps A (length row0) k seed seed).
Proof.
  intros H0. induction k as [|k IH].
  - cbn [accumulated]. rewrite (iterate_seed _ _ row0) by done.
    by destruct (propagate A (length row0) logitWeights).
  - cbn [accumulated]. rewrite IH, (iterate_seed _ _ row0) by done.
    destruct (propagate A (length row0) logitWeights) as [seed|e]; [|done].
    rewrite !bind_Ok_l. by rewrite accSteps_S.
Qed.

(** An iterate that exists has all earlier iterates behind it. *)
Lemma iterate_defined_before A logitWeights k v j :
  iterate A logitWeights k = Ok v → j ≤ k → ∃ u, iterate A logitWeights j = Ok u.
Proof.
  intros Hk Hj. destruct (A !! 0) as [row0|] eqn:H0.
  - revert v Hk. induction k as [|k IH]; intros v Hk.
    + replace j with 0 by lia. eauto.
    + destruct (decide (j = S k)) as [->|Hne]; [eauto|].
      rewrite (iterate_S _ _ row0) in Hk by done.
      apply bind_Ok in Hk as (u & Hu & _). apply (IH ltac:(lia) u Hu).
  - unfold iterate in Hk. by rewrite H0 in Hk.
Qed.

(** Among the turns up to a turn at which the iterate is zero there is a
    first one. *)
Lemma firstZeroAt_exists A logitWeights k v :
  iterate A logitWeights k = Ok v → someNonZero v = false →
  ∃ k0, k0 ≤ k ∧ firstZeroAt A logitWeights k0.
Proof.
  intros Hk Hz.
  assert (∀ m, m ≤ S k →
            (∃ k0, k0 < m ∧ firstZeroAt A logitWeights k0)
            ∨ ∀ j, j < m → ∃ u, iterate A logitWeights j = Ok u ∧ someNonZero u = true)
    as Hsearch.
  { induction m as [|m IH]; intros Hm.
    - right. intros j Hj. lia.
    - destruct IH as [(k0 & Hk0 & Hfirst)|Hall]; [lia|left; exists k0; split; [lia|done]|].
      destruct (iterate_defined_before A logitWeights k v m Hk) as [u Hu]; [lia|].
      destruct (someNonZero u) eqn:Hnz.
      + right. intros j Hj. destruct (decide (j = m)) as [->|]; [eauto|].
        apply Hall. lia.
      + left. exists m. split; [lia|]. split; eauto. }
  destruct (Hsearch (S k)) as [(k0 & Hk0 & Hfirst)|Hall]; [lia| |].
  - exists k0. split; [lia|done].
  - destruct (Hall k) as (u & Hu & Hnz); [lia|]. congruence.
Qed.

Lemma convergenceMessage_1000 :
  convergenceMessage 1000
  = "Influence computation failed to converge after 1000 iterations"%string.
Proof. by vm_compute. Qed.

(** The loop in terms of the iterates computed by the code itself. *)
Lemma computeInfluence_loop (A : matrix) (logitWeights : list float) :
  ((∀ k, k ≤ 1000 → ∃ v, iterate A logitWeights k = Ok v ∧ someNonZero v = true) →
   computeInfluence A logitWeights
   = Throw (Error "Influence computation failed to converge after 1000 iterations"))
  ∧
  (∀ k v, k ≤ 1000 → iterate A logitWeights k = Ok v → someNonZero v = false →
   ∃ k0 influence,
     k0 ≤ k ∧ firstZeroAt A logitWeights k0
     ∧ accumulated A logitWeights k0 = Ok influence
     ∧ computeInfluence A logitWeights = Ok influence).
Proof.
  unfold computeInfluence, computeInfluenceWith. split.
  - intros Hnz. destruct (A !! 0) as [row0|] eqn:H0.
    + destruct (Hnz 0) as (seed0 & Hseed0 & _); [lia|].
      rewrite (iterate_seed _ _ row0) in Hseed0 by done.
      apply bind_Ok in Hseed0 as (seed & Hseed & _). rewrite Hseed, bind_Ok_l.
      rewrite <-convergenceMessage_1000. apply influenceLoop_throws; [lia|lia|].
      intros i Hi. destruct (Hnz i) as (u & Hu & Hunz); [lia|].
      rewrite (iterate_seed _ _ row0), Hseed in Hu by done. eauto.
    + destruct (Hnz 0) as (v & Hv & _); [lia|]. unfold iterate in Hv. by rewrite H0 in Hv.
  - intros k v Hk Hv Hz.
    destruct (firstZeroAt_exists A logitWeights k v Hv Hz) as (k0 & Hk0 & Hfirst).
    destruct (A !! 0) as [row0|] eqn:H0; [|unfold iterate in Hv; by rewrite H0 in Hv].
    destruct Hfirst as [(v0 & Hv0 & Hz0) Hbefore].
    pose proof Hv0 as Hseed. rewrite (iterate_seed _ _ row0) in Hseed by done.
    apply bind_Ok in Hseed as (seed & Hseed & Hit0).
    destruct (influenceLoop_returns A (length row0) 1000 k0 1000 0 seed seed v0)
      as (result & Hacc & Hloop); [lia|lia| |done|done|].
    { intros i Hi. destruct (Hbefore i Hi) as (u & Hu & Hunz).
      rewrite (iterate_seed _ _ row0), Hseed in Hu by done. eauto. }
    exists k0, result. split_and!; [done| |..].
    + split; [eauto|done].
    + rewrite (accumulated_seed _ _ row0), Hseed by done. exact Hacc.
    + rewrite Hseed, bind_Ok_l. exact Hloop.
Qed.


(** *** The code's iterates are those of the specification *)

Lemma dotColumn_zip A j (v : list float) :
  ∀ i acc, i + length v ≤ length A →
    dotColumn A j i v acc
    = Ok (foldl (λ acc '(vi, row), (acc + vi * Js.toNumber (row !! j))%float)
                acc (zip v (drop i A))).
Proof.
  induction v as [|vi v IH]; intros i acc Hlen; cbn [length] in Hlen; [done|].
  cbn [dotColumn]. unfold entry.
  destruct (lookup_lt_is_Some_2 A i) as [row Hrow]; [lia|].
  rewrite Hrow, bind_Ok_l, IH by lia.
  by rewrite (drop_S _ _ _ Hrow).
Qed.

Lemma traverse_map {X Y} (f : X → Result Y) (g : X → Y) (l : list X) :
  (∀ x, x ∈ l → f x = Ok (g x)) → traverse f l = Ok (map g l).
Proof.
  induction l as [|x l IH]; intros Hf; cbn [traverse map]; [done|].
  rewrite Hf by (by left). rewrite bind_Ok_l, IH; [done|].
  intros y Hy. apply Hf. by right.
Qed.

Lemma propagate_vectorMatrix A ncols (v : list float) :
  length v ≤ length A → propagate A ncols v = Ok (vectorMatrix A ncols v).
Proof.
  intros Hlen. unfold propagate, vectorMatrix. apply traverse_map. intros j _.
  by rewrite dotColumn_zip by done.
Qed.

Lemma vectorMatrix_length A ncols v : length (vectorMatrix A ncols v) = ncols.
Proof. unfold vectorMatrix. by rewrite length_map, length_seq. Qed.

Lemma influenceIterate_length A logitWeights k :
  length (influenceIterate A logitWeights k) = columns A.
Proof. destruct k; apply vectorMatrix_length. Qed.

Lemma influenceSum_length A logitWeights k :
  length (influenceSum A logitWeights k) = columns A.
Proof.
  induction k as [|k IH]; [apply influenceIterate_length|].
  cbn [influenceSum]. rewrite length_zip_with, IH, influenceIterate_length. lia.
Qed.

Lemma accumulate_zip_with (influence v : list float) :
  length influence ≤ length v →
  accumulate influence v = zip_with PrimFloat.add influence v.
Proof.
  unfold accumulate. revert v. induction influence as [|x influence IH]; intros v Hlen; [done|].
  destruct v as [|y v]; [cbn in Hlen; lia|]. cbn [imap zip_with]. f_equal.
  apply IH. cbn in Hlen. lia.
Qed.

Lemma someNonZero_zeroVector (v : list float) : someNonZero v = negb (zeroVector v).
Proof.
  unfold someNonZero, zeroVector, Js.nonZero.
  induction v as [|x v IH]; [done|]. cbn [existsb forallb]. rewrite IH.
  by destruct (x =? 0)%float.
Qed.

Section SquareMatrix.
Context (n : nat) (A : matrix) (logitWeights : list float).
Context (Hn : 0 < n) (HA : square n A) (Hw : length logitWeights = n).

Lemma square_columns : columns A = n.
Proof using Hn HA.
  unfold columns. by destruct (square_lookup n A 0 HA Hn) as (row0 & -> & Hlen).
Qed.

Lemma iterate_influenceIterate k :
  iterate A logitWeights k = Ok (influenceIterate A logitWeights k).
Proof using Hn HA Hw.
  destruct (square_lookup n A 0 HA Hn) as (row0 & Hrow0 & Hlen0).
  pose proof square_columns as Hcols. pose proof (square_length n A HA) as Hrows.
  induction k as [|k IH].
  - rewrite (iterate_seed _ _ row0), Hlen0 by done. cbn [iterFrom influenceIterate].
    rewrite propagate_vectorMatrix, bind_Ok_l by lia. by rewrite Hcols.
  - rewrite (iterate_S _ _ row0), IH, bind_Ok_l, Hlen0 by done. cbn [influenceIterate].
    rewrite propagate_vectorMatrix by (rewrite influenceIterate_length; lia).
    by rewrite Hcols.
Qed.

Lemma accumulated_influenceSum k :
  accumulated A logitWeights k = Ok (influenceSum A logitWeights k).
Proof using Hn HA Hw.
  induction k as [|k IH]; cbn [accumulated influenceSum].
  - apply iterate_influenceIterate.
  - rewrite IH, iterate_influenceIterate, !bind_Ok_l.
    by rewrite accumulate_zip_with
      by (rewrite influenceSum_length, influenceIterate_length; lia).
Qed.

Lemma computeInfluence_series :
  ((∀ k, k ≤ 1000 → zeroVector (influenceIterate A logitWeights k) = false) →
   computeInfluence A logitWeights
   = Throw (Error "Influence computation failed to converge after 1000 iterations"))
  ∧ (∀ k, k ≤ 1000 →
       zeroVector (influenceIterate A logitWeights k) = true →
       (∀ j, j < k → zeroVector (influenceIterate A logitWeights j) = false) →
       computeInfluence A logitWeights = Ok (influenceSum A logitWeights k))
  ∧ (∀ k, k ≤ 1000 →
       zeroVector (influenceIterate A logitWeights k) = true →
       ∃ k0, k0 ≤ k
             ∧ zeroVector (influenceIterate A logitWeights k0) = true
             ∧ (∀ j, j < k0 → zeroVector (influenceIterate A logitWeights j) = false)
             ∧ computeInfluence A logitWeights = Ok (influenceSum A logitWeights k0)).
Proof using Hn HA Hw.
  destruct (computeInfluence_loop A logitWeights) as [Hthrow Hreturn].
  assert (∀ k, k ≤ 1000 →
            zeroVector (influenceIterate A logitWeights k) = true →
            ∃ k0, k0 ≤ k
                  ∧ zeroVector (influenceIterate A logitWeights k0) = true
                  ∧ (∀ j, j < k0 → zeroVector (influenceIterate A logitWeights j) = false)
                  ∧ computeInfluence A logitWeights = Ok (influenceSum A logitWeights k0))
    as Hfirst.
  { intros k Hk Hz.
    destruct (Hreturn k (influenceIterate A logitWeights k) Hk)
      as (k0 & influence & Hk0 & [(v0 & Hv0 & Hz0) Hbefore] & Hacc & Hresult).
    - apply iterate_influenceIterate.
    - by rewrite someNonZero_zeroVector, Hz.
    - rewrite iterate_influenceIterate in Hv0. injection Hv0 as <-.
      rewrite accumulated_influenceSum in Hacc. injection Hacc as <-.
      exists k0. split_and!; [done| |  |done].
      + rewrite someNonZero_zeroVector in Hz0. by apply negb_false_iff in Hz0.
      + intros j Hj. destruct (Hbefore j Hj) as (u & Hu & Hnz).
        rewrite iterate_influenceIterate in Hu. injection Hu as <-.
        rewrite someNonZero_zeroVector in Hnz. by apply negb_true_iff in Hnz. }
  split_and!.
  - intros Hnz. apply Hthrow. intros k Hk. eexists. split; [apply iterate_influenceIterate|].
    by rewrite someNonZero_zeroVector, Hnz.
  - intros k Hk Hz Hbefore. destruct (Hfirst k Hk Hz) as (k0 & Hk0 & Hz0 & _ & Hresult).
    destruct (decide (k0 = k)) as [->|Hne]; [done|].
    rewrite Hbefore in Hz0 by lia. discriminate Hz0.
  - exact Hfirst.
Qed.
End SquareMatrix.

(** C5: for the [n × n] matrix of a graph with at least one node and a
    vector of [n] logit weights.  When the iterate (the logit weights after
    [k + 1] applications of the matrix) is not the all-zero vector for any
    [k] from 0 to 1000, [computeInfluence] throws the error whose message is
    "Influence computation failed to converge after 1000 iterations".  When
    the iterate is the all-zero vector for some [k] up to 1000, it returns
    the sum of the iterates 0 to [k0], added entry by entry in that order,
    where [k0] is the first index at which the iterate is all-zero. *)
Theorem computeInfluence_converges_or_throws
    (n : nat) (A : matrix) (logitWeights : list float) :
  0 < n → square n A → length logitWeights = n →
  ((∀ k, k ≤ 1000 → zeroVector (influenceIterate A logitWeights k) = false) →
   computeInfluence A logitWeights
   = Throw (Error "Influence computation failed to converge after 1000 iterations"))
  ∧ (∀ k, k ≤ 1000 →
       zeroVector (influenceIterate A logitWeights k) = true →
       (∀ j, j < k → zeroVector (influenceIterate A logitWeights j) = false) →
       computeInfluence A logitWeights = Ok (influenceSum A logitWeights k))
  ∧ (∀ k, k ≤ 1000 →
       zeroVector (influenceIterate A logitWeights k) = true →
       ∃ k0, k0 ≤ k
             ∧ zeroVector (influenceIterate A logitWeights k0) = true
             ∧ (∀ j, j < k0 → zeroVector (influenceIterate A logitWeights j) = false)
             ∧ computeInfluence A logitWeights = Ok (influenceSum A logitWeights k0)).
Proof. apply computeInfluence_series. Qed.

Lemma influenceIterate_unit k : influenceIterate [[1%float]] [1%float] k = [1%float].
Proof. induction k as [|k IH]; [done|]. cbn [influenceIterate]. by rewrite IH. Qed.

Lemma computeInfluence_converges_or_throws_witness :
  computeInfluence [[1%float]] [1%float]
  = Throw (Error "Influence computation failed to converge after 1000 iterations")
  ∧
  let A := [[0; 0; 1; 0]; [0; 0; 1; 0]; [0; 0; 0; 0]; [0.5; 0.5; 0; 0]]%float in
  let logitWeights := [0; 0; 0; 1]%float in
  influenceIterate A logitWeights 0 = [0.5; 0.5; 0; 0]%float
  ∧ influenceIterate A logitWeights 1 = [0; 0; 1; 0]%float
  ∧ influenceIterate A logitWeights 2 = [0; 0; 0; 0]%float
  ∧ computeInfluence A logitWeights = Ok [0.5; 0.5; 1; 0]%float.
Proof.
  split.
  - apply (computeInfluence_converges_or_throws 1 [[1%float]] [1%float]);
      [lia|by repeat constructor|done|].
    intros k _. by rewrite influenceIterate_unit.
  - split_and!; [reflexivity..|].
    apply (proj1 (proj2 (computeInfluence_converges_or_throws 4
                           [[0; 0; 1; 0]; [0; 0; 1; 0]; [0; 0; 0; 0]; [0.5; 0.5; 0; 0]]%float
                           [0; 0; 0; 1]%float
                           ltac:(lia) ltac:(by repeat constructor) eq_refl)) 2).
    + lia.
    + reflexivity.
    + intros j Hj. destruct j as [|[|j]]; [reflexivity|reflexivity|lia].
Defined.

(** *** The fuel of [influenceLoop] is never exhausted *)

Lemma entry_Throw A i j e : entry A i j = Throw e → e = TypeError.
Proof. unfold entry. destruct (A !! i); [discriminate|]. by intros [= <-]. Qed.

Lemma dotColumn_Throw A j i v acc e : dotColumn A j i v acc = Throw e → e = TypeError.
Proof.
  revert i acc. induction v as [|vi v IH]; intros i acc; cbn [dotColumn]; [discriminate|].
  destruct (entry A i j) as [a|e'] eqn:Ha.
  - rewrite bind_Ok_l. apply IH.
  - intros [= <-]. by eapply entry_Throw.
Qed.

Lemma traverse_Throw {X Y} (f : X → Result Y) (l : list X) e :
  (∀ x e, f x = Throw e → e = TypeError) → traverse f l = Throw e → e = TypeError.
Proof.
  intros Hf. induction l as [|x l IH]; cbn [traverse]; [discriminate|].
  destruct (f x) as [y|e'] eqn:Hx.
  - rewrite bind_Ok_l. destruct (traverse f l) as [ys|e'']; [discriminate|].
    intros [= <-]. by apply IH.
  - intros [= <-]. by eapply Hf.
Qed.

Lemma propagate_Throw A ncols v e : propagate A ncols v = Throw e → e = TypeError.
Proof. apply traverse_Throw. intros j e'. apply dotColumn_Throw. Qed.

Lemma influenceLoop_fuel A ncols maxIter fuel :
  ∀ iterations cur influence,
    maxIter - iterations ≤ fuel →
    influenceLoop A ncols maxIter fuel iterations cur influence
    ≠ Throw (Error "out of fuel").
Proof.
  induction fuel as [|fuel IH]; intros iterations cur influence Hfuel;
    cbn [influenceLoop]; destruct (someNonZero cur); try discriminate;
    destruct (maxIter <=? iterations) eqn:Hle;
    try (unfold convergenceMessage; rewrite append_cons; discriminate).
  - apply Nat.leb_gt in Hle. lia.
  - destruct (propagate A ncols cur) as [new|e] eqn:Hnew.
    + rewrite bind_Ok_l. apply IH. apply Nat.leb_gt in Hle. lia.
    + apply propagate_Throw in Hnew as ->. discriminate.
Qed.

(** ** The canonical order: claim C7 *)

Lemma compareNodes_unfold a b :
  compareNodes a b
  = compareKeys
      [Z.of_nat (typePriority a); layerNum a; ctx_idx a; default 0%Z (feature a)]
      [Z.of_nat (typePriority b); layerNum b; ctx_idx b; default 0%Z (feature b)].
Proof. reflexivity. Qed.

Lemma notAfter_trans : Transitive notAfter.
Proof.
  intros a b c. unfold notAfter. rewrite !compareNodes_unfold. cbn [compareKeys].
  repeat case_decide; lia.
Qed.

Lemma notAfter_total a b : notAfter a b ∨ notAfter b a.
Proof.
  unfold notAfter. rewrite !compareNodes_unfold. cbn [compareKeys].
  repeat case_decide; lia.
Qed.

Lemma compareNodes_antisym a b :
  notAfter a b → notAfter b a → compareNodes a b = 0%Z.
Proof.
  unfold notAfter. rewrite !compareNodes_unfold. cbn [compareKeys].
  repeat case_decide; lia.
Qed.

Lemma insertNode_Permutation a l : insertNode a l ≡ₚ a :: l.
Proof.
  induction l as [|b l IH]; [done|]. cbn [insertNode].
  destruct (0 <? compareNodes a b)%Z; [|done].
  rewrite IH. apply Permutation_swap.
Qed.

Lemma sortNodes_Permutation nodes : sortNodes nodes ≡ₚ nodes.
Proof.
  induction nodes as [|a nodes IH]; [done|]. cbn [sortNodes foldr].
  fold (sortNodes nodes). by rewrite insertNode_Permutation, IH.
Qed.

Lemma insertNode_Sorted a l : Sorted notAfter l → Sorted notAfter (insertNode a l).
Proof.
  induction l as [|b l IH]; intros Hl; cbn [insertNode].
  - by repeat constructor.
  - destruct (0 <? compareNodes a b)%Z eqn:Hab.
    + apply Sorted_inv in Hl as [Hl Hb]. constructor; [by apply IH|].
      destruct l as [|c l]; cbn [insertNode].
      * constructor. apply Z.ltb_lt in Hab.
        destruct (notAfter_total b a) as [|Hba]; [done|]. unfold notAfter in Hba. lia.
      * destruct (0 <? compareNodes a c)%Z.
        -- constructor. by apply HdRel_inv in Hb.
        -- constructor. apply Z.ltb_lt in Hab.
           destruct (notAfter_total b a) as [|Hba]; [done|]. unfold notAfter in Hba. lia.
    + constructor; [done|]. constructor. apply Z.ltb_ge in Hab. exact Hab.
Qed.

Lemma sortNodes_Sorted nodes : Sorted notAfter (sortNodes nodes).
Proof.
  induction nodes as [|a nodes IH]; [constructor|].
  cbn [sortNodes foldr]. by apply insertNode_Sorted.
Qed.

(** With distinct keys the sorted list depends on the nodes only, not on
    their order in the input. *)
Lemma sortNodes_permuted nodes nodes' :
  nodes' ≡ₚ nodes → distinctKeys nodes → sortNodes nodes' = sortNodes nodes.
Proof.
  intros Hperm Hdistinct. pose proof notAfter_trans as Htrans.
  apply (Sorted_unique_strong notAfter); [|apply sortNodes_Sorted..|].
  - intros a b Ha Hb Hab Hba.
    rewrite sortNodes_Permutation, Hperm in Ha. rewrite sortNodes_Permutation in Hb.
    apply list_elem_of_lookup in Ha as [i Hi]. apply list_elem_of_lookup in Hb as [j Hj].
    destruct (decide (i = j)) as [->|Hne]; [congruence|].
    destruct (Hdistinct i j a b Hi Hj Hne). by apply compareNodes_antisym.
  - by rewrite !sortNodes_Permutation.
Qed.

(** C7 (as amended): when no two nodes of the graph have equal sort keys
    (type priority, layer number, ctx_idx, feature; the layer number is the
    binary64 number that [parseInt] reads from the layer), [compute] gives
    the same result, the same two scores or the same exception, on every
    permutation of the node list, for every list of edges and every
    [pinnedIds]. *)
Theorem scores_invariant_under_permutation
    (nodeList permuted : list CLTGraphNode) (edges : list CLTGraphLink)
    (pinnedIds : list string) :
  permuted ≡ₚ nodeList →
  distinctKeys nodeList →
  computeGraphScoresFromGraphData {| nodes := permuted; links := edges |} pinnedIds
  = computeGraphScoresFromGraphData {| nodes := nodeList; links := edges |} pinnedIds.
Proof.
  intros Hperm Hdistinct.
  unfold computeGraphScoresFromGraphData, reconstructAdjacencyMatrix. cbn [nodes links].
  by rewrite (sortNodes_permuted nodeList permuted).
Qed.

Lemma scores_invariant_under_permutation_witness :
  computeGraphScoresFromGraphData
    {| nodes := [Scenario.L; Scenario.R; Scenario.F; Scenario.E];
       links := links Scenario.graph |} ["F"%string]
  = computeGraphScoresFromGraphData
      {| nodes := [Scenario.E; Scenario.F; Scenario.R; Scenario.L];
         links := links Scenario.graph |} ["F"%string].
Proof.
  apply (scores_invariant_under_permutation
           [Scenario.E; Scenario.F; Scenario.R; Scenario.L]
           [Scenario.L; Scenario.R; Scenario.F; Scenario.E]).
  - change [Scenario.L; Scenario.R; Scenario.F; Scenario.E]
      with (reverse [Scenario.E; Scenario.F; Scenario.R; Scenario.L]).
    apply reverse_Permutation.
  - intros i j a b Hi Hj Hne.
    lookup_cases Hi; lookup_cases Hj; try done; by vm_compute.
Defined.

(** C7 (counterexample): the error nodes R and R2 have the same layer and
    ctx_idx, so the stable sort keeps them in input order and the feature F
    merges into whichever comes last.  Exchanging them in the node list
    changes the replacement score from 0.5 to 2/3. *)
Lemma scores_depend_on_order_of_tied_nodes :
  nodes Tied.permuted ≡ₚ nodes Tied.graph ∧
  links Tied.permuted = links Tied.graph ∧
  ∃ r r',
    computeGraphScoresFromGraphData Tied.graph Tied.pinnedIds = Ok r ∧
    computeGraphScoresFromGraphData Tied.permuted Tied.pinnedIds = Ok r' ∧
    replacementScore r = 0.5%float ∧
    (replacementScore r <? replacementScore r')%float = true ∧
    replacementScore r' ≠ replacementScore r.
Proof.
  split_and!.
  - cbn [nodes Tied.permuted Tied.graph]. do 3 apply Permutation_skip. apply Permutation_swap.
  - reflexivity.
  - eexists _, _. split_and!; [by vm_compute..|].
    apply float_neq; by vm_compute.
Qed.

(** Sort keys are compared as the numbers they are: two layers that differ
    as texts tie when [parseInt] reads the same binary64 number from them,
    by rounding beyond [2^53] or by skipping white space (here U+00A0). *)
Lemma layers_tie_as_numbers :
  let node (id layer : string) :=
    {| node_id := id; feature_type := "mlp reconstruction error"; layer := layer;
       ctx_idx := 0; feature := None; token_prob := None |} in
  compareNodes (node "A" "9007199254740992") (node "B" "9007199254740993") = 0%Z
  ∧ compareNodes (node "A" "5")
                 (node "B" (String (ascii_of_nat 194) (String (ascii_of_nat 160) "5"))) = 0%Z
  ∧ ¬ distinctKeys [node "A" "9007199254740992"; node "B" "9007199254740993"].
Proof.
  split_and!; [by vm_compute..|].
  intros Hdistinct. by apply (Hdistinct 0 1 _ _ eq_refl eq_refl).
Qed.

(** ** The concrete scenario: claim C2 *)

(** C2 (counterexample): on the graph of the scenario, [pinnedIds = []] and
    [pinnedIds = ["F"]] give the same scores, so the first replacement score
    is not strictly less than the second. *)
Lemma scenario_unpinned_equals_pinned :
  ∃ r,
    computeGraphScoresFromGraphData Scenario.graph [] = Ok r ∧
    computeGraphScoresFromGraphData Scenario.graph ["F"%string] = Ok r ∧
    (replacementScore r <? replacementScore r)%float = false.
Proof. eexists. split_and!; by vm_compute. Qed.

(** C2 (as amended): on the graph of the scenario, with [pinnedIds = []] the
    merge pass leaves the matrix as it is (F is not merged into R: the pass
    runs only when [pinnedIds] is not empty), and the replacement score is
    the one obtained with [pinnedIds = ["F"]], the binary64 number nearest to
    2/3; with [pinnedIds = ["L"]], a list that is not empty and does not
    hold F, the column of F is added into the column of R and the
    replacement score, 0.5, is strictly less than with F pinned. *)
Theorem scenario_replacement_scores :
  let sortedNodes := [Scenario.F; Scenario.R; Scenario.E; Scenario.L] in
  let A := [[0; 0; 2; 0]; [0; 0; 1; 0]; [0; 0; 0; 0]; [1; 1; 0; 0]]%float in
  reconstructAdjacencyMatrix (nodes Scenario.graph) (links Scenario.graph) = Ok (A, sortedNodes) ∧
  mergePass sortedNodes [] A = A ∧
  mergePass sortedNodes ["F"%string] A = A ∧
  mergePass sortedNodes ["L"%string] A
  = [[0; 0; 0; 0]; [0; 0; 1; 0]; [0; 0; 0; 0]; [0; 2; 0; 0]]%float ∧
  ∃ unpinned pinned merged,
    computeGraphScoresFromGraphData Scenario.graph [] = Ok unpinned ∧
    computeGraphScoresFromGraphData Scenario.graph ["F"%string] = Ok pinned ∧
    computeGraphScoresFromGraphData Scenario.graph ["L"%string] = Ok merged ∧
    replacementScore unpinned = replacementScore pinned ∧
    replacementScore pinned = (2 / 3)%float ∧
    replacementScore merged = 0.5%float ∧
    (replacementScore merged <? replacementScore pinned)%float = true.
Proof.
  split_and!; [by vm_compute..|].
  eexists _, _, _. split_and!; by vm_compute.
Qed.

(** ** Exceptions: claim C3 *)

(** C3 (failing input): on the graph without nodes the matrix has no row,
    [A[0].length] in [computeInfluence] throws a [TypeError], and [compute]
    returns no scores; the exception is not the convergence failure. *)
Theorem empty_graph_throws_TypeError (pinnedIds : list string) :
  computeGraphScoresFromGraphData {| nodes := []; links := [] |} pinnedIds = Throw TypeError
  ∧ ∀ iterations, TypeError ≠ Error (convergenceMessage iterations).
Proof. split; [by destruct pinnedIds|discriminate]. Qed.

(** An edge whose target is a name that every object inherits makes the
    construction of the matrix throw as well. *)
Lemma inherited_target_throws_TypeError :
  computeGraphScoresFromGraphData
    {| nodes := [Scenario.E; Scenario.L];
       links := [Scenario.edge "E" "toString" 1] |} []
  = Throw TypeError.
Proof. by vm_compute. Qed.

(** ** Row normalization: claim C6 *)

(** *** Zeros of binary64 *)

Lemma Prim2SF_zero : Prim2SF 0%float = S754_zero false.
Proof. reflexivity. Qed.

(** A number that compares equal to zero is one of the two zeros. *)
Lemma float_zero_cases (x : float) :
  Js.nonZero x = false → x = 0%float ∨ x = (-0)%float.
Proof.
  unfold Js.nonZero. rewrite FloatAxioms.eqb_spec, Prim2SF_zero. intros Hx.
  rewrite <-(SF2Prim_Prim2SF x).
  destruct (Prim2SF x) as [[|]|[|]| |[|] m e]; cbn in Hx; try discriminate Hx.
  - right. reflexivity.
  - left. reflexivity.
Qed.


Lemma sum_zeros n : Js.sum (replicate n 0%float) = 0%float.
Proof. unfold Js.sum. induction n as [|n IH]; [done|]. cbn [replicate foldl]. exact IH. Qed.

Lemma normalizeRow_zeros n : normalizeRow (replicate n 0%float) = replicate n 0%float.
Proof.
  unfold normalizeRow. cbn [a_abs a_add a_zero a_max a_div a_epsilon float_arith].
  change (map ?f ?l) with (f <$> l). rewrite !fmap_replicate.
  change (abs 0) with 0%float. fold (Js.sum (replicate n 0%float)). by rewrite sum_zeros.
Qed.

(** *** The clamp *)


Lemma Prim2SF_epsilon :
  Prim2SF (a_epsilon (T := float)) = S754_finite false 7737125245533627 (-86).
Proof. reflexivity. Qed.





(** ** Graphs without edges: claim C4 *)

(** *** Products with zero *)

Lemma is_finite_cases (w : float) :
  is_finite w = true →
  (∃ s, Prim2SF w = S754_zero s) ∨ (∃ s m e, Prim2SF w = S754_finite s m e).
Proof.
  unfold is_finite, is_nan, is_infinity.
  rewrite !FloatAxioms.eqb_spec, abs_spec. intros Hfin.
  destruct (Prim2SF w) as [s|s| |s m e]; eauto.
  - cbn in Hfin. by rewrite orb_true_r in Hfin.
  - cbn in Hfin. discriminate Hfin.
Qed.

Lemma mul_zero_cases (w : float) :
  is_finite w = true → (w * 0)%float = 0%float ∨ (w * 0)%float = (-0)%float.
Proof.
  intros Hfin. rewrite <-(SF2Prim_Prim2SF (w * 0)), mul_spec, Prim2SF_zero.
  destruct (is_finite_cases w Hfin) as [[s ->]|(s & m & e & ->)];
    destruct s; cbn; auto.
Qed.

(** Adding the product of a finite number with zero to zero gives zero. *)
Lemma add_mul_zero (w : float) : is_finite w = true → (0 + w * 0)%float = 0%float.
Proof. intros [-> | ->]%mul_zero_cases; reflexivity. Qed.

Lemma zero_cases_finite (w : float) : Js.nonZero w = false → is_finite w = true.
Proof. intros [-> | ->]%float_zero_cases; reflexivity. Qed.

(** *** The zero matrix through the merge pass and the normalization *)

Lemma alter_fixed {X} (F : X → X) (l : list X) (i : nat) :
  (∀ x, l !! i = Some x → F x = x) → alter F i l = l.
Proof.
  intros HF. rewrite <-(list_alter_id id l i) at 2 by done.
  by apply list_alter_ext.
Qed.

Lemma zeroRowAndColumn_zeros n idx :
  zeroRowAndColumn idx (replicate n (replicate n 0%float)) = replicate n (replicate n 0%float).
Proof.
  rewrite zeroRowAndColumn_rows, length_replicate.
  rewrite alter_fixed.
  - by rewrite fmap_replicate, insert_replicate.
  - intros row [-> _]%lookup_replicate.
    by rewrite zeroPrefix_full, length_replicate by (by rewrite length_replicate).
Qed.

Lemma mergeRow_zeros n fidx eidx :
  fidx < n → mergeRow fidx eidx (replicate n 0%float) = replicate n 0%float.
Proof.
  intros Hf. unfold mergeRow. rewrite (lookup_replicate_2 n _ fidx) by done.
  destruct (decide (eidx < n)) as [He|He].
  - rewrite (lookup_replicate_2 n _ eidx) by done. apply insert_replicate.
  - apply list_insert_ge. rewrite length_replicate. lia.
Qed.

Lemma mergeColumn_zeros n fidx eidx :
  fidx < n →
  mergeColumn fidx eidx (replicate n (replicate n 0%float)) = replicate n (replicate n 0%float).
Proof. intros Hf. by rewrite mergeColumn_rows, fmap_replicate, mergeRow_zeros. Qed.

Lemma mergeNode_zeros n pinnedSet table node idx :
  idx < n →
  mergeNode pinnedSet table node idx (replicate n (replicate n 0%float))
  = replicate n (replicate n 0%float).
Proof.
  intros Hidx. unfold mergeNode. repeat case_decide; try done.
  destruct (Dict.get table (mergeKey node));
    by rewrite ?mergeColumn_zeros, zeroRowAndColumn_zeros.
Qed.

Lemma forEachFrom_mergeNode_zeros n pinnedSet table (l : list CLTGraphNode) i :
  i + length l ≤ n →
  forEachFrom (mergeNode pinnedSet table) i l (replicate n (replicate n 0%float))
  = replicate n (replicate n 0%float).
Proof.
  revert i. induction l as [|node l IH]; intros i Hi; cbn [forEachFrom]; [done|].
  cbn [length] in Hi. rewrite mergeNode_zeros by lia. apply IH. lia.
Qed.

Lemma mergePass_zeros sortedNodes pinnedIds :
  let n := length sortedNodes in
  mergePass sortedNodes pinnedIds (replicate n (replicate n 0%float))
  = replicate n (replicate n 0%float).
Proof.
  intros n. unfold mergePass. destruct (0 <? length pinnedIds); [|done].
  apply forEachFrom_mergeNode_zeros. lia.
Qed.

Lemma normalizeMatrix_zeros n :
  normalizeMatrix (replicate n (replicate n 0%float)) = replicate n (replicate n 0%float).
Proof.
  unfold normalizeMatrix. change (map ?f ?l) with (f <$> l).
  by rewrite fmap_replicate, normalizeRow_zeros.
Qed.

(** *** The influence on the zero matrix *)

Lemma entry_zeros n i j :
  i < n → j < n → entry (replicate n (replicate n 0%float)) i j = Ok 0%float.
Proof.
  intros Hi Hj. unfold entry. rewrite lookup_replicate_2 by done.
  by rewrite lookup_replicate_2.
Qed.

Lemma dotColumn_zeros n j (v : list float) i :
  j < n → i + length v ≤ n →
  Forall (λ w, is_finite w = true) v →
  dotColumn (replicate n (replicate n 0%float)) j i v 0%float = Ok 0%float.
Proof.
  intros Hj Hi Hv. revert i Hi.
  induction Hv as [|w v Hw Hv IH]; intros i Hi; cbn [dotColumn]; [done|].
  cbn [length] in Hi. rewrite entry_zeros, bind_Ok_l by lia.
  rewrite add_mul_zero by done. apply IH. lia.
Qed.

Lemma traverse_const {X Y} (f : X → Result Y) (l : list X) (c : Y) :
  (∀ x, x ∈ l → f x = Ok c) → traverse f l = Ok (replicate (length l) c).
Proof.
  induction l as [|x l IH]; intros Hf; cbn [traverse]; [done|].
  rewrite Hf by left. rewrite bind_Ok_l, IH; [done|].
  intros y Hy. apply Hf. by right.
Qed.

Lemma propagate_zeros n (v : list float) :
  length v ≤ n →
  Forall (λ w, is_finite w = true) v →
  propagate (replicate n (replicate n 0%float)) n v = Ok (replicate n 0%float).
Proof.
  intros Hlen Hv. unfold propagate.
  rewrite (traverse_const _ _ 0%float).
  - by rewrite length_seq.
  - intros j Hj%elem_of_seq. apply dotColumn_zeros; [lia|lia|done].
Qed.

Lemma someNonZero_zeros n : someNonZero (replicate n 0%float) = false.
Proof. induction n as [|n IH]; [done|]. cbn. exact IH. Qed.

Lemma influenceLoop_zero A ncols maxIter fuel iterations cur influence :
  someNonZero cur = false →
  influenceLoop A ncols maxIter fuel iterations cur influence = Ok influence.
Proof. intros Hz. destruct fuel; cbn [influenceLoop]; by rewrite Hz. Qed.

Lemma computeInfluence_zeros n (logitWeights : list float) :
  0 < n → length logitWeights ≤ n →
  Forall (λ w, is_finite w = true) logitWeights →
  computeInfluence (replicate n (replicate n 0%float)) logitWeights = Ok (replicate n 0%float).
Proof.
  intros Hn Hlen Hw. unfold computeInfluence, computeInfluenceWith.
  rewrite lookup_replicate_2, length_replicate by done.
  rewrite propagate_zeros, bind_Ok_l by done.
  apply influenceLoop_zero, someNonZero_zeros.
Qed.

(** *** The logit weights *)

Lemma foldl_insert_Forall {X} (P : X → Prop) (h : nat → nat) (g : nat → X) idxs l0 :
  Forall P l0 → (∀ i, i ∈ idxs → P (g i)) →
  Forall P (foldl (λ l i, <[h i := g i]> l) l0 idxs)
  ∧ length (foldl (λ l i, <[h i := g i]> l) l0 idxs) = length l0.
Proof.
  revert l0. induction idxs as [|i idxs IH]; intros l0 Hl0 Hg; cbn [foldl]; [done|].
  destruct (IH (<[h i := g i]> l0)) as [HP Hlen].
  - apply Forall_insert; [done|]. apply Hg. by left.
  - intros k Hk. apply Hg. by right.
  - split; [done|]. by rewrite Hlen, length_insert.
Qed.

Lemma logitWeights_Forall (P : float → Prop) sortedNodes n :
  P 0%float →
  (∀ node, node ∈ sortedNodes → feature_type node = "logit"%string →
     P (Js.toNumber (token_prob node))) →
  Forall P (logitWeights sortedNodes n) ∧ length (logitWeights sortedNodes n) = n.
Proof.
  intros H0 Hnodes. unfold logitWeights.
  destruct (foldl_insert_Forall P
              (λ i, n - countType "logit" sortedNodes + i)
              (λ i, Js.toNumber
                      (mjoin (map token_prob (List.filter (hasType "logit") sortedNodes) !! i)))
              (seq 0 (countType "logit" sortedNodes))
              (replicate n 0%float)) as [HP Hlen].
  - by apply Forall_replicate.
  - intros i Hi%elem_of_seq.
    change (map token_prob ?l) with (token_prob <$> l). rewrite list_lookup_fmap.
    destruct (List.filter (hasType "logit") sortedNodes !! i) as [node|] eqn:Hnode.
    + cbn. apply list_elem_of_lookup_2, list_elem_of_In, filter_In in Hnode as [Hin Htype].
      apply Hnodes; [by apply list_elem_of_In|].
      unfold hasType in Htype. by apply bool_decide_eq_true in Htype.
    + apply lookup_ge_None in Hnode. unfold countType in Hi. lia.
  - split; [done|]. by rewrite Hlen, length_replicate.
Qed.

(** The logit weights are zeros followed by the token probabilities of the
    logit nodes, in canonical order. *)
Lemma foldl_insert_seq_lookup {X} (h : nat) (g : nat → X) (l0 : list X) (k j : nat) :
  foldl (λ l i, <[h + i := g i]> l) l0 (seq 0 k) !! j
  = if decide (h ≤ j < h + k ∧ j < length l0) then Some (g (j - h)) else l0 !! j.
Proof.
  induction k as [|k IH].
  - cbn [seq foldl]. case_decide; [lia|done].
  - rewrite seq_S, foldl_app. cbn [foldl Nat.add].
    rewrite list_lookup_insert, IH.
    assert (length (foldl (λ l i, <[h + i := g i]> l) l0 (seq 0 k)) = length l0) as ->.
    { clear. induction k as [|k IHk]; [done|].
      rewrite seq_S, foldl_app. cbn [foldl Nat.add]. by rewrite length_insert. }
    repeat case_decide; try lia; try done. f_equal. f_equal. lia.
Qed.

Lemma logitWeights_lookup sortedNodes n j :
  let nLogits := countType "logit" sortedNodes in
  logitWeights sortedNodes n !! j
  = if decide (n - nLogits ≤ j < n - nLogits + nLogits ∧ j < n)
    then Some (Js.toNumber
                 (mjoin (map token_prob (List.filter (hasType "logit") sortedNodes)
                           !! (j - (n - nLogits)))))
    else replicate n 0%float !! j.
Proof.
  intros nLogits. unfold logitWeights. fold nLogits.
  rewrite (foldl_insert_seq_lookup (n - nLogits)
             (λ i, Js.toNumber
                     (mjoin (map token_prob (List.filter (hasType "logit") sortedNodes) !! i)))).
  by rewrite length_replicate.
Qed.

Lemma logitWeights_app sortedNodes :
  let logits := List.filter (hasType "logit") sortedNodes in
  logitWeights sortedNodes (length sortedNodes)
  = replicate (length sortedNodes - length logits) 0%float
    ++ map (λ node, Js.toNumber (token_prob node)) logits.
Proof.
  intros logits.
  assert (length logits ≤ length sortedNodes) as Hle.
  { unfold logits. clear. induction sortedNodes as [|x l IH]; [done|].
    cbn [List.filter length]. destruct (hasType "logit" x); cbn [length]; lia. }
  apply list_eq. intros j. rewrite logitWeights_lookup. unfold countType. fold logits.
  case_decide as Hj.
  - rewrite lookup_app_r by (rewrite length_replicate; lia). rewrite length_replicate.
    change (map ?f ?l) with (f <$> l). rewrite !list_lookup_fmap.
    destruct (lookup_lt_is_Some_2 logits (j - (length sortedNodes - length logits)))
      as [node ->]; [lia|]. done.
  - destruct (decide (j < length sortedNodes - length logits)) as [Hlt|Hge].
    + rewrite lookup_app_l by (by rewrite length_replicate).
      by rewrite !lookup_replicate_2 by lia.
    + rewrite !lookup_ge_None_2; [done| |rewrite length_replicate; lia].
      rewrite length_app, length_replicate, length_map. lia.
Qed.

(** *** Division of a number by itself *)

Lemma float_cases (x : float) :
  x = 0%float ∨ x = (-0)%float ∨ x = infinity ∨ x = neg_infinity ∨ x = nan
  ∨ ∃ s m e, Prim2SF x = S754_finite s m e.
Proof.
  destruct (Prim2SF x) as [[]|[]| |s m e] eqn:Hx; [..|by eauto 10];
    apply (f_equal SF2Prim) in Hx; rewrite SF2Prim_Prim2SF in Hx; subst x; auto 10.
Qed.

Lemma finite_not_zero (x : float) (s : bool) (m : positive) (e : Z) :
  Prim2SF x = S754_finite s m e → is_finite x = true ∧ Js.nonZero x = true.
Proof.
  intros Hx. unfold is_finite, is_nan, is_infinity, Js.nonZero.
  rewrite !FloatAxioms.eqb_spec, abs_spec, Hx.
  change (Prim2SF infinity) with (S754_infinity false).
  change (Prim2SF 0) with (S754_zero false).
  unfold SFeqb. cbn [SFabs SFcompare].
  rewrite Z.compare_refl, Pos.compare_cont_refl. by destruct s.
Qed.

(** [x / x] is 1 for a finite number that is not zero, and NaN otherwise. *)
Lemma nanToZero_div_diag (x : float) :
  Js.nanToZero (x / x) = if is_finite x && Js.nonZero x then 1%float else 0%float.
Proof.
  destruct (float_cases x) as [->|[->|[->|[->|[->|(s & m & e & Hx)]]]]]; try reflexivity.
  rewrite (float_div_diag x s m e Hx).
  by destruct (finite_not_zero x s m e Hx) as [-> ->].
Qed.

(** *** The scores *)

Lemma sum_slice_zeros a b n : Js.sum (Js.slice a b (replicate n 0%float)) = 0%float.
Proof. unfold Js.slice. by rewrite drop_replicate, take_replicate, sum_zeros. Qed.

Lemma imap_replicate_const {X Y} (f : nat → X → Y) (x : X) (c : Y) n :
  (∀ i, i < n → f i x = c) → imap f (replicate n x) = replicate n c.
Proof.
  intros Hf. apply list_eq. intros i. rewrite list_lookup_imap.
  destruct (decide (i < n)) as [Hi|Hi].
  - rewrite !lookup_replicate_2 by done. cbn. by rewrite Hf.
  - by rewrite !(proj1 (lookup_replicate_None _ _ _)) by lia.
Qed.

Lemma scoresFromMatrix_zeros sortedNodes :
  let n := length sortedNodes in
  0 < n →
  (∀ node, node ∈ sortedNodes → feature_type node = "logit"%string →
     is_finite (Js.toNumber (token_prob node)) = true) →
  ∃ completeness,
    scoresFromMatrix sortedNodes (replicate n (replicate n 0%float))
    = Ok {| replacementScore := 0; completenessScore := completeness |}
    ∧ ((∀ node, node ∈ sortedNodes → feature_type node = "logit"%string →
          Js.nonZero (Js.toNumber (token_prob node)) = false) →
       completeness = 0%float).
Proof.
  intros n Hn Hfinite. unfold scoresFromMatrix.
  destruct (logitWeights_Forall (λ w, is_finite w = true) sortedNodes n)
    as [Hlw Hlen]; [done|done|].
  rewrite length_replicate, normalizeMatrix_zeros.
  rewrite computeInfluence_zeros, bind_Ok_l by (done || lia).
  rewrite !sum_slice_zeros.
  eexists. split; [reflexivity|]. intros Hzero.
  destruct (logitWeights_Forall (λ w, w = 0%float ∨ w = (-0)%float) sortedNodes n)
    as [Hlw0 _]; [by left| |].
  { intros node Hin Ht. by apply float_zero_cases, Hzero. }
  rewrite (imap_replicate_const _ _ 0%float).
  - change (map ?f ?l) with (f <$> l). rewrite fmap_replicate, sum_slice_zeros.
    rewrite (imap_replicate_const _ _ 0%float).
    + by rewrite sum_zeros.
    + intros i Hi. by rewrite lookup_replicate_2.
  - intros i Hi.
    destruct (lookup_lt_is_Some_2 (logitWeights sortedNodes n) i) as [w Hw]; [lia|].
    rewrite Hw. by destruct (Forall_lookup_1 _ _ _ _ Hlw0 Hw) as [-> | ->].
Qed.

(** The scores on the zero matrix, with the completeness score in closed
    form. *)
Lemma scoresFromMatrix_zeros_exact sortedNodes :
  let n := length sortedNodes in
  let total :=
    Js.sum (map (λ node, (0 + Js.toNumber (token_prob node))%float)
                (List.filter (hasType "logit") sortedNodes)) in
  0 < n →
  (∀ node, node ∈ sortedNodes → feature_type node = "logit"%string →
     is_finite (Js.toNumber (token_prob node)) = true) →
  scoresFromMatrix sortedNodes (replicate n (replicate n 0%float))
  = Ok {| replacementScore := 0;
          completenessScore := if is_finite total && Js.nonZero total then 1 else 0 |}.
Proof.
  intros n total Hn Hfinite. unfold scoresFromMatrix.
  destruct (logitWeights_Forall (λ w, is_finite w = true) sortedNodes n)
    as [Hlw Hlen]; [done|done|].
  rewrite length_replicate, normalizeMatrix_zeros.
  rewrite computeInfluence_zeros, bind_Ok_l by (done || lia).
  rewrite !sum_slice_zeros. f_equal. f_equal.
  set (W := logitWeights sortedNodes n) in *.
  assert (imap (λ i val, (val + Js.toNumber (W !! i))%float) (replicate n 0%float)
          = map (λ w, (0 + w)%float) W) as ->.
  { apply list_eq. intros i. rewrite list_lookup_imap.
    change (map ?f ?l) with (f <$> l). rewrite list_lookup_fmap.
    destruct (decide (i < n)) as [Hi|Hi].
    - rewrite lookup_replicate_2 by done.
      destruct (lookup_lt_is_Some_2 W i) as [w ->]; [lia|]. done.
    - rewrite (proj1 (lookup_replicate_None _ _ _)) by lia.
      by rewrite lookup_ge_None_2 by lia. }
  assert (imap (λ i fraction,
                  (fraction * Js.toNumber (map (λ w, (0 + w)%float) W !! i))%float)
               (map (λ row, (1 - Js.sum (Js.slice (countType "cross layer transcoder" sortedNodes)
                                           (countType "cross layer transcoder" sortedNodes
                                            + countType "mlp reconstruction error" sortedNodes)
                                           row))%float)
                    (replicate n (replicate n 0%float)))
          = map (λ w, (0 + w)%float) W) as ->.
  { apply list_eq. intros i. rewrite list_lookup_imap.
    change (map ?f ?l) with (f <$> l). rewrite !list_lookup_fmap.
    destruct (decide (i < n)) as [Hi|Hi].
    - rewrite lookup_replicate_2 by done. cbn [fmap option_fmap option_map mbind option_bind].
      destruct (lookup_lt_is_Some_2 W i) as [w ->]; [lia|]. cbn.
      rewrite sum_slice_zeros. change (1 - 0)%float with 1%float.
      by rewrite float_mul_1_l.
    - rewrite (proj1 (lookup_replicate_None _ _ _)) by lia.
      by rewrite lookup_ge_None_2 by lia. }
  rewrite nanToZero_div_diag.
  assert (Js.sum (map (λ w, (0 + w)%float) W) = total) as ->; [|done].
  unfold W, n, total. rewrite logitWeights_app, map_app, map_map.
  unfold Js.sum. rewrite foldl_app.
  change (map ?f ?l) with (f <$> l) at 1. rewrite fmap_replicate.
  change (0 + 0)%float with 0%float. fold (Js.sum (replicate (length sortedNodes - length (List.filter (hasType "logit") sortedNodes)) 0%float)).
  by rewrite sum_zeros.
Qed.

(** C4 (as amended): for a graph without edges whose node list is not empty
    and whose logit nodes have finite token probabilities, and for every
    [pinnedIds], [compute] returns scores with [replacementScore = 0].  The
    [completenessScore] is 1 when the binary64 sum of the token
    probabilities of the logit nodes is finite and not zero, and 0
    otherwise; it is 0 in particular when no logit node has a token
    probability different from zero, as when the graph has no logit node. *)
Theorem no_edges_scores (nodeList : list CLTGraphNode) (pinnedIds : list string) :
  nodeList ≠ [] →
  (∀ node, node ∈ nodeList → feature_type node = "logit"%string →
     is_finite (Js.toNumber (token_prob node)) = true) →
  ∃ completeness,
    computeGraphScoresFromGraphData {| nodes := nodeList; links := [] |} pinnedIds
    = Ok {| replacementScore := 0; completenessScore := completeness |}
    ∧ completeness
      = (if is_finite (logitProbabilitySum nodeList) && Js.nonZero (logitProbabilitySum nodeList)
         then 1%float else 0%float)
    ∧ ((∀ node, node ∈ nodeList → feature_type node = "logit"%string →
          Js.nonZero (Js.toNumber (token_prob node)) = false) →
       completeness = 0%float).
Proof.
  intros Hne Hfinite.
  unfold computeGraphScoresFromGraphData, reconstructAdjacencyMatrix.
  cbn [nodes links forEachM]. rewrite !bind_Ok_l, mergePass_zeros.
  assert (0 < length (sortNodes nodeList)) as Hn.
  { rewrite sortNodes_length. destruct nodeList; [done|]. cbn. lia. }
  assert (∀ node, node ∈ sortNodes nodeList → feature_type node = "logit"%string →
            is_finite (Js.toNumber (token_prob node)) = true) as Hsorted.
  { intros node Hin. apply Hfinite. by rewrite <-(sortNodes_Permutation nodeList). }
  destruct (scoresFromMatrix_zeros (sortNodes nodeList) Hn Hsorted) as (c & Hc & Hzero).
  pose proof (scoresFromMatrix_zeros_exact (sortNodes nodeList) Hn Hsorted) as Hexact.
  rewrite Hc in Hexact. injection Hexact as Hexact.
  exists c. split_and!; [done|exact Hexact|].
  intros Hz. apply Hzero.
  intros node Hin. apply Hz. by rewrite <-(sortNodes_Permutation nodeList).
Qed.

Lemma no_edges_scores_witness :
  computeGraphScoresFromGraphData
    {| nodes := [Scenario.E; Scenario.F; Scenario.R]; links := [] |} ["F"%string]
  = Ok {| replacementScore := 0; completenessScore := 0 |}
  ∧ computeGraphScoresFromGraphData
      {| nodes := [Scenario.E; Scenario.L]; links := [] |} ["F"%string]
    = Ok {| replacementScore := 0; completenessScore := 1 |}.
Proof.
  split.
  - destruct (no_edges_scores [Scenario.E; Scenario.F; Scenario.R] ["F"%string])
      as (completeness & Hscores & _ & Hzero).
    + discriminate.
    + intros node Hin Ht.
      repeat (apply elem_of_cons in Hin as [->|Hin]; [discriminate Ht|]).
      by apply elem_of_nil in Hin.
    + rewrite Hscores, Hzero; [reflexivity|].
      intros node Hin Ht.
      repeat (apply elem_of_cons in Hin as [->|Hin]; [discriminate Ht|]).
      by apply elem_of_nil in Hin.
  - destruct (no_edges_scores [Scenario.E; Scenario.L] ["F"%string])
      as (completeness & Hscores & Hsum & _).
    + discriminate.
    + intros node Hin Ht.
      repeat (apply elem_of_cons in Hin as [->|Hin]; [try discriminate Ht; reflexivity|]).
      by apply elem_of_nil in Hin.
    + rewrite Hscores, Hsum. reflexivity.
Defined.

(** C4 (counterexample): one logit node with token probability 1 and no
    edge.  The replacement score is 0, the completeness score is 1.  (When
    the logit node has no token probability the weight is NaN and the
    influence loop does not converge.) *)
Lemma no_edges_completeness_one :
  computeGraphScoresFromGraphData {| nodes := [Scenario.L]; links := [] |} []
  = Ok {| replacementScore := 0; completenessScore := 1 |}
  ∧ (1 =? 0)%float = false
  ∧ computeGraphScoresFromGraphData
      {| nodes := [{| node_id := "L"; feature_type := "logit"; layer := "3"; ctx_idx := 0;
                      feature := None; token_prob := None |}];
         links := [] |} []
    = Throw (Error (convergenceMessage 1000)).
Proof. split_and!; by vm_compute. Qed.

(** Token probabilities different from zero can give the completeness score
    0 as well: 1 and -1 sum to zero, and 2^1023 twice sums to infinity. *)
Lemma no_edges_completeness_zero :
  let logit (id : string) (p : float) :=
    {| node_id := id; feature_type := "logit"; layer := "3"; ctx_idx := 0;
       feature := None; token_prob := Some p |} in
  computeGraphScoresFromGraphData
    {| nodes := [logit "L1" 1%float; logit "L2" (-1)%float]; links := [] |} []
  = Ok {| replacementScore := 0; completenessScore := 0 |}
  ∧ computeGraphScoresFromGraphData
      {| nodes := [logit "L1" 0x1p1023%float; logit "L2" 0x1p1023%float]; links := [] |} []
    = Ok {| replacementScore := 0; completenessScore := 0 |}.
Proof. split; by vm_compute. Qed.

(** ** Which exceptions [compute] can throw *)

Lemma dotColumn_square n A j (v : list float) i acc :
  square n A → i + length v ≤ n → ∃ x, dotColumn A j i v acc = Ok x.
Proof.
  intros HA. revert i acc. induction v as [|w v IH]; intros i acc Hi; cbn [dotColumn]; [eauto|].
  cbn [length] in Hi. unfold entry.
  destruct (square_lookup n A i HA) as (row & -> & _); [lia|].
  rewrite bind_Ok_l. apply IH. lia.
Qed.

Lemma traverse_Ok {X Y} (f : X → Result Y) (l : list X) :
  (∀ x, x ∈ l → ∃ y, f x = Ok y) → ∃ ys, traverse f l = Ok ys ∧ length ys = length l.
Proof.
  induction l as [|x l IH]; intros Hf; cbn [traverse]; [by exists []|].
  destruct (Hf x) as [y ->]; [by left|].
  destruct IH as (ys & -> & Hlen); [intros z Hz; apply Hf; by right|].
  exists (y :: ys). split; [done|]. cbn. by rewrite Hlen.
Qed.

Lemma propagate_square n A (v : list float) :
  square n A → length v ≤ n → ∃ r, propagate A n v = Ok r ∧ length r = n.
Proof.
  intros HA Hv. unfold propagate.
  destruct (traverse_Ok (λ j, dotColumn A j 0 v 0%float) (seq 0 n)) as (r & Hr & Hlen).
  - intros j _. by apply (dotColumn_square n).
  - exists r. split; [done|]. by rewrite Hlen, length_seq.
Qed.

Lemma influenceLoop_square n A maxIter fuel :
  ∀ iterations cur influence,
    square n A → length cur = n →
    iterations ≤ maxIter → maxIter - iterations ≤ fuel →
    (∃ r, influenceLoop A n maxIter fuel iterations cur influence = Ok r)
    ∨ influenceLoop A n maxIter fuel iterations cur influence
      = Throw (Error (convergenceMessage maxIter)).
Proof.
  induction fuel as [|fuel IH]; intros iterations cur influence HA Hcur Hle Hfuel;
    cbn [influenceLoop]; destruct (someNonZero cur); eauto;
    destruct (maxIter <=? iterations) eqn:Hcmp.
  - apply Nat.leb_le in Hcmp. right. by replace iterations with maxIter by lia.
  - apply Nat.leb_gt in Hcmp. lia.
  - apply Nat.leb_le in Hcmp. right. by replace iterations with maxIter by lia.
  - apply Nat.leb_gt in Hcmp.
    destruct (propagate_square n A cur HA) as (new & -> & Hnew); [lia|].
    rewrite bind_Ok_l. apply IH; [done|done|lia|lia].
Qed.

Lemma computeInfluence_square n A (logitWeights : list float) :
  0 < n → square n A → length logitWeights = n →
  (∃ r, computeInfluence A logitWeights = Ok r) ∨
  computeInfluence A logitWeights = Throw (Error (convergenceMessage 1000)).
Proof.
  intros Hn HA Hw. unfold computeInfluence, computeInfluenceWith.
  destruct (square_lookup n A 0 HA Hn) as (row0 & -> & ->).
  destruct (propagate_square n A logitWeights HA) as (seed & -> & Hseed); [lia|].
  rewrite bind_Ok_l. apply (influenceLoop_square n); [done|done|lia|lia].
Qed.

Lemma addEdge_Ok idx edge M :
  target edge ∉ Dict.objectPrototypeKeys → ∃ M', addEdge idx edge M = Ok M'.
Proof.
  intros Htarget. unfold addEdge.
  destruct (Dict.get idx (target edge)) eqn:Hdst;
    destruct (Dict.get idx (source edge)); eauto.
  all: unfold Dict.get in Hdst; destruct (idx !! target edge); [discriminate|];
    by case_decide.
Qed.

Lemma forEachM_addEdge_Ok n idx edges M :
  square n M →
  (∀ edge, edge ∈ edges → target edge ∉ Dict.objectPrototypeKeys) →
  ∃ A, forEachM (addEdge idx) edges M = Ok A ∧ square n A.
Proof.
  revert M. induction edges as [|edge edges IH]; intros M HM Hedges; cbn [forEachM]; [eauto|].
  destruct (addEdge_Ok idx edge M) as [M' HM']; [apply Hedges; by left|].
  rewrite HM', bind_Ok_l. apply IH.
  - by eapply square_addEdge.
  - intros e He. apply Hedges. by right.
Qed.

Lemma square_forEachFrom_mergeNode n pinnedSet table (l : list CLTGraphNode) i M :
  square n M → square n (forEachFrom (mergeNode pinnedSet table) i l M).
Proof.
  revert i M. induction l as [|node l IH]; intros i M HM; cbn [forEachFrom]; [done|].
  apply IH. unfold mergeNode. repeat case_decide; try done.
  destruct (Dict.get table (mergeKey node));
    auto using square_zeroRowAndColumn, square_mergeColumn.
Qed.

Lemma square_mergePass n sortedNodes pinnedIds M :
  square n M → square n (mergePass sortedNodes pinnedIds M).
Proof.
  intros HM. unfold mergePass. destruct (0 <? length pinnedIds); [|done].
  by apply square_forEachFrom_mergeNode.
Qed.

Lemma square_normalizeMatrix n (M : matrix) : square n M → square n (normalizeMatrix M).
Proof.
  unfold normalizeMatrix. change (map ?f ?l) with (f <$> l).
  apply square_fmap. intros row. unfold normalizeRow. by rewrite !length_map.
Qed.

(** On a graph with at least one node, none of whose edges has a target
    named like a property every object inherits, [compute] returns scores or
    throws the convergence failure, and nothing else. *)
Lemma compute_scores_or_convergence_failure
    (nodeList : list CLTGraphNode) (edges : list CLTGraphLink) (pinnedIds : list string) :
  nodeList ≠ [] →
  (∀ edge, edge ∈ edges → target edge ∉ Dict.objectPrototypeKeys) →
  (∃ r, computeGraphScoresFromGraphData {| nodes := nodeList; links := edges |} pinnedIds = Ok r)
  ∨ computeGraphScoresFromGraphData {| nodes := nodeList; links := edges |} pinnedIds
    = Throw (Error (convergenceMessage 1000)).
Proof.
  intros Hne Hedges.
  unfold computeGraphScoresFromGraphData, reconstructAdjacencyMatrix. cbn [nodes links].
  set (n := length (sortNodes nodeList)).
  assert (0 < n) as Hn.
  { unfold n. rewrite sortNodes_length. destruct nodeList; [done|]. cbn. lia. }
  destruct (forEachM_addEdge_Ok n (nodeIdToIdx (sortNodes nodeList)) edges
              (replicate n (replicate n 0%float))) as (A & -> & HA);
    [apply square_replicate|done|].
  rewrite !bind_Ok_l. unfold scoresFromMatrix.
  pose proof (square_mergePass n (sortNodes nodeList) pinnedIds A HA) as HM.
  destruct (computeInfluence_square n
              (normalizeMatrix (mergePass (sortNodes nodeList) pinnedIds A))
              (logitWeights (sortNodes nodeList)
                 (length (mergePass (sortNodes nodeList) pinnedIds A))))
    as [[r ->]| ->]; [done|by apply square_normalizeMatrix| |left; eauto|by right].
  rewrite (square_length n _ HM).
  by destruct (logitWeights_Forall (λ _, True) (sortNodes nodeList) n).
Qed.

(** * Further properties of the worker *)

(** ** The comparator and the canonical order *)

(** X1: The comparator of [reconstructAdjacencyMatrix] is a consistent ordering,
    as [Array.prototype.sort] asks: a node compares equal to itself,
    exchanging the arguments negates the result, and the order is
    transitive. *)
Theorem comparator_consistent :
  (∀ a, compareNodes a a = 0%Z)
  ∧ (∀ a b, compareNodes b a = (- compareNodes a b)%Z)
  ∧ (∀ a b c, (compareNodes a b ≤ 0)%Z → (compareNodes b c ≤ 0)%Z → (compareNodes a c ≤ 0)%Z).
Proof.
  split_and!.
  - intros a. rewrite compareNodes_unfold. cbn [compareKeys]. repeat case_decide; lia.
  - intros a b. rewrite !compareNodes_unfold. cbn [compareKeys]. repeat case_decide; lia.
  - intros a b c. apply notAfter_trans.
Qed.

Lemma typePriority_le_4 node : typePriority node ≤ 4.
Proof.
  unfold typePriority.
  destruct (list_find _ featureTypeOrder) as [[i t]|] eqn:Hfind; [|done].
  apply list_find_Some in Hfind as (Hi%lookup_lt_Some & _). cbn in Hi. lia.
Qed.

Lemma typePriority_lookup node k :
  k < 4 → typePriority node = k ↔ featureTypeOrder !! k = Some (feature_type node).
Proof.
  intros Hk. unfold typePriority.
  destruct (list_find _ featureTypeOrder) as [[i t]|] eqn:Hfind.
  - apply list_find_Some in Hfind as (Hi & -> & Hfirst). split; [by intros <-|].
    intros Hk'. destruct (Nat.lt_trichotomy i k) as [Hlt|[->|Hgt]]; [|done|].
    + exfalso. assert (NoDup featureTypeOrder) as Hnd by (by apply (bool_decide_unpack _)).
      pose proof (NoDup_lookup _ _ _ _ Hnd Hi Hk'). lia.
    + by destruct (Hfirst k (feature_type node) Hk' Hgt).
  - split; [cbn; lia|]. intros Hk'.
    apply list_find_None in Hfind. apply list_elem_of_lookup_2 in Hk'.
    by destruct (proj1 (Forall_forall _ _) Hfind _ Hk').
Qed.

Lemma typePriority_unknown node :
  typePriority node = 4 ↔ feature_type node ∉ featureTypeOrder.
Proof.
  unfold typePriority.
  destruct (list_find _ featureTypeOrder) as [[i t]|] eqn:Hfind.
  - apply list_find_Some in Hfind as (Hi & -> & _). split.
    + intros ->. apply lookup_lt_Some in Hi. cbn in Hi. lia.
    + intros Hnot. by apply list_elem_of_lookup_2 in Hi.
  - split; [|done]. intros _ Hin. apply list_find_None in Hfind.
    by destruct (proj1 (Forall_forall _ _) Hfind _ Hin).
Qed.

Lemma notAfter_typePriority a b : notAfter a b → typePriority a ≤ typePriority b.
Proof.
  unfold notAfter. rewrite compareNodes_unfold. cbn [compareKeys].
  repeat case_decide; lia.
Qed.

Lemma filter_none {X} (f : X → bool) (l : list X) :
  Forall (λ x, f x = false) l → List.filter f l = [].
Proof. induction 1 as [|x l Hx _ IH]; [done|]. cbn. by rewrite Hx. Qed.

Lemma filter_ext_bool {X} (f g : X → bool) (l : list X) :
  (∀ x, f x = g x) → List.filter f l = List.filter g l.
Proof. intros Hfg. induction l as [|x l IH]; [done|]. cbn. by rewrite Hfg, IH. Qed.

Lemma sortNodes_StronglySorted nodeList : StronglySorted notAfter (sortNodes nodeList).
Proof.
  apply Sorted.Sorted_StronglySorted; [apply notAfter_trans|apply sortNodes_Sorted].
Qed.

(** A list in canonical order is the concatenation of its five blocks. *)
Lemma sorted_blocks (l : list CLTGraphNode) :
  StronglySorted notAfter l →
  l = List.filter (λ a, typePriority a =? 0) l
      ++ List.filter (λ a, typePriority a =? 1) l
      ++ List.filter (λ a, typePriority a =? 2) l
      ++ List.filter (λ a, typePriority a =? 3) l
      ++ List.filter (λ a, typePriority a =? 4) l.
Proof.
  induction 1 as [|a l Hl IH Ha]; [done|].
  assert (∀ j, j < typePriority a → List.filter (λ b, typePriority b =? j) l = []) as Hnone.
  { intros j Hj. apply filter_none. eapply Forall_impl; [exact Ha|].
    intros b Hb%notAfter_typePriority. cbn. apply Nat.eqb_neq. lia. }
  pose proof (typePriority_le_4 a) as Hle.
  cbn [List.filter].
  destruct (typePriority a) as [|[|[|[|[|k]]]]] eqn:Hk; try lia; cbn [Nat.eqb];
    rewrite ?Hnone by lia; cbn [app]; f_equal;
    (etransitivity; [exact IH|]); by rewrite ?Hnone by lia.
Qed.

Lemma hasType_typePriority k t node :
  k < 4 → featureTypeOrder !! k = Some t →
  hasType t node = (typePriority node =? k).
Proof.
  intros Hk Ht. unfold hasType.
  destruct (typePriority node =? k) eqn:Hp.
  - apply Nat.eqb_eq, typePriority_lookup in Hp; [|done].
    apply bool_decide_eq_true. congruence.
  - apply bool_decide_eq_false. intros <-. apply Nat.eqb_neq in Hp.
    apply Hp. by apply typePriority_lookup.
Qed.

Lemma countType_priority k t l :
  k < 4 → featureTypeOrder !! k = Some t →
  countType t l = length (List.filter (λ a, typePriority a =? k) l).
Proof.
  intros Hk Ht. unfold countType. f_equal. apply filter_ext_bool.
  intros node. by apply hasType_typePriority.
Qed.

Lemma filter_priority_elem k (l : list CLTGraphNode) i node :
  List.filter (λ a, typePriority a =? k) l !! i = Some node → typePriority node = k.
Proof.
  intros Hin%list_elem_of_lookup_2%list_elem_of_In%filter_In.
  destruct Hin as [_ Hk]. by apply Nat.eqb_eq in Hk.
Qed.

Lemma sorted_block_index (nodeList : list CLTGraphNode) (i : nat) (node : CLTGraphNode) :
  let sortedNodes := sortNodes nodeList in
  let nFeatures := countType "cross layer transcoder" sortedNodes in
  let errorEnd := nFeatures + countType "mlp reconstruction error" sortedNodes in
  let tokenEnd := errorEnd + countType "embedding" sortedNodes in
  let nLogits := countType "logit" sortedNodes in
  sortedNodes !! i = Some node →
  (feature_type node = "cross layer transcoder"%string ↔ i < nFeatures)
  ∧ (feature_type node = "mlp reconstruction error"%string ↔ nFeatures ≤ i < errorEnd)
  ∧ (feature_type node = "embedding"%string ↔ errorEnd ≤ i < tokenEnd)
  ∧ (feature_type node = "logit"%string ↔ tokenEnd ≤ i < tokenEnd + nLogits).
Proof.
  intros l nF errorEnd tokenEnd nLogits Hi.
  pose proof (sorted_blocks l) as Hdec.
  unfold nLogits, tokenEnd, errorEnd, nF.
  rewrite (countType_priority 0 "cross layer transcoder"),
    (countType_priority 1 "mlp reconstruction error"),
    (countType_priority 2 "embedding"), (countType_priority 3 "logit") by (done || lia).
  assert (∀ k t, k < 4 → featureTypeOrder !! k = Some t →
            feature_type node = t ↔ typePriority node = k) as Htype.
  { intros k t Hk Ht. rewrite (typePriority_lookup node k Hk). split; congruence. }
  rewrite (Htype 0), (Htype 1), (Htype 2), (Htype 3) by (done || lia).
  rewrite Hdec in Hi by apply sortNodes_StronglySorted.
  repeat (apply lookup_app_Some in Hi as [Hi|[? Hi]]);
    pose proof (lookup_lt_Some _ _ _ Hi); apply filter_priority_elem in Hi; lia.
Qed.

(** X3: The counts that [computeGraphScoresFromGraphData] derives from
    [sortedNodes] are the boundaries of the blocks of the canonical order:
    the node at index [i] is a feature node exactly when [i < nFeatures], an
    error node exactly when [errorStart <= i < errorEnd], an embedding node
    exactly when [errorEnd <= i < tokenEnd], and a logit node exactly when
    [tokenEnd <= i < tokenEnd + nLogits]. *)
Theorem canonical_order_blocks (nodeList : list CLTGraphNode) (i : nat) (node : CLTGraphNode) :
  let sortedNodes := sortNodes nodeList in
  let nFeatures := countType "cross layer transcoder" sortedNodes in
  let errorEnd := nFeatures + countType "mlp reconstruction error" sortedNodes in
  let tokenEnd := errorEnd + countType "embedding" sortedNodes in
  let nLogits := countType "logit" sortedNodes in
  sortedNodes !! i = Some node →
  (feature_type node = "cross layer transcoder"%string ↔ i < nFeatures)
  ∧ (feature_type node = "mlp reconstruction error"%string ↔ nFeatures ≤ i < errorEnd)
  ∧ (feature_type node = "embedding"%string ↔ errorEnd ≤ i < tokenEnd)
  ∧ (feature_type node = "logit"%string ↔ tokenEnd ≤ i < tokenEnd + nLogits).
Proof. apply sorted_block_index. Qed.

Lemma canonical_order_blocks_witness :
  let sortedNodes := sortNodes (nodes Scenario.graph) in
  sortedNodes !! 1 = Some Scenario.R
  ∧ (feature_type Scenario.R = "mlp reconstruction error"%string ↔ 1 ≤ 1 < 1 + 1).
Proof.
  split; [reflexivity|].
  destruct (canonical_order_blocks (nodes Scenario.graph) 1 Scenario.R) as (_ & Herr & _).
  - reflexivity.
  - exact Herr.
Defined.

(** ** The logit weights *)

Lemma logitWeights_sorted (nodeList : list CLTGraphNode) (i : nat) (node : CLTGraphNode) :
  let sortedNodes := sortNodes nodeList in
  (∀ other, other ∈ nodeList → feature_type other ∈ featureTypeOrder) →
  sortedNodes !! i = Some node →
  logitWeights sortedNodes (length sortedNodes) !! i
  = Some (if hasType "logit" node then Js.toNumber (token_prob node) else 0%float).
Proof.
  intros l Hknown Hi.
  pose proof (sorted_blocks l (sortNodes_StronglySorted nodeList)) as Hdec.
  assert (List.filter (λ a, typePriority a =? 4) l = []) as Hnone.
  { apply filter_none, Forall_forall. intros other Hin. apply Nat.eqb_neq.
    intros Hp%typePriority_unknown. apply Hp, Hknown.
    by rewrite <-(sortNodes_Permutation nodeList). }
  rewrite Hnone, app_nil_r in Hdec.
  assert (List.filter (hasType "logit") l = List.filter (λ a, typePriority a =? 3) l) as Hlogit.
  { apply filter_ext_bool. intros a. apply hasType_typePriority; [lia|done]. }
  rewrite logitWeights_lookup, Hlogit.
  rewrite (countType_priority 3 "logit") by (done || lia).
  assert (length l
          = length (List.filter (λ a, typePriority a =? 0) l)
            + length (List.filter (λ a, typePriority a =? 1) l)
            + length (List.filter (λ a, typePriority a =? 2) l)
            + length (List.filter (λ a, typePriority a =? 3) l)) as Hlen.
  { rewrite Hdec at 1. rewrite !length_app. lia. }
  pose proof (lookup_lt_Some _ _ _ Hi) as Hlt.
  rewrite Hdec in Hi.
  repeat (apply lookup_app_Some in Hi as [Hi|[? Hi]]).
  1-3: pose proof (lookup_lt_Some _ _ _ Hi); apply filter_priority_elem in Hi;
    rewrite (hasType_typePriority 3 "logit") by (done || lia);
    rewrite Hi; cbn [Nat.eqb]; rewrite decide_False by lia;
    by rewrite lookup_replicate_2.
  pose proof (lookup_lt_Some _ _ _ Hi). rewrite decide_True by lia.
  change (map token_prob ?x) with (token_prob <$> x). rewrite list_lookup_fmap.
  replace (i - (length l - length (List.filter (λ a, typePriority a =? 3) l)))
    with (i - length (List.filter (λ a, typePriority a =? 0) l)
          - length (List.filter (λ a, typePriority a =? 1) l)
          - length (List.filter (λ a, typePriority a =? 2) l)) by lia.
  rewrite Hi. cbn. apply filter_priority_elem in Hi.
  by rewrite (hasType_typePriority 3 "logit"), Hi by (done || lia).
Qed.

(** X4: When every node has one of the four known types, [logitWeights] is
    aligned with [sortedNodes]: the weight at the index of a logit node is
    that node's [token_prob] (NaN when it has none), and the weight at the
    index of any other node is zero. *)
Theorem logitWeights_aligned (nodeList : list CLTGraphNode) (i : nat) (node : CLTGraphNode) :
  let sortedNodes := sortNodes nodeList in
  (∀ other, other ∈ nodeList → feature_type other ∈ featureTypeOrder) →
  sortedNodes !! i = Some node →
  logitWeights sortedNodes (length sortedNodes) !! i
  = Some (if hasType "logit" node then Js.toNumber (token_prob node) else 0%float).
Proof. apply logitWeights_sorted. Qed.

Lemma logitWeights_aligned_witness :
  logitWeights (sortNodes (nodes Scenario.graph)) 4 !! 3 = Some 1%float.
Proof.
  apply (logitWeights_aligned (nodes Scenario.graph) 3 Scenario.L).
  - intros other Hin. cbn in Hin.
    repeat (apply elem_of_cons in Hin as [->|Hin]; [by apply (bool_decide_unpack _)|]).
    by apply elem_of_nil in Hin.
  - reflexivity.
Defined.

(** ** The sort *)

Lemma StronglySorted_lookup_lt {X} (R : X → X → Prop) (l : list X) i j a b :
  StronglySorted R l → i < j → l !! i = Some a → l !! j = Some b → R a b.
Proof.
  intros Hl Hij Hi Hj. rewrite <-(take_drop j l) in Hl.
  apply (StronglySorted_app_1_elem_of _ _ _ _ _ Hl).
  - apply list_elem_of_lookup. exists i. by rewrite lookup_take_lt.
  - apply list_elem_of_lookup. exists 0. by rewrite lookup_drop, Nat.add_0_r.
Qed.

Lemma tied_apart x a b :
  tied x a = true → tied x b = true → ¬ (0 < compareNodes a b)%Z.
Proof.
  unfold tied. intros Ha%bool_decide_eq_true Hb%bool_decide_eq_true. revert Ha Hb.
  rewrite !compareNodes_unfold. cbn [compareKeys]. repeat case_decide; lia.
Qed.

Lemma filter_tied_insertNode x a l :
  List.filter (tied x) (insertNode a l) = List.filter (tied x) (a :: l).
Proof.
  induction l as [|b l IH]; [done|]. cbn [insertNode].
  destruct (0 <? compareNodes a b)%Z eqn:Hab; [|done].
  apply Z.ltb_lt in Hab. cbn [List.filter] in *. rewrite IH.
  destruct (tied x a) eqn:Ha, (tied x b) eqn:Hb; try done.
  by destruct (tied_apart x a b).
Qed.

Lemma filter_tied_sortNodes x l :
  List.filter (tied x) (sortNodes l) = List.filter (tied x) l.
Proof.
  induction l as [|a l IH]; [done|]. cbn [sortNodes foldr]. fold (sortNodes l).
  rewrite filter_tied_insertNode. cbn [List.filter]. by rewrite IH.
Qed.

(** X2: The canonical order is the stable sort of the node list by the sort
    key: it holds the same nodes, a node never stands before one that the
    comparator puts first, and the nodes with equal keys stand in the order
    of the input. *)
Theorem canonical_order_stable_sort (nodeList : list CLTGraphNode) :
  sortNodes nodeList ≡ₚ nodeList
  ∧ (∀ i j a b, i < j →
       sortNodes nodeList !! i = Some a → sortNodes nodeList !! j = Some b →
       (compareNodes a b ≤ 0)%Z)
  ∧ (∀ x, List.filter (tied x) (sortNodes nodeList) = List.filter (tied x) nodeList).
Proof.
  split_and!.
  - apply sortNodes_Permutation.
  - intros i j a b. apply (StronglySorted_lookup_lt notAfter), sortNodes_StronglySorted.
  - intros x. apply filter_tied_sortNodes.
Qed.

(** ** Node identifiers, edges and the matrix *)

(** The dictionary holds, for each identifier other than [__proto__], the
    highest index of a node that carries it. *)
Lemma nodeIdToIdx_lookup l key :
  match nodeIdToIdx l !! key with
  | Some i =>
      key ≠ "__proto__"%string
      ∧ (∃ node, l !! i = Some node ∧ node_id node = key)
      ∧ ∀ j other, l !! j = Some other → node_id other = key → j ≤ i
  | None =>
      key = "__proto__"%string ∨ ∀ j other, l !! j = Some other → node_id other ≠ key
  end.
Proof.
  induction l as [|node l IH] using rev_ind.
  - unfold nodeIdToIdx, forEach. cbn [forEachFrom]. rewrite lookup_empty.
    right. intros j other Hj. by rewrite lookup_nil in Hj.
  - rewrite nodeIdToIdx_snoc. unfold Dict.set.
    assert (∀ j other, (l ++ [node]) !! j = Some other →
              l !! j = Some other ∨ (j = length l ∧ other = node)) as Hsnoc.
    { intros j other [Hj|[Hlen Hj]]%lookup_app_Some; [by left|right].
      apply list_lookup_singleton_Some in Hj as [Hz <-]. split; [lia|done]. }
    destruct (decide (node_id node = key)) as [Hk|Hk].
    + case_decide as Hp.
      * assert (nodeIdToIdx l !! key = None) as ->.
        { destruct (nodeIdToIdx l !! key) eqn:Hl; [|done].
          destruct IH as [Hne _]. congruence. }
        left. congruence.
      * rewrite Hk, lookup_insert_eq. split_and!.
        -- congruence.
        -- exists node. split; [|done]. rewrite lookup_app_r by done. by rewrite Nat.sub_diag.
        -- intros j other Hj%lookup_lt_Some _. rewrite length_app in Hj. cbn in Hj. lia.
    + assert ((if decide (node_id node = "__proto__"%string)
               then nodeIdToIdx l else <[node_id node := length l]> (nodeIdToIdx l)) !! key
              = nodeIdToIdx l !! key) as ->.
      { case_decide; [done|]. by rewrite lookup_insert_ne. }
      destruct (nodeIdToIdx l !! key) as [i|].
      * destruct IH as (Hne & (n & Hn & Hnk) & Hmax). split_and!; [done| |].
        -- exists n. split; [by apply lookup_app_l_Some|done].
        -- intros j other [Hj|[_ ->]]%Hsnoc Hid; [by eapply Hmax|done].
      * destruct IH as [->|IH]; [by left|right].
        intros j other [Hj|[_ ->]]%Hsnoc; [by eapply IH|done].
Qed.

Lemma nodeIdToIdx_unique l i node :
  NoDup (node_id <$> l) →
  l !! i = Some node →
  node_id node ≠ "__proto__"%string →
  nodeIdToIdx l !! node_id node = Some i.
Proof.
  intros Hnd Hi Hp. pose proof (nodeIdToIdx_lookup l (node_id node)) as Hl.
  destruct (nodeIdToIdx l !! node_id node) as [j|].
  - destruct Hl as (_ & (other & Hj & Hid) & _). f_equal.
    eapply (NoDup_lookup _ _ _ _ Hnd).
    + by rewrite list_lookup_fmap, Hj; cbn; rewrite Hid.
    + by rewrite list_lookup_fmap, Hi.
  - destruct Hl as [?|Hl]; [done|]. by destruct (Hl i node Hi).
Qed.

(** X5: When the nodes of a graph have pairwise distinct identifiers, the
    identifier of each node of [sortedNodes], unless it is [__proto__],
    resolves to the index of that node; a string that is the identifier of
    no node resolves to [undefined], or to an inherited property when it is
    the name of one. *)
Theorem nodeIdToIdx_roundtrip (nodeList : list CLTGraphNode) :
  let sortedNodes := sortNodes nodeList in
  NoDup (node_id <$> nodeList) →
  (∀ i node, sortedNodes !! i = Some node → node_id node ≠ "__proto__"%string →
     Dict.get (nodeIdToIdx sortedNodes) (node_id node) = Dict.Index i)
  ∧ (∀ key, (∀ node, node ∈ nodeList → node_id node ≠ key) →
       Dict.get (nodeIdToIdx sortedNodes) key
       = if decide (key ∈ Dict.objectPrototypeKeys) then Dict.Inherited else Dict.Undefined).
Proof.
  intros l Hnd. split.
  - intros i node Hi Hp. apply Dict_get_Index, nodeIdToIdx_unique; [|done..].
    unfold l. by rewrite (sortNodes_Permutation nodeList).
  - intros key Hkey. unfold Dict.get.
    pose proof (nodeIdToIdx_lookup l key) as Hl.
    destruct (nodeIdToIdx l !! key) as [i|]; [|done].
    destruct Hl as (_ & (node & Hi & Hid) & _).
    destruct (Hkey node); [|done].
    rewrite <-(sortNodes_Permutation nodeList). by eapply list_elem_of_lookup_2.
Qed.

Lemma nodeIdToIdx_roundtrip_witness :
  Dict.get (nodeIdToIdx (sortNodes (nodes Scenario.graph))) "R" = Dict.Index 1
  ∧ Dict.get (nodeIdToIdx (sortNodes (nodes Scenario.graph))) "toString" = Dict.Inherited
  ∧ Dict.get (nodeIdToIdx (sortNodes (nodes Scenario.graph))) "Z" = Dict.Undefined.
Proof.
  destruct (nodeIdToIdx_roundtrip (nodes Scenario.graph)) as [Hnode Hother].
  - by apply (bool_decide_unpack _).
  - split_and!.
    + by apply (Hnode 1 Scenario.R).
    + apply (Hother "toString"%string). intros node Hin. cbn in Hin.
      repeat (apply elem_of_cons in Hin as [->|Hin]; [discriminate|]).
      by apply elem_of_nil in Hin.
    + apply (Hother "Z"%string). intros node Hin. cbn in Hin.
      repeat (apply elem_of_cons in Hin as [->|Hin]; [discriminate|]).
      by apply elem_of_nil in Hin.
Defined.

Lemma nodeIdToIdx_absent l key :
  (∀ node, node ∈ l → node_id node ≠ key) → nodeIdToIdx l !! key = None.
Proof.
  intros Hkey. pose proof (nodeIdToIdx_lookup l key) as Hl.
  destruct (nodeIdToIdx l !! key) as [i|]; [|done].
  destruct Hl as (_ & (node & Hi & Hid) & _).
  destruct (Hkey node); [|done]. by eapply list_elem_of_lookup_2.
Qed.

Lemma forEachM_app {X St} (f : X → St → Result St) (l1 l2 : list X) (s : St) :
  forEachM f (l1 ++ l2) s = forEachM f l1 s ≫= forEachM f l2.
Proof.
  revert s. induction l1 as [|x l1 IH]; intros s; cbn [forEachM app]; [done|].
  destruct (f x s) as [s'|e]; [|done]. rewrite !bind_Ok_l. apply IH.
Qed.

Lemma addEdge_unresolved idx edge M :
  Dict.get idx (source edge) = Dict.Undefined ∨ Dict.get idx (target edge) = Dict.Undefined →
  addEdge idx edge M = Ok M.
Proof.
  unfold addEdge. intros [Hsrc|Hdst]; [by rewrite Hsrc|rewrite Hdst].
  by destruct (Dict.get idx (source edge)).
Qed.

(** X6: An edge one of whose ends is the identifier of no node, and not the name
    of an inherited property either, is dropped: the result of
    [reconstructAdjacencyMatrix] is the one without that edge, wherever the
    edge stands in the list. *)
Theorem unknown_edge_dropped
    (nodeList : list CLTGraphNode) (before after : list CLTGraphLink) (edge : CLTGraphLink) :
  (∃ key, (key = source edge ∨ key = target edge)
          ∧ (key ∉ Dict.objectPrototypeKeys)
          ∧ (∀ node, node ∈ nodeList → node_id node ≠ key)) →
  reconstructAdjacencyMatrix nodeList (before ++ edge :: after)
  = reconstructAdjacencyMatrix nodeList (before ++ after).
Proof.
  intros (key & Hend & Hproto & Hkey).
  assert (Dict.get (nodeIdToIdx (sortNodes nodeList)) key = Dict.Undefined) as Hget.
  { unfold Dict.get. rewrite nodeIdToIdx_absent; [by rewrite decide_False|].
    intros node Hin. apply Hkey. by rewrite <-(sortNodes_Permutation nodeList). }
  unfold reconstructAdjacencyMatrix. rewrite !forEachM_app.
  destruct (forEachM _ before _) as [M|e]; [|done]. rewrite !bind_Ok_l.
  cbn [forEachM]. rewrite addEdge_unresolved; [done|].
  destruct Hend as [<- | <-]; auto.
Qed.

Lemma unknown_edge_dropped_witness :
  reconstructAdjacencyMatrix (nodes Scenario.graph)
    ([Scenario.edge "E" "F" 2] ++ Scenario.edge "E" "nowhere" 5 :: [Scenario.edge "F" "L" 1])
  = reconstructAdjacencyMatrix (nodes Scenario.graph)
      ([Scenario.edge "E" "F" 2] ++ [Scenario.edge "F" "L" 1]).
Proof.
  apply unknown_edge_dropped. exists "nowhere"%string. split_and!.
  - by right.
  - by apply (bool_decide_unpack _).
  - intros node Hin. cbn in Hin.
    repeat (apply elem_of_cons in Hin as [->|Hin]; [discriminate|]).
    by apply elem_of_nil in Hin.
Defined.

(** *** The order of the edges *)

Lemma addEdge_Throw idx edge M e :
  addEdge idx edge M = Throw e → e = TypeError ∧ edgeThrows idx edge.
Proof.
  unfold addEdge, edgeThrows.
  destruct (Dict.get idx (source edge)), (Dict.get idx (target edge));
    intros [= <-]; done.
Qed.

Lemma addEdge_edgeThrows idx edge M :
  edgeThrows idx edge → addEdge idx edge M = Throw TypeError.
Proof.
  unfold addEdge, edgeThrows. intros [Hsrc ->].
  by destruct (Dict.get idx (source edge)).
Qed.

Lemma forEachM_addEdge_Throw idx edges M e :
  forEachM (addEdge idx) edges M = Throw e →
  e = TypeError ∧ ∃ edge, edge ∈ edges ∧ edgeThrows idx edge.
Proof.
  revert M. induction edges as [|edge edges IH]; intros M; cbn [forEachM]; [discriminate|].
  destruct (addEdge idx edge M) as [M'|e'] eqn:Hedge.
  - rewrite bind_Ok_l. intros (-> & edge' & Hin & Hthrows)%IH.
    split; [done|]. exists edge'. split; [by right|done].
  - intros [= <-]. apply addEdge_Throw in Hedge as [-> Hthrows].
    split; [done|]. exists edge. split; [by left|done].
Qed.

Lemma forEachM_addEdge_edgeThrows idx edges M edge :
  edge ∈ edges → edgeThrows idx edge →
  forEachM (addEdge idx) edges M = Throw TypeError.
Proof.
  intros Hin Hthrows. revert M.
  induction edges as [|edge' edges IH]; intros M; [by apply elem_of_nil in Hin|].
  cbn [forEachM]. destruct (addEdge idx edge' M) as [M'|e] eqn:Hedge.
  - rewrite bind_Ok_l. apply elem_of_cons in Hin as [->|Hin]; [|by apply IH].
    by rewrite addEdge_edgeThrows in Hedge.
  - by apply addEdge_Throw in Hedge as [-> _].
Qed.

Lemma forEachM_addEdge_square n idx edges M A :
  square n M → forEachM (addEdge idx) edges M = Ok A → square n A.
Proof.
  revert M. induction edges as [|edge edges IH]; intros M HM; cbn [forEachM].
  - by intros [= <-].
  - destruct (addEdge idx edge M) as [M'|e] eqn:Hedge; [|discriminate].
    rewrite bind_Ok_l. apply IH. by eapply square_addEdge.
Qed.

Lemma square_ext n (A B : matrix) :
  square n A → square n B →
  (∀ r c, r < n → c < n → mread A r c = mread B r c) → A = B.
Proof.
  intros HA HB Hentries. apply list_eq. intros r.
  destruct (decide (r < n)) as [Hr|Hr].
  - destruct (square_lookup n A r HA Hr) as (rowA & HrowA & HlenA).
    destruct (square_lookup n B r HB Hr) as (rowB & HrowB & HlenB).
    rewrite HrowA, HrowB. f_equal. apply list_eq. intros c.
    destruct (decide (c < n)) as [Hc|Hc].
    + specialize (Hentries r c Hr Hc).
      rewrite (mread_lookup A r c rowA HrowA), (mread_lookup B r c rowB HrowB) in Hentries.
      destruct (lookup_lt_is_Some_2 rowA c) as [a Ha]; [lia|].
      destruct (lookup_lt_is_Some_2 rowB c) as [b Hb]; [lia|].
      rewrite Ha, Hb in *. cbn in Hentries. by rewrite Hentries.
    + by rewrite !lookup_ge_None_2 by lia.
  - rewrite !lookup_ge_None_2; [done|..].
    + rewrite (square_length n B HB). lia.
    + rewrite (square_length n A HA). lia.
Qed.

(** Two edges that resolve to the same pair of indices join the same pair
    of identifiers. *)
Lemma edgeResolves_endpoints l s t e1 e2 :
  edgeResolves (nodeIdToIdx l) s t e1 = true →
  edgeResolves (nodeIdToIdx l) s t e2 = true →
  endpoints e1 = endpoints e2.
Proof.
  unfold edgeResolves. intros [Hs1 Ht1]%bool_decide_eq_true [Hs2 Ht2]%bool_decide_eq_true.
  apply Dict_get_Index, nodeIdToIdx_Some in Hs1 as (n1 & Hn1 & Hid1).
  apply Dict_get_Index, nodeIdToIdx_Some in Hs2 as (n2 & Hn2 & Hid2).
  apply Dict_get_Index, nodeIdToIdx_Some in Ht1 as (m1 & Hm1 & Hjd1).
  apply Dict_get_Index, nodeIdToIdx_Some in Ht2 as (m2 & Hm2 & Hjd2).
  unfold endpoints. congruence.
Qed.

Lemma filter_resolves_short l s t edges :
  NoDup (endpoints <$> edges) →
  length (List.filter (edgeResolves (nodeIdToIdx l) s t) edges) ≤ 1.
Proof.
  induction edges as [|e edges IH]; intros Hnd; [cbn; lia|].
  apply NoDup_cons in Hnd as [Hnotin Hnd]. cbn [List.filter].
  destruct (edgeResolves (nodeIdToIdx l) s t e) eqn:He; [|by apply IH].
  destruct (List.filter (edgeResolves (nodeIdToIdx l) s t) edges) as [|e' rest] eqn:Hf;
    [cbn; lia|].
  exfalso. apply Hnotin.
  assert (In e' (List.filter (edgeResolves (nodeIdToIdx l) s t) edges)) as Hin
    by (rewrite Hf; by left).
  apply filter_In in Hin as [Hin He'].
  rewrite (edgeResolves_endpoints l s t e e' He He').
  apply list_elem_of_fmap. exists e'. split; [done|]. by apply list_elem_of_In.
Qed.

Lemma filter_Permutation_bool {X} (f : X → bool) (l l' : list X) :
  l ≡ₚ l' → List.filter f l ≡ₚ List.filter f l'.
Proof.
  induction 1 as [|x l l' _ IH|x y l|l l' l'' _ IH1 _ IH2]; cbn [List.filter].
  - done.
  - destruct (f x); by rewrite IH.
  - destruct (f x), (f y); try done. apply Permutation_swap.
  - by rewrite IH1.
Qed.

Lemma lastEdgeWeight_permuted l s t edges edges' :
  edges' ≡ₚ edges → NoDup (endpoints <$> edges) →
  lastEdgeWeight (nodeIdToIdx l) edges' s t = lastEdgeWeight (nodeIdToIdx l) edges s t.
Proof.
  intros Hperm Hnd. unfold lastEdgeWeight.
  pose proof (filter_resolves_short l s t edges Hnd) as Hshort.
  pose proof (filter_Permutation_bool (edgeResolves (nodeIdToIdx l) s t) _ _ Hperm) as Hf.
  destruct (List.filter (edgeResolves (nodeIdToIdx l) s t) edges) as [|e [|e2 rest]].
  - by apply Permutation_nil_r in Hf as ->.
  - by apply Permutation_singleton_r in Hf as ->.
  - cbn in Hshort. lia.
Qed.

(** X7: When no two edges of the list join the same ordered pair of
    identifiers, the order of the edges is irrelevant:
    [reconstructAdjacencyMatrix] gives the same matrix, or throws the same
    exception, on every permutation of the edge list. *)
Theorem edge_order_irrelevant
    (nodeList : list CLTGraphNode) (edges edges' : list CLTGraphLink) :
  edges' ≡ₚ edges →
  NoDup (endpoints <$> edges) →
  reconstructAdjacencyMatrix nodeList edges' = reconstructAdjacencyMatrix nodeList edges.
Proof.
  intros Hperm Hnd. unfold reconstructAdjacencyMatrix.
  set (l := sortNodes nodeList). set (n := length l).
  set (Z := replicate n (replicate n 0%float)).
  destruct (forEachM (addEdge (nodeIdToIdx l)) edges Z) as [A|e] eqn:Hrun;
    destruct (forEachM (addEdge (nodeIdToIdx l)) edges' Z) as [A'|e'] eqn:Hrun'.
  - rewrite !bind_Ok_l. do 2 f_equal.
    pose proof (forEachM_addEdge_square n _ edges Z A (square_replicate n) Hrun) as HA.
    pose proof (forEachM_addEdge_square n _ edges' Z A' (square_replicate n) Hrun') as HA'.
    apply (square_ext n); [done|done|]. intros r c Hr Hc.
    destruct (forEachM_addEdge n _ edges Z A c r (square_replicate n) Hc Hr Hrun) as [_ ->].
    destruct (forEachM_addEdge n _ edges' Z A' c r (square_replicate n) Hc Hr Hrun') as [_ ->].
    pose proof (lastEdgeWeight_permuted l c r edges edges' Hperm Hnd) as Hlast.
    unfold lastEdgeWeight in Hlast.
    destruct (last (List.filter _ edges')), (last (List.filter _ edges));
      unfold Z; rewrite ?mread_replicate by done; congruence.
  - apply forEachM_addEdge_Throw in Hrun' as (_ & edge & Hin & Hthrows).
    rewrite Hperm in Hin.
    by rewrite (forEachM_addEdge_edgeThrows _ edges Z edge) in Hrun.
  - apply forEachM_addEdge_Throw in Hrun as (_ & edge & Hin & Hthrows).
    rewrite <-Hperm in Hin.
    by rewrite (forEachM_addEdge_edgeThrows _ edges' Z edge) in Hrun'.
  - apply forEachM_addEdge_Throw in Hrun as [-> _].
    by apply forEachM_addEdge_Throw in Hrun' as [-> _].
Qed.

Lemma edge_order_irrelevant_witness :
  reconstructAdjacencyMatrix (nodes Scenario.graph) (reverse (links Scenario.graph))
  = reconstructAdjacencyMatrix (nodes Scenario.graph) (links Scenario.graph).
Proof.
  apply edge_order_irrelevant.
  - apply reverse_Permutation.
  - by apply (bool_decide_unpack _).
Defined.

(** X8: Two nodes have the same merge key exactly when they have the same layer
    and the same [ctx_idx]: the key built by the template literal does not
    confuse two positions, even when a layer name holds a vertical bar. *)
Theorem mergeKey_no_collision (a b : CLTGraphNode) :
  mergeKey a = mergeKey b ↔ layer a = layer b ∧ ctx_idx a = ctx_idx b.
Proof. apply mergeKey_inj. Qed.

(** ** The matrix after the merge pass *)

(** X9: With [pinnedIds] not empty, the matrix the merge pass ends with is known
    entry by entry: the row and the column of every feature node that is not
    pinned are zero; any other entry is the entry the pass started with plus,
    added in canonical order, the entries of the same row in the columns of
    the merged features whose (layer, ctx_idx) leads to this column in the
    table of error nodes. *)
Theorem mergePass_entries
    (sortedNodes : list CLTGraphNode) (pinnedIds : list string) (M : matrix) (r c : nat) :
  let n := length sortedNodes in
  pinnedIds ≠ [] → square n M → r < n → c < n →
  mread (mergePass sortedNodes pinnedIds M) r c
  = if mergedAt sortedNodes pinnedIds r || mergedAt sortedNodes pinnedIds c then 0%float
    else foldedEntry (errorIndexByKey sortedNodes) pinnedIds M r c sortedNodes.
Proof.
  intros n Hpinned HM Hr Hc. unfold mergePass.
  destruct pinnedIds as [|p ps] eqn:Hps; [done|]. rewrite <-Hps in *.
  replace (0 <? length pinnedIds) with true
    by (symmetry; apply Nat.ltb_lt; rewrite Hps; cbn; lia).
  destruct (forEach_mergeNode_entries sortedNodes pinnedIds M sortedNodes [])
    as [_ Hentries]; [by rewrite app_nil_r|done|].
  by apply Hentries.
Qed.

Lemma mergePass_entries_witness :
  let sorted := [Scenario.F; Scenario.G; Scenario.R; Scenario.Rg; Scenario.E; Scenario.L] in
  let M := Scenario.numbered 6 in
  mread (mergePass sorted ["G"%string] M) 4 2 = (mread M 4 2 + mread M 4 0)%float
  ∧ mread (mergePass sorted ["G"%string] M) 0 4 = 0%float.
Proof.
  split.
  - apply (mergePass_entries
             [Scenario.F; Scenario.G; Scenario.R; Scenario.Rg; Scenario.E; Scenario.L]
             ["G"%string] (Scenario.numbered 6) 4 2);
      [done | apply square_numbered | cbn; lia | cbn; lia].
  - apply (mergePass_entries
             [Scenario.F; Scenario.G; Scenario.R; Scenario.Rg; Scenario.E; Scenario.L]
             ["G"%string] (Scenario.numbered 6) 0 4);
      [done | apply square_numbered | cbn; lia | cbn; lia].
Defined.

(** ** The part [pinnedIds] plays *)

Lemma mergeNode_pinned_feature (p1 p2 : gset string) table node idx M :
  (feature_type node = "cross layer transcoder"%string → node_id node ∈ p1 ↔ node_id node ∈ p2) →
  mergeNode p1 table node idx M = mergeNode p2 table node idx M.
Proof.
  intros Hp. unfold mergeNode.
  destruct (decide (feature_type node ≠ _)) as [|Ht]; [done|].
  apply dec_stable in Ht. specialize (Hp Ht).
  destruct (decide (node_id node ∈ p1)), (decide (node_id node ∈ p2)); tauto.
Qed.

Lemma mergePass_same_features (sortedNodes : list CLTGraphNode) (p1 p2 : list string) M :
  p1 ≠ [] → p2 ≠ [] →
  (∀ node, node ∈ sortedNodes → feature_type node = "cross layer transcoder"%string →
     node_id node ∈ p1 ↔ node_id node ∈ p2) →
  mergePass sortedNodes p1 M = mergePass sortedNodes p2 M.
Proof.
  intros H1 H2 Hp. unfold mergePass.
  destruct p1 as [|a p1]; [done|]. destruct p2 as [|b p2]; [done|].
  cbn [length Nat.ltb Nat.leb]. apply forEach_ext_in. intros node i M' Hnode.
  apply mergeNode_pinned_feature. intros Ht.
  rewrite !elem_of_list_to_set. by apply Hp.
Qed.

Lemma mergePass_all_pinned (sortedNodes : list CLTGraphNode) (pinnedIds : list string) M :
  (∀ node, node ∈ sortedNodes → feature_type node = "cross layer transcoder"%string →
     node_id node ∈ pinnedIds) →
  mergePass sortedNodes pinnedIds M = M.
Proof.
  intros Hp. unfold mergePass. destruct (0 <? length pinnedIds); [|done].
  apply forEach_id_in. intros node i M' Hnode. unfold mergeNode.
  destruct (decide (feature_type node ≠ _)) as [|Ht]; [done|].
  apply dec_stable in Ht. rewrite decide_True; [done|].
  apply elem_of_list_to_set. by apply Hp.
Qed.

(** X10: The scores depend on [pinnedIds] only through the set of feature nodes
    it names: two non-empty lists that pin the same feature nodes of the
    graph give the same result, whatever their order, their repetitions and
    the other identifiers they hold. *)
Theorem pinnedIds_matter_through_features
    (graphData : WorkerGraph) (pinnedIds pinnedIds' : list string) :
  pinnedIds ≠ [] → pinnedIds' ≠ [] →
  (∀ node, node ∈ nodes graphData → feature_type node = "cross layer transcoder"%string →
     node_id node ∈ pinnedIds ↔ node_id node ∈ pinnedIds') →
  computeGraphScoresFromGraphData graphData pinnedIds
  = computeGraphScoresFromGraphData graphData pinnedIds'.
Proof.
  intros H1 H2 Hp. unfold computeGraphScoresFromGraphData, reconstructAdjacencyMatrix.
  destruct (forEachM _ _ _) as [A|e]; [|done]. rewrite !bind_Ok_l.
  rewrite (mergePass_same_features _ pinnedIds pinnedIds'); [done..|].
  intros node Hnode. apply Hp. by rewrite <-(sortNodes_Permutation (nodes graphData)).
Qed.

Lemma pinnedIds_matter_through_features_witness :
  computeGraphScoresFromGraphData Scenario.graph ["L"; "E"]%string
  = computeGraphScoresFromGraphData Scenario.graph ["R"; "R"]%string.
Proof.
  apply pinnedIds_matter_through_features; [done|done|].
  intros node Hnode Ht. cbn in Hnode.
  repeat (apply elem_of_cons in Hnode as [->|Hnode]; [try discriminate Ht|]).
  - split; intros Hin; exfalso; revert Hin; not_in_list.
  - by apply elem_of_nil in Hnode.
Defined.

(** X11: Pinning every feature node of the graph is the same as pinning nothing:
    nothing is merged, and the scores are those of the empty [pinnedIds]. *)
Theorem all_features_pinned_is_unpinned (graphData : WorkerGraph) (pinnedIds : list string) :
  (∀ node, node ∈ nodes graphData → feature_type node = "cross layer transcoder"%string →
     node_id node ∈ pinnedIds) →
  computeGraphScoresFromGraphData graphData pinnedIds
  = computeGraphScoresFromGraphData graphData [].
Proof.
  intros Hp. unfold computeGraphScoresFromGraphData, reconstructAdjacencyMatrix.
  destruct (forEachM _ _ _) as [A|e]; [|done]. rewrite !bind_Ok_l.
  rewrite (mergePass_all_pinned _ pinnedIds); [done|].
  intros node Hnode. apply Hp. by rewrite <-(sortNodes_Permutation (nodes graphData)).
Qed.

Lemma all_features_pinned_is_unpinned_witness :
  computeGraphScoresFromGraphData Scenario.graph ["F"; "L"]%string
  = computeGraphScoresFromGraphData Scenario.graph [].
Proof.
  apply all_features_pinned_is_unpinned.
  intros node Hnode Ht. cbn in Hnode.
  repeat (apply elem_of_cons in Hnode as [->|Hnode]; [try discriminate Ht|]).
  - by left.
  - by apply elem_of_nil in Hnode.
Defined.

(** ** The exceptions of [compute] *)

Lemma mergePass_nil pinnedIds M : mergePass [] pinnedIds M = M.
Proof. unfold mergePass. by destruct (0 <? length pinnedIds). Qed.

Lemma compute_outcomes (graphData : WorkerGraph) (pinnedIds : list string) :
  let idx := nodeIdToIdx (sortNodes (nodes graphData)) in
  let unguarded :=
    nodes graphData = [] ∨ ∃ edge, edge ∈ links graphData ∧ edgeThrows idx edge in
  (computeGraphScoresFromGraphData graphData pinnedIds = Throw TypeError ↔ unguarded)
  ∧ (unguarded
     ∨ (∃ r, computeGraphScoresFromGraphData graphData pinnedIds = Ok r)
     ∨ computeGraphScoresFromGraphData graphData pinnedIds
       = Throw (Error (convergenceMessage 1000))).
Proof.
  intros idx unguarded. subst unguarded. destruct graphData as [nodeList edges]. cbn [nodes links] in *.
  unfold computeGraphScoresFromGraphData, reconstructAdjacencyMatrix. cbn [nodes links].
  fold idx. set (n := length (sortNodes nodeList)).
  destruct (forEachM (addEdge idx) edges (replicate n (replicate n 0%float)))
    as [A|e] eqn:Hloop.
  2: { apply forEachM_addEdge_Throw in Hloop as [-> Hedge].
       cbn. split; [split; [by right|done]|left; by right]. }
  rewrite !bind_Ok_l.
  assert (square n A) as HA
    by (eapply forEachM_addEdge_square; [apply square_replicate|done]).
  assert (¬ ∃ edge, edge ∈ edges ∧ edgeThrows idx edge) as Hguarded.
  { intros (edge & Hin & Hthrows).
    by rewrite (forEachM_addEdge_edgeThrows _ _ _ _ Hin Hthrows) in Hloop. }
  destruct nodeList as [|node nodeList].
  { destruct HA as [HA%nil_length_inv _]. subst A.
    change (sortNodes []) with (@nil CLTGraphNode). rewrite mergePass_nil.
    split; [split; [by left|intros _; reflexivity]|left; by left]. }
  assert (0 < n) as Hn by (unfold n; rewrite sortNodes_length; cbn; lia).
  pose proof (square_mergePass n (sortNodes (node :: nodeList)) pinnedIds A HA) as HM.
  unfold scoresFromMatrix.
  destruct (computeInfluence_square n
              (normalizeMatrix (mergePass (sortNodes (node :: nodeList)) pinnedIds A))
              (logitWeights (sortNodes (node :: nodeList))
                 (length (mergePass (sortNodes (node :: nodeList)) pinnedIds A))))
    as [[r ->]| ->]; [done|by apply square_normalizeMatrix| | |].
  - rewrite (square_length n _ HM).
    by destruct (logitWeights_Forall (λ _, True) (sortNodes (node :: nodeList)) n).
  - rewrite bind_Ok_l. split; [|right; left; eauto].
    split; [discriminate|]. intros [?|?]; [done|by destruct Hguarded].
  - split; [|by right; right].
    split; [discriminate|]. intros [?|?]; [done|by destruct Hguarded].
Qed.

(** X12: [compute] throws a [TypeError] exactly on the inputs the code does not
    guard: a graph without nodes ([A[0].length] on the empty matrix), or an
    edge whose source is not [undefined] in the table of indices and whose
    target is the name of a property inherited from [Object.prototype] (the
    row [adjacencyMatrix[targetIdx]] is then [undefined]).  On every other
    input it returns scores or throws the convergence failure of 1000
    iterations; it throws nothing else. *)
Theorem compute_exceptions (graphData : WorkerGraph) (pinnedIds : list string) :
  let idx := nodeIdToIdx (sortNodes (nodes graphData)) in
  let unguarded :=
    nodes graphData = [] ∨ ∃ edge, edge ∈ links graphData ∧ edgeThrows idx edge in
  (computeGraphScoresFromGraphData graphData pinnedIds = Throw TypeError ↔ unguarded)
  ∧ (unguarded
     ∨ (∃ r, computeGraphScoresFromGraphData graphData pinnedIds = Ok r)
     ∨ computeGraphScoresFromGraphData graphData pinnedIds
       = Throw (Error (convergenceMessage 1000))).
Proof. apply compute_outcomes. Qed.

(** ** The scores returned *)

Lemma nanToZero_not_nan (x : float) : is_nan (Js.nanToZero x) = false.
Proof. unfold Js.nanToZero. by destruct (is_nan x) eqn:Hx. Qed.

Lemma scoresFromMatrix_not_nan sortedNodes M scores :
  scoresFromMatrix sortedNodes M = Ok scores →
  is_nan (replacementScore scores) = false ∧ is_nan (completenessScore scores) = false.
Proof.
  unfold scoresFromMatrix. destruct (computeInfluence _ _) as [influence|e]; [|discriminate].
  rewrite bind_Ok_l. intros [= <-]. cbn [replacementScore completenessScore].
  split; apply nanToZero_not_nan.
Qed.

Lemma scores_not_nan
    (graphData : WorkerGraph) (pinnedIds : list string) (scores : ScoreResult) :
  computeGraphScoresFromGraphData graphData pinnedIds = Ok scores →
  is_nan (replacementScore scores) = false ∧ is_nan (completenessScore scores) = false.
Proof.
  unfold computeGraphScoresFromGraphData.
  destruct (reconstructAdjacencyMatrix _ _) as [[A sortedNodes]|e]; [|discriminate].
  rewrite bind_Ok_l. apply scoresFromMatrix_not_nan.
Qed.

(** X13: Whenever [compute] returns, neither score is NaN: the ratios 0/0 of the
    degenerate graphs have been replaced by 0. *)
Theorem scores_never_NaN
    (graphData : WorkerGraph) (pinnedIds : list string) (scores : ScoreResult) :
  computeGraphScoresFromGraphData graphData pinnedIds = Ok scores →
  is_nan (replacementScore scores) = false ∧ is_nan (completenessScore scores) = false.
Proof. apply scores_not_nan. Qed.

Lemma scores_never_NaN_witness :
  ∃ scores,
    computeGraphScoresFromGraphData {| nodes := [Scenario.L]; links := [] |} [] = Ok scores
    ∧ is_nan (replacementScore scores) = false ∧ is_nan (completenessScore scores) = false.
Proof.
  eexists. split; [by vm_compute|].
  apply (scores_never_NaN {| nodes := [Scenario.L]; links := [] |} []). by vm_compute.
Defined.

(** A score that is not NaN can be infinite: with logit weights [1] and [-1]
    reached from the token and from the error node, the two influences
    cancel and the replacement ratio is 1/0. *)
Lemma scores_can_be_infinite :
  computeGraphScoresFromGraphData
    {| nodes := [Scenario.E; Scenario.R; Scenario.L;
                 {| node_id := "L2"; feature_type := "logit"; layer := "3"; ctx_idx := 0;
                    feature := None; token_prob := Some (-1)%float |}];
       links := [Scenario.edge "E" "L" 1; Scenario.edge "R" "L2" 1] |} []
  = Ok {| replacementScore := infinity; completenessScore := infinity |}.
Proof. by vm_compute. Qed.

(** ** Signs in the normalized matrix *)

(** A number whose sign bit is clear, or NaN. *)
Lemma SFdiv_abs_not_negative (v c : spec_float) :
  match c with
  | S754_nan | S754_finite false _ _ | S754_infinity false => True
  | _ => False
  end →
  SFltb (SF64div (SFabs v) c) (S754_zero false) = false.
Proof.
  intros Hc. destruct c as [[]|[]| |[] m e]; try done;
    destruct v as [s|s| |s mv ev]; try reflexivity.
  unfold SFabs, SF64div, SFdiv.
  destruct (SFdiv_core_binary _ _ _ _ _ _) as [[mz ez] lz]. cbn [xorb].
  unfold binary_round_aux.
  destruct (shr_fexp _ _ _ _ _) as [mrs' e'].
  destruct (shr_fexp _ _ _ _ _) as [mrs'' e''].
  destruct (shr_m mrs'') as [|p|p]; [reflexivity| |reflexivity].
  by destruct (e'' <=? _)%Z.
Qed.

Lemma is_nan_spec (x : float) : is_nan x = negb (SFeqb (Prim2SF x) (Prim2SF x)).
Proof. unfold is_nan. by rewrite FloatAxioms.eqb_spec. Qed.

(** The clamped sum is NaN or a positive number. *)
Lemma Math_max_epsilon_positive (sum : float) :
  match Prim2SF (Js.Math_max sum a_epsilon) with
  | S754_nan | S754_finite false _ _ | S754_infinity false => True
  | _ => False
  end.
Proof.
  unfold Js.Math_max. rewrite (is_nan_spec sum), (is_nan_spec a_epsilon).
  rewrite (ltb_spec sum), (ltb_spec a_epsilon), Prim2SF_epsilon.
  destruct (get_sign sum); destruct (Prim2SF sum) as [[]|[]| |[] m e] eqn:Hsum;
    cbn [SFeqb SFltb SFcompare negb orb];
    rewrite ?Prim2SF_epsilon, ?Hsum; try done;
    repeat (match goal with |- context [if ?b then _ else _] => destruct b end);
    rewrite ?Prim2SF_epsilon, ?Hsum; done.
Qed.

Lemma normalizeRow_signs (row : list float) (x : float) :
  x ∈ normalizeRow row → (x <? 0)%float = false.
Proof.
  unfold normalizeRow. cbn [a_abs a_add a_zero a_max a_div float_arith].
  change (map ?f ?l) with (f <$> l).
  intros (v' & -> & (v & -> & _)%list_elem_of_fmap)%list_elem_of_fmap.
  rewrite ltb_spec, div_spec, abs_spec.
  apply SFdiv_abs_not_negative, Math_max_epsilon_positive.
Qed.

(** X14: No entry of the normalized matrix is less than zero, whatever the
    numbers of the input (negative, infinite, NaN): each entry is an
    absolute value divided by a sum clamped above 0, so it is NaN or has a
    clear sign bit. *)
Theorem normalizeMatrix_never_negative (M : matrix) (row : list float) (x : float) :
  row ∈ normalizeMatrix M → x ∈ row → (x <? 0)%float = false.
Proof.
  unfold normalizeMatrix. change (map ?f ?l) with (f <$> l).
  intros (row' & -> & _)%list_elem_of_fmap. apply normalizeRow_signs.
Qed.

Lemma normalizeMatrix_never_negative_witness :
  normalizeMatrix [[1; -3]; [nan; -2]]%float = [[0.25; 0.75]; [nan; nan]]%float
  ∧ (0.75 <? 0)%float = false.
Proof.
  split; [reflexivity|].
  apply (normalizeMatrix_never_negative [[1; -3]; [nan; -2]]%float [0.25; 0.75]%float).
  - change ([0.25; 0.75]%float ∈ [0.25; 0.75]%float :: normalizeMatrix [[nan; -2]%float]).
    by left.
  - right. by left.
Defined.

(** ** Layers written as decimal numbers *)

(** A text that starts with a byte below 194 which is no white space is not
    trimmed: the white space of two and three bytes starts at 194. *)
Lemma trimStart_plain (c : ascii) (rest : string) :
  ParseInt.whiteSpace1 c = false → nat_of_ascii c < 194 →
  ParseInt.trimStart (String c rest) = String c rest.
Proof.
  intros Hws Hc. cbn [ParseInt.trimStart]. rewrite Hws.
  assert (∀ c2, ParseInt.whiteSpace2 c c2 = false) as H2.
  { intros c2. unfold ParseInt.whiteSpace2. apply bool_decide_eq_false. intros [= H _]. lia. }
  assert (∀ c2 c3, ParseInt.whiteSpace3 c c2 c3 = false) as H3.
  { intros c2 c3. unfold ParseInt.whiteSpace3.
    rewrite !orb_false_iff. split_and!; apply bool_decide_eq_false;
      first [intros [= H _ _]; lia | intros (H & _); lia]. }
  destruct rest as [|c2 [|c3 rest]]; by rewrite ?H2, ?H3.
Qed.

Lemma digits_acc (d : Decimal.uint) (acc : positive) :
  ParseInt.digits (NilEmpty.string_of_uint d) (Some (Z.pos acc))
  = Some (Z.pos (Pos.of_uint_acc d acc)).
Proof.
  revert acc. induction d as [|d IH|d IH|d IH|d IH|d IH|d IH|d IH|d IH|d IH|d IH];
    intros acc; [done|..];
    cbn [NilEmpty.string_of_uint ParseInt.digits Pos.of_uint_acc];
    (etrans; [|apply IH]); vm_compute ParseInt.digitValue; cbn [default from_option]; unfold id;
    do 2 f_equal; lia.
Qed.

Lemma digits_zero (d : Decimal.uint) :
  ParseInt.digits (NilEmpty.string_of_uint d) (Some 0%Z) = Some (Z.of_N (Pos.of_uint d)).
Proof.
  induction d as [|d IH|d IH|d IH|d IH|d IH|d IH|d IH|d IH|d IH|d IH]; [done|..];
    cbn [NilEmpty.string_of_uint ParseInt.digits Pos.of_uint]; vm_compute ParseInt.digitValue;
    cbn [default from_option]; unfold id; [apply IH|apply digits_acc..].
Qed.

Lemma digits_None (d : Decimal.uint) :
  d ≠ Decimal.Nil →
  ParseInt.digits (NilEmpty.string_of_uint d) None = Some (Z.of_N (Pos.of_uint d)).
Proof.
  destruct d; [done|..]; intros _;
    cbn [NilEmpty.string_of_uint ParseInt.digits Pos.of_uint]; vm_compute ParseInt.digitValue;
    cbn [default from_option]; unfold id; [apply digits_zero|apply digits_acc..].
Qed.

Lemma sign_uint (d : Decimal.uint) :
  d ≠ Decimal.Nil →
  ParseInt.sign (ParseInt.trimStart (NilEmpty.string_of_uint d))
  = (false, NilEmpty.string_of_uint d).
Proof.
  intros Hd. destruct d; [done|..]; cbn [NilEmpty.string_of_uint];
    by rewrite trimStart_plain by (reflexivity || (vm_compute; lia)).
Qed.

Lemma sign_minus (text : string) :
  ParseInt.sign (ParseInt.trimStart (String "-" text)) = (true, text).
Proof. by rewrite trimStart_plain by (reflexivity || (vm_compute; lia)). Qed.

Lemma NilZero_string_of_uint (d : Decimal.uint) :
  d ≠ Decimal.Nil → NilZero.string_of_uint d = NilEmpty.string_of_uint d.
Proof. by destruct d. Qed.

(** [parseInt] reads back the integer that a decimal text denotes, as a
    Number. *)
Lemma parseInt_numberToString (z : Z) :
  ParseInt.parseInt (Js.numberToString z) = Js.ofInteger z (bool_decide (z < 0)%Z).
Proof.
  unfold Js.numberToString, ParseInt.parseInt.
  destruct z as [|p|p]; [by vm_compute|..]; cbn [Z.to_int].
  - pose proof (DecimalPos.Unsigned.to_uint_nonnil p) as Hnil.
    unfold NilZero.string_of_int. rewrite NilZero_string_of_uint by done.
    rewrite sign_uint, digits_None by done.
    by rewrite DecimalPos.Unsigned.of_to.
  - pose proof (DecimalPos.Unsigned.to_uint_nonnil p) as Hnil.
    unfold NilZero.string_of_int. rewrite NilZero_string_of_uint by done.
    rewrite sign_minus, digits_None by done.
    by rewrite DecimalPos.Unsigned.of_to.
Qed.

Lemma numberToString_not_E (z : Z) : Js.numberToString z ≠ "E"%string.
Proof.
  unfold Js.numberToString. destruct z as [|p|p]; [done|..]; cbn [Z.to_int].
  - pose proof (DecimalPos.Unsigned.to_uint_nonnil p) as Hnil.
    unfold NilZero.string_of_int. rewrite NilZero_string_of_uint by done.
    destruct (Pos.to_uint p) as [|d|d|d|d|d|d|d|d|d|d]; done.
  - done.
Qed.

Lemma layerNum_decimal (node : CLTGraphNode) (z : Z) :
  (Z.abs z < 2 ^ 53)%Z → layer node = Js.numberToString z → layerNum node = z.
Proof.
  intros Hz Hlayer. unfold layerNum. rewrite Hlayer, parseInt_numberToString.
  rewrite decide_False by apply numberToString_not_E.
  by destruct (ofInteger_small z (bool_decide (z < 0)%Z) Hz) as [-> ->].
Qed.

(** X15: A layer written as the decimal text of an integer [z] below [2^53]
    in absolute value is ranked by [z]: [parseInt] reads back the number
    without rounding, so that the layers ["9"] and ["10"] are ordered as 9
    and 10, not as texts. *)
Theorem layerNum_of_decimal_layer (node : CLTGraphNode) (z : Z) :
  (Z.abs z < 2 ^ 53)%Z → layer node = Js.numberToString z → layerNum node = z.
Proof. apply layerNum_decimal. Qed.

Lemma layerNum_of_decimal_layer_witness :
  layerNum Scenario.F = 3%Z
  ∧ layerNum {| node_id := "N"; feature_type := "logit"; layer := "-12"; ctx_idx := 0;
                feature := None; token_prob := None |} = (-12)%Z.
Proof.
  split.
  - by apply (layerNum_of_decimal_layer Scenario.F 3).
  - by apply (layerNum_of_decimal_layer _ (-12)).
Defined.

(** Beyond [2^53] the number read is rounded, and two layers that differ as
    texts can have the same number; so can a layer with white space in
    front, here U+00A0.  A layer with more digits than binary64 holds reads
    as infinity, a text without digit as NaN. *)
Lemma parseInt_examples :
  ParseInt.parseInt "9007199254740993" = 0x1p53%float
  ∧ ParseInt.parseInt "9007199254740992" = 0x1p53%float
  ∧ ParseInt.parseInt (String (ascii_of_nat 194) (String (ascii_of_nat 160) "5")) = 5%float
  ∧ ParseInt.parseInt (Js.numberToString (10 ^ 400)) = infinity
  ∧ ParseInt.parseInt "12px" = 12%float
  ∧ ParseInt.parseInt "-0" = (-0)%float
  ∧ ParseInt.parseInt "px" = nan.
Proof. split_and!; by vm_compute. Qed.

(** ** The message handler *)

Lemma errorMessage_not_empty typeErrorText err : errorMessage typeErrorText err ≠ ""%string.
Proof. unfold errorMessage. by case_decide. Qed.

Lemma onmessage_replies (typeErrorText : string) (data : MessageData) :
  (onmessage typeErrorText data = None ↔ data = Falsy)
  ∧ ∀ reply, onmessage typeErrorText data = Some reply →
      (∃ requestId graph pinnedIds scores,
         data = Object (Some requestId) (Some graph) pinnedIds
         ∧ computeGraphScoresFromGraphData graph (default [] pinnedIds) = Ok scores
         ∧ reply = {| reply_requestId := Some requestId; reply_scores := Some scores;
                      reply_error := None |}
         ∧ is_nan (replacementScore scores) = false
         ∧ is_nan (completenessScore scores) = false)
      ∨ (∃ message, reply = errorReply message ∧ message ≠ ""%string).
Proof.
  split.
  - destruct data as [| |[requestId|] [graph|] pinnedIds]; cbn; try done.
    by destruct (computeGraphScoresFromGraphData _ _).
  - intros reply.
    destruct data as [| |[requestId|] [graph|] pinnedIds]; cbn; try done;
      try (intros [= <-]; right; eexists; split; [done|done]).
    destruct (computeGraphScoresFromGraphData _ _) as [scores|err] eqn:Hscores;
      intros [= <-].
    + left. exists requestId, graph, pinnedIds, scores. split_and!; [done..| |];
        by eapply scores_not_nan.
    + right. eexists. split; [done|]. apply errorMessage_not_empty.
Qed.

(** X17: The handler stays silent on falsy data only.  Any reply it posts is
    either the scores that [compute] returns for the graph and the pinned
    identifiers of the message, neither of them NaN, under the [requestId]
    of that message, or an object that holds a non-empty [error] text and
    nothing else: an error reply names no request. *)
Theorem worker_replies (typeErrorText : string) (data : MessageData) :
  (onmessage typeErrorText data = None ↔ data = Falsy)
  ∧ ∀ reply, onmessage typeErrorText data = Some reply →
      (∃ requestId graph pinnedIds scores,
         data = Object (Some requestId) (Some graph) pinnedIds
         ∧ computeGraphScoresFromGraphData graph (default [] pinnedIds) = Ok scores
         ∧ reply = {| reply_requestId := Some requestId; reply_scores := Some scores;
                      reply_error := None |}
         ∧ is_nan (replacementScore scores) = false
         ∧ is_nan (completenessScore scores) = false)
      ∨ (∃ message, reply = errorReply message ∧ message ≠ ""%string).
Proof. apply onmessage_replies. Qed.

Lemma onmessage_guarded
    (typeErrorText : string) (requestId : float) (graph : WorkerGraph)
    (pinnedIds : option (list string)) :
  nodes graph ≠ [] →
  (∀ edge, edge ∈ links graph → target edge ∉ Dict.objectPrototypeKeys) →
  (∃ scores,
     computeGraphScoresFromGraphData graph (default [] pinnedIds) = Ok scores
     ∧ onmessage typeErrorText (Object (Some requestId) (Some graph) pinnedIds)
       = Some {| reply_requestId := Some requestId; reply_scores := Some scores;
                 reply_error := None |})
  ∨ onmessage typeErrorText (Object (Some requestId) (Some graph) pinnedIds)
    = Some (errorReply "Influence computation failed to converge after 1000 iterations").
Proof.
  intros Hnodes Hedges. cbn [onmessage]. destruct graph as [nodeList edges].
  destruct (compute_scores_or_convergence_failure nodeList edges (default [] pinnedIds))
    as [[scores ->]| ->]; [done..| |].
  - left. by exists scores.
  - right. by rewrite convergenceMessage_1000.
Qed.

(** X18: A request whose graph has a node, and no edge with a target named like
    a property every object inherits, is answered with the scores of
    [compute] on the graph and the pinned identifiers ([[]] when the message
    holds none), under the [requestId] of the request, or else with the
    error text of the convergence failure. *)
Theorem worker_answers_request
    (typeErrorText : string) (requestId : float) (graph : WorkerGraph)
    (pinnedIds : option (list string)) :
  nodes graph ≠ [] →
  (∀ edge, edge ∈ links graph → target edge ∉ Dict.objectPrototypeKeys) →
  (∃ scores,
     computeGraphScoresFromGraphData graph (default [] pinnedIds) = Ok scores
     ∧ onmessage typeErrorText (Object (Some requestId) (Some graph) pinnedIds)
       = Some {| reply_requestId := Some requestId; reply_scores := Some scores;
                 reply_error := None |})
  ∨ onmessage typeErrorText (Object (Some requestId) (Some graph) pinnedIds)
    = Some (errorReply "Influence computation failed to converge after 1000 iterations").
Proof. apply onmessage_guarded. Qed.

Lemma worker_answers_request_witness :
  (∃ scores,
     computeGraphScoresFromGraphData Scenario.graph [] = Ok scores
     ∧ onmessage "TypeError" (Object (Some 7%float) (Some Scenario.graph) None)
       = Some {| reply_requestId := Some 7%float; reply_scores := Some scores;
                 reply_error := None |})
  ∨ onmessage "TypeError" (Object (Some 7%float) (Some Scenario.graph) None)
    = Some (errorReply "Influence computation failed to converge after 1000 iterations").
Proof.
  apply (worker_answers_request "TypeError" 7%float Scenario.graph None); [done|].
  intros edge Hedge. cbn in Hedge.
  repeat (apply elem_of_cons in Hedge as [->|Hedge]; [not_in_list|]).
  by apply elem_of_nil in Hedge.
Defined.

(** ** Bounds in [computeInfluence] *)

Lemma traverse_length {X Y} (f : X → Result Y) (l : list X) (ys : list Y) :
  traverse f l = Ok ys → length ys = length l.
Proof.
  revert ys. induction l as [|x l IH]; intros ys; cbn [traverse]; [by intros [= <-]|].
  destruct (f x) as [y|e]; [|discriminate]. rewrite bind_Ok_l.
  destruct (traverse f l) as [ys'|e]; [|discriminate]. rewrite bind_Ok_l.
  intros [= <-]. cbn. by rewrite (IH ys').
Qed.

Lemma propagate_length A ncols v r : propagate A ncols v = Ok r → length r = ncols.
Proof. unfold propagate. intros Hr%traverse_length. by rewrite length_seq in Hr. Qed.

Lemma accumulate_length influence cur : length (accumulate influence cur) = length influence.
Proof. unfold accumulate. apply length_imap. Qed.

Lemma influenceLoop_length A ncols maxIter fuel :
  ∀ iterations cur influence r,
    influenceLoop A ncols maxIter fuel iterations cur influence = Ok r →
    length r = length influence.
Proof.
  induction fuel as [|fuel IH]; intros iterations cur influence r; cbn [influenceLoop];
    destruct (someNonZero cur); try (by intros [= <-]);
    destruct (maxIter <=? iterations); try discriminate.
  destruct (propagate A ncols cur) as [new|e]; [|discriminate]. rewrite bind_Ok_l.
  intros Hr%IH. by rewrite accumulate_length in Hr.
Qed.

(** A vector with more entries than the matrix has rows reads a row that
    does not exist. *)
Lemma dotColumn_out_of_range A j (v : list float) :
  ∀ i acc, i ≤ length A → length A < i + length v →
    dotColumn A j i v acc = Throw TypeError.
Proof.
  induction v as [|vi v IH]; intros i acc Hi Hlen; cbn [length] in Hlen; [lia|].
  cbn [dotColumn]. unfold entry. destruct (A !! i) as [row|] eqn:Hrow; [|done].
  rewrite bind_Ok_l. apply IH; [|lia].
  apply lookup_lt_Some in Hrow. lia.
Qed.

Lemma computeInfluence_edges (A : matrix) (logitWeights : list float) :
  (A = [] → computeInfluence A logitWeights = Throw TypeError)
  ∧ (∀ row0, A !! 0 = Some row0 → row0 ≠ [] → length A < length logitWeights →
       computeInfluence A logitWeights = Throw TypeError)
  ∧ (∀ row0, A !! 0 = Some row0 → row0 = [] → computeInfluence A logitWeights = Ok [])
  ∧ (∀ influence, computeInfluence A logitWeights = Ok influence →
       ∃ row0, A !! 0 = Some row0 ∧ length influence = length row0).
Proof.
  unfold computeInfluence, computeInfluenceWith. split_and!.
  - by intros ->.
  - intros row0 -> Hrow Hlen. unfold propagate.
    destruct row0 as [|x row0]; [done|]. cbn [length seq traverse].
    by rewrite dotColumn_out_of_range by lia.
  - by intros row0 -> ->.
  - intros influence. destruct (A !! 0) as [row0|]; [|discriminate].
    destruct (propagate A (length row0) logitWeights) as [seed|e] eqn:Hseed; [|discriminate].
    rewrite bind_Ok_l. intros Hr%influenceLoop_length.
    exists row0. split; [done|]. by rewrite Hr, (propagate_length _ _ _ _ Hseed).
Qed.

(** X16: What [computeInfluence] does at the bounds of its arguments.  The empty
    matrix makes [A[0].length] throw.  A weight vector longer than the
    matrix has rows makes [A[i][j]] throw, as soon as there is a column.  A
    matrix whose first row is empty has no column, and the result is the
    empty vector.  Whenever the function returns, the influence vector has
    one entry for each entry of the first row. *)
Theorem computeInfluence_bounds (A : matrix) (logitWeights : list float) :
  (A = [] → computeInfluence A logitWeights = Throw TypeError)
  ∧ (∀ row0, A !! 0 = Some row0 → row0 ≠ [] → length A < length logitWeights →
       computeInfluence A logitWeights = Throw TypeError)
  ∧ (∀ row0, A !! 0 = Some row0 → row0 = [] → computeInfluence A logitWeights = Ok [])
  ∧ (∀ influence, computeInfluence A logitWeights = Ok influence →
       ∃ row0, A !! 0 = Some row0 ∧ length influence = length row0).
Proof. apply computeInfluence_edges. Qed.
